(** * NutritionBot: free-form food text extraction and macro resolution

    A shallow embedding of [bot.py]: the name normaliser [clean_food_name],
    the three-pattern mention grammar and deduplicator of [parse_food_text],
    the reference matcher [match_known_food] (over [difflib]), the scaler
    [scale_macros] and the batch handler [free_form_input].

    Conventions of the embedding.
    - A Python [str] is a [list ascii]; the texts covered are ASCII texts
      (the character classes [\d], [\s], [\w] and the case mappings are the
      ASCII restrictions of Python's).  Module [Wide] has the name
      normaliser on texts that hold two letters beyond ASCII as well, whose
      case mappings change the length of a text.
    - The answers of the estimator are profiles of four floats in section
      [Handler] and any decoded value in module [Untyped].
    - A Python [int] is a [Z].  A Python [float] is the rational it
      denotes ([Q]), and every floating-point operation of the source is the
      exact operation followed by the rounding to the nearest double
      (module [Double]).  Infinities and NaN are not modelled: the numbers
      covered are those whose magnitude stays below 2^1024.
    - A Python [dict] whose iteration order is observable is an association
      list in insertion order. *)

From Stdlib Require Import List Ascii String ZArith QArith Qabs Qpower Lia Bool
  Arith Sorted Permutation.
Import ListNotations.

Local Open Scope nat_scope.
Local Open Scope list_scope.

(** Python [str] values. *)
Definition str : Type := list ascii.

(** String literals of the source, as [str]. *)
Definition L (s : string) : str := list_ascii_of_string s.

Definition str_eqb (a b : str) : bool :=
  if list_eq_dec ascii_dec a b then true else false.

(** ** Characters *)

Module Char.

Definition code (c : ascii) : nat := nat_of_ascii c.

Definition between (lo hi : nat) (c : ascii) : bool :=
  (lo <=? code c) && (code c <=? hi).

(** [\d] *)
Definition is_digit (c : ascii) : bool := between 48 57 c.
Definition is_upper (c : ascii) : bool := between 65 90 c.
Definition is_lower (c : ascii) : bool := between 97 122 c.
(** [[a-zA-Z]] *)
Definition is_alpha (c : ascii) : bool := is_upper c || is_lower c.
(** [\s] and [str.isspace]: TAB LF VT FF CR, FS GS RS US, SPACE. *)
Definition is_space (c : ascii) : bool := between 9 13 c || between 28 32 c.
(** [\w] *)
Definition is_word (c : ascii) : bool :=
  is_alpha c || is_digit c || (code c =? 95).

Definition lower (c : ascii) : ascii :=
  if is_upper c then ascii_of_nat (code c + 32) else c.
Definition upper (c : ascii) : ascii :=
  if is_lower c then ascii_of_nat (code c - 32) else c.

End Char.

(** ** The methods of [str] the program uses *)

Module Str.

(** [s.lower()] *)
Definition lower (s : str) : str := map Char.lower s.

(** [s.capitalize()]: first character upper-cased, the others lower-cased. *)
Definition capitalize (s : str) : str :=
  match s with
  | [] => []
  | c :: w => Char.upper c :: map Char.lower w
  end.

Fixpoint lstrip (s : str) : str :=
  match s with
  | c :: s' => if Char.is_space c then lstrip s' else s
  | [] => []
  end.

Definition rstrip (s : str) : str := rev (lstrip (rev s)).

(** [s.strip()] *)
Definition strip (s : str) : str := rstrip (lstrip s).

(** The word under construction is kept reversed in [acc]. *)
Definition flush (acc : str) : list str :=
  match acc with
  | [] => []
  | _ => [rev acc]
  end.

Fixpoint split_go (acc : str) (s : str) : list str :=
  match s with
  | [] => flush acc
  | c :: s' =>
      if Char.is_space c then flush acc ++ split_go [] s'
      else split_go (c :: acc) s'
  end.

(** [s.split()]: the maximal runs of non-whitespace characters. *)
Definition split (s : str) : list str := split_go [] s.

(** [sep.join(ws)] *)
Fixpoint join (sep : str) (ws : list str) : str :=
  match ws with
  | [] => []
  | [w] => w
  | w :: ws' => w ++ sep ++ join sep ws'
  end.

End Str.

(** ** A backtracking matcher for the fragment of [re] the program uses

    Repetition occurs in the program's patterns only over character classes,
    so [Star] and [Plus] take a class.  Matching is greedy with backtracking,
    alternatives are tried left to right, as in Python's [re]. *)

Module Re.

Inductive regex : Type :=
| Chr (c : ascii)
| Cls (p : ascii -> bool)
| Seq (r1 r2 : regex)
| Alt (r1 r2 : regex)
| Opt (r : regex)
| Star (p : ascii -> bool)
| Plus (p : ascii -> bool)
| Bnd
| Grp (n : nat) (r : regex).

(** A literal word. *)
Fixpoint Lit (s : str) : regex :=
  match s with
  | [] => Opt (Cls (fun _ => false))
  | [c] => Chr c
  | c :: s' => Seq (Chr c) (Lit s')
  end.

(** Matcher state: the character before the cursor, the text from the cursor
    on, the cursor's offset from the start of the attempt, and the groups
    captured so far (most recent first). *)
Record mstate : Type := MState {
  prev : option ascii;
  rest : str;
  pos : nat;
  caps : list (nat * str)
}.

Definition advance (st : mstate) (c : ascii) (s' : str) : mstate :=
  MState (Some c) s' (S (pos st)) (caps st).

Definition set_cap (n : nat) (v : str) (st : mstate) : mstate :=
  MState (prev st) (rest st) (pos st) ((n, v) :: caps st).

(** Character comparison, under [re.IGNORECASE] when [ci] is set. *)
Definition chr_eq (ci : bool) (c x : ascii) : bool :=
  if ci then Ascii.eqb (Char.lower c) (Char.lower x) else Ascii.eqb c x.

Definition wordb (o : option ascii) : bool :=
  match o with
  | Some c => Char.is_word c
  | None => false
  end.

(** [\b]: exactly one side of the cursor is a word character. *)
Definition at_boundary (st : mstate) : bool :=
  xorb (wordb (prev st)) (wordb (hd_error (rest st))).

Definition cont : Type := mstate -> option mstate.

(** Greedy repetition of a class: take as many characters as possible, give
    them back one at a time while the continuation fails. *)
Fixpoint star_cls (p : ascii -> bool) (k : cont)
    (pv : option ascii) (s : str) (i : nat) (cs : list (nat * str))
    : option mstate :=
  match s with
  | c :: s' =>
      if p c then
        match star_cls p k (Some c) s' (S i) cs with
        | Some r => Some r
        | None => k (MState pv s i cs)
        end
      else k (MState pv s i cs)
  | [] => k (MState pv s i cs)
  end.

Definition star (p : ascii -> bool) (k : cont) (st : mstate) : option mstate :=
  star_cls p k (prev st) (rest st) (pos st) (caps st).

Fixpoint rmatch (ci : bool) (r : regex) (k : cont) (st : mstate)
    : option mstate :=
  match r with
  | Chr c =>
      match rest st with
      | x :: s' => if chr_eq ci c x then k (advance st x s') else None
      | [] => None
      end
  | Cls p =>
      match rest st with
      | x :: s' => if p x then k (advance st x s') else None
      | [] => None
      end
  | Seq r1 r2 => rmatch ci r1 (rmatch ci r2 k) st
  | Alt r1 r2 =>
      match rmatch ci r1 k st with
      | Some res => Some res
      | None => rmatch ci r2 k st
      end
  | Opt r1 =>
      match rmatch ci r1 k st with
      | Some res => Some res
      | None => k st
      end
  | Star p => star p k st
  | Plus p =>
      match rest st with
      | x :: s' => if p x then star p k (advance st x s') else None
      | [] => None
      end
  | Bnd => if at_boundary st then k st else None
  | Grp n r1 =>
      rmatch ci r1
        (fun st' => k (set_cap n (firstn (pos st' - pos st) (rest st)) st'))
        st
  end.

(** One attempt at the cursor: [prev] is the character before it. *)
Definition match_at (ci : bool) (r : regex) (pv : option ascii) (s : str)
    : option mstate :=
  rmatch ci r Some (MState pv s 0 []).

(** [m.group(n)] *)
Fixpoint lookup_cap (n : nat) (cs : list (nat * str)) : str :=
  match cs with
  | [] => []
  | (m, v) :: cs' => if n =? m then v else lookup_cap n cs'
  end.

Record rematch : Type := ReMatch {
  m_start : nat;
  m_end : nat;
  m_caps : list (nat * str)
}.

Definition group (m : rematch) (n : nat) : str := lookup_cap n (m_caps m).

(** The scan shared by [finditer] and [sub]: attempts are made left to
    right, and after a match of length [S n] the next [n] characters are
    skipped.  None of the program's patterns matches the empty string
    (lemmas [grams_shape], [count_shape], [unit_shape], [number_attempt],
    [spaces_attempt] and [stop_attempt_word] below), so an attempt that
    consumes nothing is treated as a failed attempt and no attempt is made
    at the end of the text. *)
Fixpoint scan (ci : bool) (r : regex) (skip : nat) (pv : option ascii)
    (at_ : nat) (s : str) : list rematch :=
  match s with
  | [] => []
  | c :: s' =>
      match skip with
      | S n => scan ci r n (Some c) (S at_) s'
      | O =>
          match match_at ci r pv s with
          | Some st =>
              match pos st with
              | S n => ReMatch at_ (at_ + S n) (caps st)
                       :: scan ci r n (Some c) (S at_) s'
              | O => scan ci r 0 (Some c) (S at_) s'
              end
          | None => scan ci r 0 (Some c) (S at_) s'
          end
      end
  end.

(** [re.finditer(r, s)], with [flags=re.IGNORECASE] when [ci]. *)
Definition finditer (ci : bool) (r : regex) (s : str) : list rematch :=
  scan ci r 0 None 0 s.

Fixpoint sub_go (ci : bool) (r : regex) (repl : str) (skip : nat)
    (pv : option ascii) (s : str) : str :=
  match s with
  | [] => []
  | c :: s' =>
      match skip with
      | S n => sub_go ci r repl n (Some c) s'
      | O =>
          match match_at ci r pv s with
          | Some st =>
              match pos st with
              | S n => repl ++ sub_go ci r repl n (Some c) s'
              | O => c :: sub_go ci r repl 0 (Some c) s'
              end
          | None => c :: sub_go ci r repl 0 (Some c) s'
          end
      end
  end.

(** [re.sub(r, repl, s)], with [flags=re.IGNORECASE] when [ci]. *)
Definition sub (ci : bool) (r : regex) (repl : str) (s : str) : str :=
  sub_go ci r repl 0 None s.

End Re.

(** ** [clean_food_name] *)

Import Re.

(** [\d+\.?\d*\s*] *)
Definition re_number : regex :=
  Seq (Plus Char.is_digit)
    (Seq (Opt (Chr "."%char))
       (Seq (Star Char.is_digit) (Star Char.is_space))).

Definition stop_words : list str :=
  [L "pieces"; L "piece"; L "g"; L "grams"; L "gram";
   L "of"; L "the"; L "and"; L "with"].

(** [\b(pieces|piece|g|grams|gram|of|the|and|with)\b] *)
Definition re_stop : regex :=
  Seq Bnd
    (Seq (Grp 1
            (Alt (Lit (L "pieces")) (Alt (Lit (L "piece")) (Alt (Lit (L "g"))
            (Alt (Lit (L "grams")) (Alt (Lit (L "gram")) (Alt (Lit (L "of"))
            (Alt (Lit (L "the")) (Alt (Lit (L "and")) (Lit (L "with")))))))))))
       Bnd).

(** [\s+] *)
Definition re_spaces : regex := Plus Char.is_space.

Definition clean_food_name (food_name : str) : str :=
  (* Remove numbers and decimal points *)
  let cleaned := Re.sub false re_number [] food_name in
  (* Remove common units and garbage words *)
  let cleaned := Re.sub true re_stop [] cleaned in
  (* Remove extra spaces and trim *)
  let cleaned := Str.strip (Re.sub false re_spaces (L " ") cleaned) in
  (* Capitalize first letter of each word *)
  Str.join (L " ") (map Str.capitalize (Str.split cleaned)).

(** ** Numbers *)

(** The integer nearest to [x], ties going to the even one. *)
Definition round_half_even (x : Q) : Z :=
  let n := Qnum (Qred x) in
  let d := Zpos (Qden (Qred x)) in
  let q := (n / d)%Z in
  let r := (n mod d)%Z in
  match (2 * r ?= d)%Z with
  | Lt => q
  | Gt => (q + 1)%Z
  | Eq => if Z.even q then q else (q + 1)%Z
  end.

(** Double-precision numbers (IEEE 754 binary64), each given by the
    rational it denotes, in lowest terms. *)
Module Double.

Definition pow2 (e : Z) : Q := (2 ^ e)%Q.

(** The exponent of the leading bit of [x > 0]: [2^k <= x < 2^(k+1)]. *)
Definition ilog2 (x : Q) : Z :=
  let k := (Z.log2 (Qnum x) - Z.log2 (Zpos (Qden x)))%Z in
  if Qle_bool (pow2 k) x then k else (k - 1)%Z.

(** The exponent of the last place of the doubles around [x > 0]: 52 places
    below the leading bit, and -1074 at least (the subnormal numbers). *)
Definition ulp_exp (x : Q) : Z := Z.max (-1074) (ilog2 x - 52).

(** The double nearest to [x > 0], ties going to the even significand. *)
Definition nearest (x : Q) : Q :=
  let e := ulp_exp x in
  inject_Z (round_half_even (x / pow2 e)) * pow2 e.

(** The double nearest to [x]: the result of an operation whose exact
    result is [x], and the value of the literal that writes [x]. *)
Definition round (x : Q) : Q :=
  let x := Qred x in
  match Qnum x with
  | Z0 => 0
  | Zpos _ => Qred (nearest x)
  | Zneg _ => Qred (- nearest (- x))
  end.

(** [float(n)] for an [int] *)
Definition of_Z (n : Z) : Q := round (inject_Z n).
Definition of_nat (n : nat) : Q := of_Z (Z.of_nat n).

Definition add (x y : Q) : Q := round (x + y).
Definition mul (x y : Q) : Q := round (x * y).
Definition div (x y : Q) : Q := round (x / y).

End Double.

(** ** [parse_food_text] *)

(** A food item, the dict built by [parse_food_text]; the key ['quantity']
    is absent from gram-qualified items. *)
Record item : Type := Item {
  food : str;
  serving : Q;
  unit : str;
  quantity : option Q
}.

(** Standard serving sizes for common items *)
Definition standard_servings : list (str * Z) :=
  [ (L "banana", 120); (L "bananas", 120);
    (L "apple", 182); (L "apples", 182);
    (L "orange", 131); (L "oranges", 131);
    (L "egg", 50); (L "eggs", 50);
    (L "slice bread", 28); (L "bread", 28);
    (L "tbsp oil", 14); (L "tbsp olive oil", 14); (L "tablespoon oil", 14);
    (L "tsp oil", 5); (L "teaspoon oil", 5);
    (L "chicken breast", 100); (L "chicken", 100);
    (L "rice", 100); (L "white rice", 100); (L "brown rice", 100);
    (L "pasta", 100); (L "spaghetti", 100);
    (L "ice cream", 66); (L "vanilla ice cream", 66); (L "icecream", 66);
    (L "milk", 240); (L "water", 240);
    (L "coffee", 240); (L "tea", 240) ]%Z.

(** [d.get(key, default)] *)
Fixpoint dict_get {V : Type} (d : list (str * V)) (key : str) (default : V)
    : V :=
  match d with
  | [] => default
  | (k, v) :: d' => if str_eqb key k then v else dict_get d' key default
  end.

(** The integer written by a run of decimal digits. *)
Definition digit_value (c : ascii) : Z := Z.of_nat (Char.code c - 48).

Definition int_of_digits (s : str) : Z :=
  fold_left (fun acc c => (10 * acc + digit_value c)%Z) s 0%Z.

(** [float(s)] for a run of decimal digits [s]. *)
Definition float_of_digits (s : str) : Q := Double.of_Z (int_of_digits s).

Definition alpha_or_space (c : ascii) : bool :=
  Char.is_alpha c || Char.is_space c.

(** The capture [( [a-zA-Z][a-zA-Z\s]* )] as group [n]. *)
Definition re_phrase (n : nat) : regex :=
  Grp n (Seq (Cls Char.is_alpha) (Star alpha_or_space)).

(** Pattern 1: [(\d+)\s*g\s*( [a-zA-Z][a-zA-Z\s]* )] *)
Definition re_grams : regex :=
  Seq (Grp 1 (Plus Char.is_digit))
    (Seq (Star Char.is_space)
       (Seq (Chr "g"%char)
          (Seq (Star Char.is_space) (re_phrase 2)))).

(** Pattern 2: [(\d+)\s+( [a-zA-Z][a-zA-Z\s]* )] *)
Definition re_count : regex :=
  Seq (Grp 1 (Plus Char.is_digit))
    (Seq (Plus Char.is_space) (re_phrase 2)).

(** Pattern 3: [(\d+)\s*(tbsp|tsp|tablespoon|teaspoon)\s+([a-zA-Z\s]+)] *)
Definition re_unit : regex :=
  Seq (Grp 1 (Plus Char.is_digit))
    (Seq (Star Char.is_space)
       (Seq (Grp 2 (Alt (Lit (L "tbsp")) (Alt (Lit (L "tsp"))
                   (Alt (Lit (L "tablespoon")) (Lit (L "teaspoon"))))))
          (Seq (Plus Char.is_space) (Grp 3 (Plus alpha_or_space))))).

(** [x in xs] for a list of strings *)
Definition str_in (x : str) (xs : list str) : bool := existsb (str_eqb x) xs.

(** The body of the loop over the matches of pattern 1. *)
Definition item_of_grams (m : rematch) : list item :=
  let serving := float_of_digits (group m 1) in
  let food := clean_food_name (group m 2) in
  match food with
  | [] => []
  | _ => [Item food serving (L "g") None]
  end.

(** The body of the loop over the matches of pattern 2. *)
Definition item_of_count (m : rematch) : list item :=
  let quantity := float_of_digits (group m 1) in
  let food := clean_food_name (group m 2) in
  match food with
  | [] => []
  | _ =>
      let serving :=
        Double.mul
          (Double.of_Z (dict_get standard_servings (Str.lower food) 100%Z))
          quantity in
      [Item food serving (L "pieces") (Some quantity)]
  end.

(** The body of the loop over the matches of pattern 3. *)
Definition item_of_unit (m : rematch) : list item :=
  let quantity := float_of_digits (group m 1) in
  let unit := group m 2 in
  let food := clean_food_name (group m 3) in
  match food with
  | [] => []
  | _ =>
      let unit_multiplier :=
        if str_in unit [L "tbsp"; L "tablespoon"] then 14%Z else 5%Z in
      let serving := Double.mul quantity (Double.of_Z unit_multiplier) in
      let display_name :=
        if str_in unit [L "tbsp"; L "tsp"]
        then food ++ L " (" ++ unit ++ L ")"
        else food in
      [Item display_name serving unit (Some quantity)]
  end.

(** The candidates: all matches of pattern 1, then of pattern 2, then of
    pattern 3, each in text order. *)
Definition potential_items (text : str) : list item :=
  let t := Str.lower text in
  flat_map item_of_grams (finditer false re_grams t)
  ++ flat_map item_of_count (finditer false re_count t)
  ++ flat_map item_of_unit (finditer false re_unit t).

(** Filter out invalid items and duplicates: the loop over
    [potential_items] with the set [seen]. *)
Fixpoint dedup (seen : list str) (items : list item) : list item :=
  match items with
  | [] => []
  | it :: items' =>
      let food_name := Str.strip (food it) in
      if List.length food_name <? 2 then dedup seen items'
      else if str_in food_name seen then dedup seen items'
      else it :: dedup (food_name :: seen) items'
  end.

Definition parse_food_text (text : str) : list item :=
  dedup [] (potential_items text).

(** ** [difflib]: the similarity score behind [get_close_matches]

    [SequenceMatcher(None, a, b)] with the default [autojunk=True] and no
    junk predicate, so the junk set is empty and the two junk-extension loops
    of [find_longest_match] never run. *)

Module Difflib.

Definition count (c : ascii) (s : str) : nat := count_occ ascii_dec s c.

(** [__chain_b]: an element of [b] is popular, and dropped from [b2j], when
    [b] has at least 200 elements and more than [n // 100 + 1] of them are
    that element. *)
Definition popular (b : str) (c : ascii) : bool :=
  let n := List.length b in
  (200 <=? n) && (n / 100 + 1 <? count c b).

(** The triple [(besti, bestj, bestsize)]. *)
Definition triple : Type := (nat * nat * nat)%type.

(** One pass of the inner loop: [newj2len] as a list indexed by [j], an
    absent key being 0.  [bs] and [row] are [b] and [j2len] from index [j]
    on, [diag] is [j2len.get(j-1, 0)]. *)
Fixpoint next_row (b : str) (ai : ascii) (blo bhi : nat)
    (j : nat) (bs : str) (diag : nat) (row : list nat) : list nat :=
  match bs with
  | [] => []
  | bj :: bs' =>
      let here := hd 0 row in
      (if (blo <=? j) && (j <? bhi) && Ascii.eqb ai bj && negb (popular b ai)
       then S diag else 0)
      :: next_row b ai blo bhi (S j) bs' here (tl row)
  end.

(** The update of the best triple along one row, [j] ascending. *)
Fixpoint scan_row (i j : nat) (row : list nat) (best : triple) : triple :=
  match row with
  | [] => best
  | k :: row' =>
      scan_row i (S j) row'
        (if snd best <? k then (S i - k, S j - k, k) else best)
  end.

(** The outer loop, [i] ascending over [a[alo:ahi]]. *)
Fixpoint rows (b : str) (blo bhi : nat) (i : nat) (as_ : str)
    (row : list nat) (best : triple) : triple :=
  match as_ with
  | [] => best
  | ai :: as' =>
      let row' := next_row b ai blo bhi 0 b 0 row in
      rows b blo bhi (S i) as' row' (scan_row i 0 row' best)
  end.

Definition same (x y : option ascii) : bool :=
  match x, y with
  | Some c, Some d => Ascii.eqb c d
  | _, _ => false
  end.

(** First extension loop: grow the block to the left. *)
Fixpoint extend_left (a b : str) (alo blo : nat)
    (besti bestj bestsize : nat) {struct besti} : triple :=
  match besti, bestj with
  | S i', S j' =>
      if (alo <? besti) && (blo <? bestj)
         && same (nth_error a i') (nth_error b j')
      then extend_left a b alo blo i' j' (S bestsize)
      else (besti, bestj, bestsize)
  | _, _ => (besti, bestj, bestsize)
  end.

(** Second extension loop: grow the block to the right; [d] bounds the
    number of iterations by [ahi - (besti + bestsize)]. *)
Fixpoint extend_right (a b : str) (bhi : nat) (besti bestj : nat)
    (d : nat) (bestsize : nat) : nat :=
  match d with
  | O => bestsize
  | S d' =>
      if (bestj + bestsize <? bhi)
         && same (nth_error a (besti + bestsize))
                 (nth_error b (bestj + bestsize))
      then extend_right a b bhi besti bestj d' (S bestsize)
      else bestsize
  end.

Definition find_longest_match (a b : str) (alo ahi blo bhi : nat) : triple :=
  let best :=
    rows b blo bhi alo (firstn (ahi - alo) (skipn alo a))
      (repeat 0 (List.length b)) (alo, blo, 0) in
  let '(besti, bestj, bestsize) := best in
  let '(besti, bestj, bestsize) :=
    extend_left a b alo blo besti bestj bestsize in
  let bestsize :=
    extend_right a b bhi besti bestj (ahi - (besti + bestsize)) bestsize in
  (besti, bestj, bestsize).

(** The sum of the sizes of the blocks [get_matching_blocks] collects: the
    longest match of the range, then the ranges left and right of it.  Each
    recursive range is shorter in [a], so [fuel] beyond [ahi - alo] changes
    nothing (lemma [matched_fuel]). *)
Fixpoint matched (fuel : nat) (a b : str) (alo ahi blo bhi : nat) : nat :=
  match fuel with
  | O => 0
  | S fuel' =>
      let '(i, j, k) := find_longest_match a b alo ahi blo bhi in
      if k =? 0 then 0
      else
        k
        + (if (alo <? i) && (blo <? j)
           then matched fuel' a b alo i blo j else 0)
        + (if (i + k <? ahi) && (j + k <? bhi)
           then matched fuel' a b (i + k) ahi (j + k) bhi else 0)
  end.

(** [_calculate_ratio]: [2.0 * matches / length], or 1.0 for no length. *)
Definition calculate_ratio (matches length : nat) : Q :=
  match length with
  | O => 1
  | S _ =>
      Double.div (Double.mul 2 (Double.of_nat matches)) (Double.of_nat length)
  end.

Definition ratio (a b : str) : Q :=
  let la := List.length a in
  let lb := List.length b in
  calculate_ratio (matched (S la) a b 0 la 0 lb) (la + lb).

(** The loop of [quick_ratio]: [avail] maps an element to the number of its
    occurrences in [b] not yet used up. *)
Fixpoint quick_matches (b : str) (avail : list (ascii * Z)) (a : str) : nat :=
  match a with
  | [] => 0
  | elt :: a' =>
      let numb :=
        match find (fun kv => Ascii.eqb elt (fst kv)) avail with
        | Some kv => snd kv
        | None => Z.of_nat (count elt b)
        end in
      (if (0 <? numb)%Z then 1 else 0)
      + quick_matches b ((elt, (numb - 1)%Z) :: avail) a'
  end.

Definition quick_ratio (a b : str) : Q :=
  calculate_ratio (quick_matches b [] a) (List.length a + List.length b).

Definition real_quick_ratio (a b : str) : Q :=
  let la := List.length a in
  let lb := List.length b in
  calculate_ratio (Nat.min la lb) (la + lb).

(** Python's order on [str]: lexicographic by code point. *)
Fixpoint str_ltb (x y : str) : bool :=
  match x, y with
  | _, [] => false
  | [], _ :: _ => true
  | c :: x', d :: y' =>
      if Char.code c <? Char.code d then true
      else if Char.code d <? Char.code c then false
      else str_ltb x' y'
  end.

(** The order on the pairs [(score, x)]. *)
Definition pair_ltb (p q : Q * str) : bool :=
  match (fst p ?= fst q)%Q with
  | Lt => true
  | Gt => false
  | Eq => str_ltb (snd p) (snd q)
  end.

(** [max(it)]: the first of the greatest elements. *)
Fixpoint max_from (cur : Q * str) (l : list (Q * str)) : Q * str :=
  match l with
  | [] => cur
  | x :: l' => max_from (if pair_ltb cur x then x else cur) l'
  end.

(** [heapq.nlargest(1, result)] *)
Definition nlargest1 (result : list (Q * str)) : list (Q * str) :=
  match result with
  | [] => []
  | x :: l => [max_from x l]
  end.

Definition passes (cutoff : Q) (x word : str) : bool :=
  Qle_bool cutoff (real_quick_ratio x word)
  && Qle_bool cutoff (quick_ratio x word)
  && Qle_bool cutoff (ratio x word).

(** [get_close_matches(word, possibilities, n=1, cutoff)] *)
Definition get_close_matches1 (word : str) (possibilities : list str)
    (cutoff : Q) : list str :=
  let result :=
    flat_map (fun x => if passes cutoff x word then [(ratio x word, x)] else [])
      possibilities in
  map snd (nlargest1 result).

End Difflib.

(** ** The nutrition functions *)

(** A macro profile: the dict with keys Calories, Protein, Carbohydrates,
    Fats, each a float. *)
Record macros : Type := Macros {
  Calories : Q;
  Protein : Q;
  Carbohydrates : Q;
  Fats : Q
}.

(** [known_foods]: the reference table loaded from [food_reference.json]. *)
Definition table : Type := list (str * macros).

Definition keys (known_foods : table) : list str := map fst known_foods.

(** [known_foods[key]] *)
Fixpoint table_get (known_foods : table) (key : str) : option macros :=
  match known_foods with
  | [] => None
  | (k, v) :: t => if str_eqb key k then Some v else table_get t key
  end.

(** The default [cutoff=0.85]. *)
Definition cutoff_default : Q := Double.round (85 # 100).

Definition match_known_food (food_name : str) (known_foods : table)
    (cutoff : Q) : option str :=
  let matches :=
    Difflib.get_close_matches1 (Str.lower food_name) (keys known_foods) cutoff in
  match matches with
  | m :: _ => Some m
  | [] => None
  end.

(** [round(x, 2)] for a double [x]: the multiple of 1/100 nearest to the
    exact value of [x], ties going to the even multiple, and then the double
    nearest to that decimal. *)
Definition round2 (x : Q) : Q :=
  Double.round (round_half_even (x * 100) # 100).

Definition scale_macros (base_macros : macros) (serving_size : Q) : macros :=
  let factor := Double.div serving_size 100 in
  {| Calories := round2 (Double.mul (Calories base_macros) factor);
     Protein := round2 (Double.mul (Protein base_macros) factor);
     Carbohydrates := round2 (Double.mul (Carbohydrates base_macros) factor);
     Fats := round2 (Double.mul (Fats base_macros) factor) |}.

(** ** The free-form handler *)

(** An entry of [successful_items]. *)
Record success : Type := Success {
  name : str;
  calories : Q;
  protein : Q;
  s_serving : Q
}.

(** The message sent with [reply_text]. *)
Inductive reply : Type :=
| NoFoodIdentified
| Summary (added : list success) (failed : list str) (total : Q).

(** What the handler does to the outside, in order. *)
Inductive event : Type :=
| EvEstimate (food_name : str) (serving_size : Q)
| EvPersist (food_name : str) (serving_size : Q) (m : macros)
| EvReply (r : reply).

(** Truth value of a [str]. *)
Definition truthy (s : str) : bool :=
  match s with
  | [] => false
  | _ => true
  end.

Section Handler.

(** The state of the services outside the process and the two calls that
    reach them.  An answer of [get_macros_from_ai] is taken to be a profile
    of four floats; [None] stands for every failure (transport error, answer
    that is not JSON) and for an empty answer.  [add_food_to_notion] answers
    [False] for every failure.  Module [Untyped] below is the handler
    without the assumption on the answers. *)
Variable World : Type.
Variable get_macros_from_ai : str -> Q -> World -> option macros * World.
Variable add_food_to_notion : str -> Q -> macros -> World -> bool * World.
Variable known_foods : table.

(** The loop's variables, with the trace and the outside state. *)
Record loop_state : Type := LoopState {
  total_calories : Q;
  successful_items : list success;
  failed_items : list str;
  trace : list event;
  world : World
}.

(** "Get macros": the reference table first, the estimator on a miss.  The
    key returned by the matcher is a key of the table (lemma
    [match_known_food_key]), so the lookup cannot fail. *)
Definition get_macros (food : str) (serving : Q) (w : World)
    : option macros * list event * World :=
  match match_known_food food known_foods cutoff_default with
  | Some matched =>
      if truthy matched then
        (option_map (fun base => scale_macros base serving)
           (table_get known_foods matched), [], w)
      else
        let '(m, w') := get_macros_from_ai food serving w in
        (m, [EvEstimate food serving], w')
  | None =>
      let '(m, w') := get_macros_from_ai food serving w in
      (m, [EvEstimate food serving], w')
  end.

(** One iteration of [for item in food_items]. *)
Definition step (st : loop_state) (it : item) : loop_state :=
  let food := food it in
  let serving := serving it in
  let '(m, evs, w) := get_macros food serving (world st) in
  match m with
  | Some macros =>
      let '(ok, w') := add_food_to_notion food serving macros w in
      let tr := trace st ++ evs ++ [EvPersist food serving macros] in
      if ok then
        LoopState (Double.add (total_calories st) (Calories macros))
          (successful_items st
           ++ [Success food (Calories macros) (Protein macros) serving])
          (failed_items st) tr w'
      else
        LoopState (total_calories st) (successful_items st)
          (failed_items st ++ [food]) tr w'
  | None =>
      LoopState (total_calories st) (successful_items st)
        (failed_items st ++ [food]) (trace st ++ evs) w
  end.

Definition process (food_items : list item) (w : World) : loop_state :=
  fold_left step food_items (LoopState 0 [] [] [] w).

(** [free_form_input]: the events of one call, and the outside state after
    it. *)
Definition free_form_input (user_text : str) (w : World)
    : list event * World :=
  let food_items := parse_food_text user_text in
  match food_items with
  | [] => ([EvReply NoFoodIdentified], w)
  | _ =>
      let st := process food_items w in
      (trace st
       ++ [EvReply (Summary (successful_items st) (failed_items st)
                      (total_calories st))],
       world st)
  end.

End Handler.

Arguments total_calories {World}.
Arguments successful_items {World}.
Arguments failed_items {World}.
Arguments trace {World}.
Arguments world {World}.

(** ** The energy-need calculator *)

(** [str] operations of the calculator's handler. *)
Module Text.

(** [s.startswith(p)] *)
Fixpoint startswith (p s : str) : bool :=
  match p, s with
  | [], _ => true
  | _ :: _, [] => false
  | c :: p', d :: s' => Ascii.eqb c d && startswith p' s'
  end.

(** [needle in hay] *)
Fixpoint contains (needle hay : str) : bool :=
  startswith needle hay
  || match hay with
     | [] => false
     | _ :: hay' => contains needle hay'
     end.

(** [s.title()]: a letter is upper-cased after a character that is not a
    letter, and lower-cased after a letter. *)
Fixpoint title_from (previous_is_cased : bool) (s : str) : str :=
  match s with
  | [] => []
  | c :: s' =>
      (if previous_is_cased then Char.lower c else Char.upper c)
      :: title_from (Char.is_alpha c) s'
  end.

Definition title (s : str) : str := title_from false s.

End Text.

(** [x - y] on doubles. *)
Definition double_sub (x y : Q) : Q := Double.round (x - y).

(** The literal [n / 10^k] of the source, as the double it denotes. *)
Definition literal (n : Z) (d : positive) : Q := Double.round (n # d).

Definition calculate_bmr (gender : str) (weight height : Q) (age : Z) : Q :=
  if str_eqb (Str.lower gender) (L "male") then
    double_sub
      (Double.add
         (Double.add (literal 6647 100)
            (Double.mul (literal 1375 100) weight))
         (Double.mul (literal 5003 1000) height))
      (Double.mul (literal 6755 1000) (Double.of_Z age))
  else
    double_sub
      (Double.add
         (Double.add (literal 6551 10)
            (Double.mul (literal 9563 1000) weight))
         (Double.mul (literal 185 100) height))
      (Double.mul (literal 4676 1000) (Double.of_Z age)).

Definition activity_factors : list (str * Q) :=
  [ (L "sedentary", literal 12 10);
    (L "light", literal 1375 1000);
    (L "moderate", literal 155 100);
    (L "active", literal 1725 1000);
    (L "extra", literal 19 10) ].

Definition calculate_total_calories (bmr : Q) (activity_level : str) : Q :=
  Double.mul bmr
    (dict_get activity_factors (Str.lower activity_level) (literal 12 10)).

(** [context.user_data] once the four questions have been answered. *)
Record user_data : Type := UserData {
  ud_age : Z;
  ud_gender : str;
  ud_weight : Q;
  ud_height : Q
}.

Definition activity_map : list (str * str) :=
  [ (L "sedentary", L "sedentary");
    (L "light", L "light");
    (L "moderate", L "moderate");
    (L "active", L "active");
    (L "extra", L "extra") ].

(** The loop over [activity_map.items()], left at the first key found in
    the text. *)
Fixpoint activity_scan (items : list (str * str)) (activity_text : str)
    (activity_level : str) : str :=
  match items with
  | [] => activity_level
  | (key, value) :: items' =>
      if Text.contains key activity_text then value
      else activity_scan items' activity_text activity_level
  end.

(** The numbers and the level named in the message of [activity_input];
    the two numbers are printed with [:.0f]. *)
Record bmr_report : Type := BmrReport {
  shown_bmr : Q;
  shown_activity : str;
  shown_total : Q
}.

Definition activity_input (ud : user_data) (text : str) : bmr_report :=
  let activity_text := Str.lower text in
  let activity_level := activity_scan activity_map activity_text (L "sedentary") in
  (* Calculate BMR *)
  let bmr :=
    calculate_bmr (ud_gender ud) (ud_weight ud) (ud_height ud) (ud_age ud) in
  let total_calories := calculate_total_calories bmr activity_level in
  BmrReport bmr (Text.title activity_level) total_calories.

(** ** The single-food handler *)

(** [float(text)] for a [str]: the syntax of Python's float literals with
    the underscores between digits, surrounded by C whitespace.  The
    results that are no numbers ([inf], [nan], and the decimals too large
    for a double) are told apart as [NotFinite] and not modelled further. *)
Module PyFloat.

Inductive result : Type :=
| ValueError
| Finite (x : Q)
| NotFinite.

(** C's [isspace]: TAB LF VT FF CR and SPACE. *)
Definition is_cspace (c : ascii) : bool :=
  Char.between 9 13 c || (Char.code c =? 32).

Fixpoint lstrip (s : str) : str :=
  match s with
  | c :: s' => if is_cspace c then lstrip s' else s
  | [] => []
  end.

Definition strip (s : str) : str := rev (lstrip (rev (lstrip s))).

Definition is_underscore (c : ascii) : bool := Ascii.eqb c "_"%char.

(** An underscore stands only between two digits. *)
Fixpoint underscores_ok (prev : ascii) (s : str) : bool :=
  match s with
  | [] => negb (is_underscore prev)
  | c :: s' =>
      (if is_underscore c then Char.is_digit prev
       else if is_underscore prev then Char.is_digit c
       else true)
      && underscores_ok c s'
  end.

Definition drop_underscores (s : str) : str :=
  filter (fun c => negb (is_underscore c)) s.

(** The longest prefix in the class, and the rest. *)
Fixpoint span (p : ascii -> bool) (s : str) : str * str :=
  match s with
  | c :: s' =>
      if p c then let '(w, r) := span p s' in (c :: w, r) else ([], s)
  | [] => ([], [])
  end.

Definition sign_split (s : str) : bool * str :=
  match s with
  | c :: r =>
      if Ascii.eqb c "-"%char then (true, r)
      else if Ascii.eqb c "+"%char then (false, r)
      else (false, s)
  | [] => (false, [])
  end.

Definition is_digits (s : str) : bool :=
  match s with
  | [] => false
  | _ => forallb Char.is_digit s
  end.

(** The exponent part, which must reach the end of the text. *)
Definition exponent (s : str) : option Z :=
  match s with
  | [] => Some 0%Z
  | c :: r =>
      if Ascii.eqb (Char.lower c) "e"%char then
        let '(neg, ds) := sign_split r in
        if is_digits ds
        then Some (if neg then (- int_of_digits ds)%Z else int_of_digits ds)
        else None
      else None
  end.

(** The number a decimal literal writes. *)
Definition decimal (s : str) : option Q :=
  let '(int_part, r1) := span Char.is_digit s in
  let '(frac_part, r2) :=
    match r1 with
    | c :: r => if Ascii.eqb c "."%char then span Char.is_digit r else ([], r1)
    | [] => ([], [])
    end in
  match int_part ++ frac_part with
  | [] => None
  | digits =>
      match exponent r2 with
      | Some e =>
          Some (inject_Z (int_of_digits digits)
                * 10 ^ (e - Z.of_nat (List.length frac_part)))%Q
      | None => None
      end
  end.

(** The decimals that round to an infinity. *)
Definition overflows (x : Q) : bool :=
  Qle_bool (Double.pow2 1024 - Double.pow2 970) (Qabs x).

Definition float_of_text (text : str) : result :=
  if underscores_ok Ascii.zero text then
    let s := strip (drop_underscores text) in
    let '(neg, body) := sign_split s in
    if str_in (Str.lower body) [L "inf"; L "infinity"; L "nan"] then NotFinite
    else
      match decimal body with
      | Some x =>
          if overflows x then NotFinite
          else Finite (Double.round (if neg then - x else x))
      | None => ValueError
      end
  else ValueError.

End PyFloat.

(** The states of the conversation. *)
Inductive state : Type :=
| FOOD_INPUT | SERVING_INPUT | BMR_INFO | AGE | GENDER | WEIGHT | HEIGHT
| ACTIVITY | FREE_FORM_INPUT
| END.

(** The message of [serving_input]. *)
Inductive log_reply : Type :=
| AddedToTracker (clean_food : str) (serving : Q) (m : macros) (source : str)
| FailedToAdd
| NoNutritionData
| InvalidGrams.

Section Logging.

Variable World : Type.
Variable get_macros_from_ai : str -> Q -> World -> option macros * World.
Variable add_food_to_notion : str -> Q -> macros -> World -> bool * World.
Variable known_foods : table.

(** What one call of [serving_input] does: the calls to the estimator and
    to the persistence, the message, the next state and the outside
    state. *)
Record log_outcome : Type := LogOutcome {
  lo_calls : list event;
  lo_message : log_reply;
  lo_next : state;
  lo_world : World
}.

(** [serving_input], with the text of the message and the food text stored
    by [food_input]; [None] when the text reads as a float that is not
    finite. *)
Definition serving_input (text : str) (food : str) (w : World)
    : option log_outcome :=
  match PyFloat.float_of_text text with
  | PyFloat.ValueError => Some (LogOutcome [] InvalidGrams SERVING_INPUT w)
  | PyFloat.NotFinite => None
  | PyFloat.Finite serving =>
      (* Clean the food name *)
      let clean_food := clean_food_name food in
      (* Get macros *)
      let matched := match_known_food clean_food known_foods cutoff_default in
      let from_ai :=
        let '(m, w1) := get_macros_from_ai clean_food serving w in
        (m, L "AI", [EvEstimate clean_food serving], w1) in
      let '(macros, source, evs, w1) :=
        match matched with
        | Some key =>
            if truthy key then
              (option_map (fun base => scale_macros base serving)
                 (table_get known_foods key), L "database", [], w)
            else from_ai
        | None => from_ai
        end in
      match macros with
      | Some macros =>
          (* Add to Notion with clean food name *)
          let '(success, w2) := add_food_to_notion clean_food serving macros w1 in
          let evs := evs ++ [EvPersist clean_food serving macros] in
          if success then
            Some (LogOutcome evs (AddedToTracker clean_food serving macros source)
                    END w2)
          else Some (LogOutcome evs FailedToAdd END w2)
      | None => Some (LogOutcome evs NoNutritionData END w1)
      end
  end.

End Logging.

Arguments lo_calls {World}.
Arguments lo_message {World}.
Arguments lo_next {World}.
Arguments lo_world {World}.

(** ** The Notion functions *)

(** The values exchanged with the Notion client: what [json] decodes. *)
#[warnings="-register-all"]
Inductive json : Type :=
| JNull
| JBool (b : bool)
| JInt (n : Z)
| JFloat (x : Q)
| JStr (s : str)
| JList (l : list json)
| JDict (d : list (str * json)).

(** The operations of Python on such values; [None] stands for a raised
    exception. *)
Module Py.

Fixpoint assoc (key : str) (d : list (str * json)) : option json :=
  match d with
  | [] => None
  | (k, v) :: d' => if str_eqb key k then Some v else assoc key d'
  end.

(** [x[key]] for a [str] key *)
Definition getitem (x : json) (key : str) : option json :=
  match x with
  | JDict d => assoc key d
  | _ => None
  end.

(** [x[0]] *)
Definition getitem0 (x : json) : option json :=
  match x with
  | JList (a :: _) => Some a
  | JStr (c :: _) => Some (JStr [c])
  | _ => None
  end.

(** [x.get(key)] and [x.get(key, default)] *)
Definition get (x : json) (key : str) (default : json) : option json :=
  match x with
  | JDict d =>
      Some match assoc key d with
           | Some v => v
           | None => default
           end
  | _ => None
  end.

(** The truth value of [x]. *)
Definition truth (x : json) : bool :=
  match x with
  | JNull => false
  | JBool b => b
  | JInt n => negb (n =? 0)%Z
  | JFloat x => negb (Qeq_bool x 0)
  | JStr s => truthy s
  | JList l => match l with [] => false | _ => true end
  | JDict d => match d with [] => false | _ => true end
  end.

(** [for e in x] *)
Definition iter (x : json) : option (list json) :=
  match x with
  | JList l => Some l
  | JStr s => Some (map (fun c => JStr [c]) s)
  | JDict d => Some (map (fun kv => JStr (fst kv)) d)
  | _ => None
  end.

(** [x.lower()] *)
Definition lower (x : json) : option str :=
  match x with
  | JStr s => Some (Str.lower s)
  | _ => None
  end.

(** [x == s] for a [str] s *)
Definition eq_str (x : json) (s : str) : bool :=
  match x with
  | JStr t => str_eqb t s
  | _ => false
  end.

Definition bind {A B : Type} (x : option A) (f : A -> option B) : option B :=
  match x with
  | Some a => f a
  | None => None
  end.

End Py.

Definition DB_NAME : str := L "Nutrition Tracker".

(** The condition of the list comprehension in [get_nutrition_db_id]. *)
Definition is_nutrition_db (result : json) : option bool :=
  Py.bind (Py.getitem result (L "object")) (fun object =>
  if negb (Py.eq_str object (L "database")) then Some false
  else
    Py.bind (Py.get result (L "title") JNull) (fun title =>
    if negb (Py.truth title) then Some false
    else
      Py.bind (Py.getitem result (L "title")) (fun title =>
      Py.bind (Py.getitem0 title) (fun first =>
      Py.bind (Py.getitem first (L "text")) (fun text =>
      Py.bind (Py.getitem text (L "content")) (fun content =>
      Py.bind (Py.lower content) (fun lowered =>
      Some (str_eqb lowered (Str.lower DB_NAME))))))))).

(** The list comprehension: the results that pass, unless one raises. *)
Fixpoint nutrition_dbs (results : list json) : option (list json) :=
  match results with
  | [] => Some []
  | result :: results' =>
      Py.bind (is_nutrition_db result) (fun keep =>
      Py.bind (nutrition_dbs results') (fun dbs =>
      Some (if keep then result :: dbs else dbs)))
  end.

(** The body of [get_nutrition_db_id] on the answer of [notion.search];
    [None] for an answer is a raised exception, [JNull] is Python's
    [None]. *)
Definition db_id_of (response : option json) : json :=
  match
    Py.bind response (fun response =>
    Py.bind (Py.getitem response (L "results")) (fun results =>
    Py.bind (Py.iter results) (fun results =>
    Py.bind (nutrition_dbs results) (fun dbs =>
    match dbs with
    | db :: _ => Py.getitem db (L "id")
    | [] => Some JNull
    end))))
  with
  | Some id => id
  | None => JNull
  end.

Section Notion.

(** The Notion client: the search, whose answer is decoded JSON unless the
    call raises, and the creation of a page, which succeeds or raises. *)
Variable World : Type.
Variable notion_search : World -> option json * World.
Variable notion_pages_create :
  json -> str -> Q -> macros -> World -> bool * World.

Definition get_nutrition_db_id (w : World) : json * World :=
  let '(response, w1) := notion_search w in (db_id_of response, w1).

Definition add_food_to_notion (food : str) (serving : Q) (m : macros)
    (w : World) : bool * World :=
  let '(db_id, w1) := get_nutrition_db_id w in
  if negb (Py.truth db_id) then (false, w1)
  else notion_pages_create db_id food serving m w1.

End Notion.

(** ** The calorie summary *)

(** A Python number: an [int] or a [float]. *)
Inductive number : Type :=
| NInt (n : Z)
| NFloat (x : Q).

(** What evaluating an expression on numbers gives: a value, a raised
    exception, or a float that is not finite, which is not followed
    further. *)
Inductive outcome (A : Type) : Type :=
| Value (a : A)
| Raises
| NonFinite.

Arguments Value {A} a.
Arguments Raises {A}.
Arguments NonFinite {A}.

Module Num.

(** [float(n)] for an [int]: [OverflowError] beyond the doubles. *)
Definition to_float (n : Z) : outcome Q :=
  if PyFloat.overflows (inject_Z n) then Raises else Value (Double.of_Z n).

(** [x + y] on floats *)
Definition float_add (x y : Q) : outcome number :=
  if PyFloat.overflows (x + y)%Q then NonFinite
  else Value (NFloat (Double.add x y)).

Definition int_of_bool (b : bool) : Z := if b then 1%Z else 0%Z.

(** [total + value], [total] a number and [value] any decoded value *)
Definition plus (total : number) (value : json) : outcome number :=
  match total, value with
  | NInt a, JInt n => Value (NInt (a + n))
  | NInt a, JBool b => Value (NInt (a + int_of_bool b))
  | NInt a, JFloat y =>
      match to_float a with
      | Value x => float_add x y
      | Raises => Raises
      | NonFinite => NonFinite
      end
  | NFloat x, JInt n =>
      match to_float n with
      | Value y => float_add x y
      | Raises => Raises
      | NonFinite => NonFinite
      end
  | NFloat x, JBool b => float_add x (inject_Z (int_of_bool b))
  | NFloat x, JFloat y => float_add x y
  | _, _ => Raises
  end.

(** [total / count], [count] a positive [int] *)
Definition over (total : number) (count : nat) : outcome Q :=
  match total with
  | NInt a =>
      let q := (inject_Z a / inject_Z (Z.of_nat count))%Q in
      if PyFloat.overflows q then Raises else Value (Double.round q)
  | NFloat x => Value (Double.div x (Double.of_nat count))
  end.

(** The integer that the format [.0f] shows for a number. *)
Definition shown (total : number) : outcome Z :=
  match total with
  | NInt a =>
      match to_float a with
      | Value x => Value (round_half_even x)
      | Raises => Raises
      | NonFinite => NonFinite
      end
  | NFloat x => Value (round_half_even x)
  end.

End Num.

(** The replies of [show_todays_calories]; the summary holds the number of
    entries and the total and the average as they are shown. *)
Inductive calories_reply : Type :=
| DatabaseNotFound
| NoCaloriesProperty
| TodaysSummary (entries : nat) (total average : Z)
| NoEntriesToday
| ErrorFetching.

(** The first property whose lower-cased name holds [calori]. *)
Fixpoint find_calories_prop (items : list (str * json)) : option str :=
  match items with
  | [] => None
  | (prop_name, _) :: items' =>
      if Text.contains (L "calori") (Str.lower prop_name) then Some prop_name
      else find_calories_prop items'
  end.

(** The calories read from an entry: its [properties], then the [number]
    of the property [calories_prop], an empty dict standing in for a property
    that the entry lacks. *)
Definition entry_calories (calories_prop : str) (entry : json)
    : option json :=
  Py.bind (Py.getitem entry (L "properties")) (fun props =>
  Py.bind (Py.get props calories_prop (JDict [])) (fun prop =>
  Py.get prop (L "number") JNull)).

(** The loop over the entries. *)
Fixpoint tally (calories_prop : str) (entries : list json)
    (total_calories : number) (calories_count : nat)
    : outcome (number * nat) :=
  match entries with
  | [] => Value (total_calories, calories_count)
  | entry :: entries' =>
      match entry_calories calories_prop entry with
      | None => Raises
      | Some JNull => tally calories_prop entries' total_calories calories_count
      | Some calories =>
          match Num.plus total_calories calories with
          | Value total =>
              tally calories_prop entries' total (S calories_count)
          | Raises => Raises
          | NonFinite => NonFinite
          end
      end
  end.

(** The summary message for a total and a positive count. *)
Definition summary_reply (total_calories : number) (calories_count : nat)
    : outcome calories_reply :=
  match Num.shown total_calories with
  | Value total =>
      match Num.over total_calories calories_count with
      | Value average =>
          Value (TodaysSummary calories_count total (round_half_even average))
      | Raises => Raises
      | NonFinite => NonFinite
      end
  | Raises => Raises
  | NonFinite => NonFinite
  end.

(** The part of [show_todays_calories] after the two answers of the
    database: [entries] and [db_props]. *)
Definition calories_summary (entries db_props : json)
    : outcome calories_reply :=
  match db_props with
  | JDict items =>
      match find_calories_prop items with
      | Some calories_prop =>
          if negb (truthy calories_prop) then Value NoCaloriesProperty
          else
            match Py.iter entries with
            | None => Raises
            | Some entries =>
                match tally calories_prop entries (NInt 0) 0 with
                | Value (total_calories, calories_count) =>
                    if (0 <? calories_count)%nat
                    then summary_reply total_calories calories_count
                    else Value NoEntriesToday
                | Raises => Raises
                | NonFinite => NonFinite
                end
            end
      | None => Value NoCaloriesProperty
      end
  | _ => Raises
  end.

Section Today.

Variable World : Type.
Variable notion_search : World -> option json * World.
(** [notion.databases.query] and [notion.databases.retrieve] for a database
    id: the decoded answer, unless the call raises. *)
Variable notion_databases_query : json -> World -> option json * World.
Variable notion_databases_retrieve : json -> World -> option json * World.

(** The reply and the world after the calls; [None] when a float that is not
    finite arose. *)
Definition show_todays_calories (w : World)
    : option (calories_reply * World) :=
  let '(db_id, w1) := get_nutrition_db_id World notion_search w in
  if negb (Py.truth db_id) then Some (DatabaseNotFound, w1)
  else
    let '(answer, w2) := notion_databases_query db_id w1 in
    match Py.bind answer (fun answer => Py.getitem answer (L "results")) with
    | None => Some (ErrorFetching, w2)
    | Some entries =>
        let '(answer, w3) := notion_databases_retrieve db_id w2 in
        match
          Py.bind answer (fun answer => Py.getitem answer (L "properties"))
        with
        | None => Some (ErrorFetching, w3)
        | Some db_props =>
            match calories_summary entries db_props with
            | Value reply => Some (reply, w3)
            | Raises => Some (ErrorFetching, w3)
            | NonFinite => None
            end
        end
    end.

End Today.

(** ** The free-form handler on any answer of the estimator

    [get_macros_from_ai] returns the value its answer decodes to, whatever
    it is, and [None] on any failure; the handler tests its truth value
    only, and reads it afterwards.  This module is the handler with the
    macros as decoded values and [add_food_to_notion] as the function
    itself; the handler of section [Handler] above is this one when every
    answer is a profile of four floats or nothing. *)

Module Untyped.

(** The dict [scale_macros] returns. *)
Definition profile_json (m : macros) : json :=
  JDict [(L "Calories", JFloat (Calories m));
         (L "Protein", JFloat (Protein m));
         (L "Carbohydrates", JFloat (Carbohydrates m));
         (L "Fats", JFloat (Fats m))].

(** An entry of [successful_items]. *)
Record success : Type := Success {
  name : str;
  calories : json;
  protein : json;
  s_serving : Q
}.

(** The message sent with [reply_text]; the total is the integer that the
    format [.0f] shows. *)
Inductive reply : Type :=
| NoFoodIdentified
| Summary (added : list success) (failed : list str) (total : Z).

(** What the handler does to the outside, in order. *)
Inductive event : Type :=
| EvEstimate (food_name : str) (serving_size : Q)
| EvPersist (food_name : str) (serving_size : Q) (macros : json)
| EvReply (r : reply).

(** Why the handler stops without a reply: an exception leaves it, or a
    float that is not finite arises, which is not followed further. *)
Inductive halt : Type :=
| Raised
| Unbounded.

Section Handler.

(** The state of the services outside the process and the calls that reach
    them: the estimator, whose answer is a decoded value ([JNull] for
    [None]), the search of the Notion client and its creation of a page
    from a database id, a name, a serving and the four values read from
    the macros, which succeeds or raises. *)
Variable World : Type.
Variable get_macros_from_ai : str -> Q -> World -> json * World.
Variable notion_search : World -> option json * World.
Variable notion_pages_create :
  json -> str -> Q -> json -> json -> json -> json -> World -> bool * World.
Variable known_foods : table.

(** The four values [add_food_to_notion] reads, in the order of the dict
    literal. *)
Definition four_values (macros : json) : option (json * json * json * json) :=
  Py.bind (Py.getitem macros (L "Calories")) (fun c =>
  Py.bind (Py.getitem macros (L "Protein")) (fun p =>
  Py.bind (Py.getitem macros (L "Carbohydrates")) (fun cb =>
  Py.bind (Py.getitem macros (L "Fats")) (fun f =>
  Some (c, p, cb, f))))).

Definition add_food_to_notion (food : str) (serving : Q) (macros : json)
    (w : World) : bool * World :=
  let '(db_id, w1) := get_nutrition_db_id World notion_search w in
  if negb (Py.truth db_id) then (false, w1)
  else
    match four_values macros with
    | Some (c, p, cb, f) => notion_pages_create db_id food serving c p cb f w1
    | None => (false, w1)
    end.

(** The loop's variables, with the trace and the outside state. *)
Record loop_state : Type := LoopState {
  total_calories : number;
  successful_items : list success;
  failed_items : list str;
  trace : list event;
  world : World
}.

(** The loop after an iteration: going on, or stopped in the state
    reached. *)
Inductive progress : Type :=
| Going (st : loop_state)
| Halted (h : halt) (st : loop_state).

(** "Get macros": the reference table first, the estimator on a miss.  The
    key returned by the matcher is a key of the table (lemma
    [match_known_food_key]), so the lookup cannot fail. *)
Definition get_macros (food : str) (serving : Q) (w : World)
    : json * list event * World :=
  match match_known_food food known_foods cutoff_default with
  | Some matched =>
      if truthy matched then
        (match table_get known_foods matched with
         | Some base => profile_json (scale_macros base serving)
         | None => JNull
         end, [], w)
      else
        let '(m, w') := get_macros_from_ai food serving w in
        (m, [EvEstimate food serving], w')
  | None =>
      let '(m, w') := get_macros_from_ai food serving w in
      (m, [EvEstimate food serving], w')
  end.

(** One iteration of [for item in food_items]. *)
Definition step (st : loop_state) (it : item) : progress :=
  let food := food it in
  let serving := serving it in
  let '(macros, evs, w) := get_macros food serving (world st) in
  if Py.truth macros then
    let '(ok, w') := add_food_to_notion food serving macros w in
    let tr := trace st ++ evs ++ [EvPersist food serving macros] in
    if ok then
      match Py.getitem macros (L "Calories"),
            Py.getitem macros (L "Protein") with
      | Some c, Some p =>
          let added := successful_items st ++ [Success food c p serving] in
          match Num.plus (total_calories st) c with
          | Value total => Going (LoopState total added (failed_items st) tr w')
          | Raises =>
              Halted Raised
                (LoopState (total_calories st) added (failed_items st) tr w')
          | NonFinite =>
              Halted Unbounded
                (LoopState (total_calories st) added (failed_items st) tr w')
          end
      | _, _ =>
          Halted Raised
            (LoopState (total_calories st) (successful_items st)
               (failed_items st) tr w')
      end
    else
      Going (LoopState (total_calories st) (successful_items st)
               (failed_items st ++ [food]) tr w')
  else
    Going (LoopState (total_calories st) (successful_items st)
             (failed_items st ++ [food]) (trace st ++ evs) w).

Fixpoint loop (food_items : list item) (st : loop_state) : progress :=
  match food_items with
  | [] => Going st
  | it :: food_items' =>
      match step st it with
      | Going st' => loop food_items' st'
      | Halted h st' => Halted h st'
      end
  end.

Definition process (food_items : list item) (w : World) : progress :=
  loop food_items (LoopState (NInt 0) [] [] [] w).

(** One call of the handler: what it did to the outside, the outside state
    after it, and why it stopped when it did not return. *)
Record run : Type := Run {
  events : list event;
  after : World;
  halted : option halt
}.

Definition free_form_input (user_text : str) (w : World) : run :=
  let food_items := parse_food_text user_text in
  match food_items with
  | [] => Run [EvReply NoFoodIdentified] w None
  | _ =>
      match process food_items w with
      | Going st =>
          match Num.shown (total_calories st) with
          | Value total =>
              Run (trace st
                   ++ [EvReply (Summary (successful_items st)
                                  (failed_items st) total)])
                (world st) None
          | Raises => Run (trace st) (world st) (Some Raised)
          | NonFinite => Run (trace st) (world st) (Some Unbounded)
          end
      | Halted h st => Run (trace st) (world st) (Some h)
      end
  end.

End Handler.

Arguments total_calories {World}.
Arguments successful_items {World}.
Arguments failed_items {World}.
Arguments trace {World}.
Arguments world {World}.
Arguments Going {World}.
Arguments Halted {World}.
Arguments events {World}.
Arguments after {World}.
Arguments halted {World}.

(** The state a loop is in, going or stopped. *)
Definition state_of {World : Type} (p : progress World) : loop_state World :=
  match p with
  | Going st => st
  | Halted _ st => st
  end.

(** The estimator calls recorded in a trace. *)
Fixpoint estimates (tr : list event) : list (str * Q) :=
  match tr with
  | [] => []
  | EvEstimate f s :: tr' => (f, s) :: estimates tr'
  | _ :: tr' => estimates tr'
  end.

(** The persistence calls recorded in a trace. *)
Fixpoint persists (tr : list event) : list (str * Q * json) :=
  match tr with
  | [] => []
  | EvPersist f s m :: tr' => (f, s, m) :: persists tr'
  | _ :: tr' => persists tr'
  end.

(** The replies recorded in a trace. *)
Fixpoint replies (tr : list event) : list reply :=
  match tr with
  | [] => []
  | EvReply r :: tr' => r :: replies tr'
  | _ :: tr' => replies tr'
  end.

End Untyped.

(** ** The name normaliser beyond ASCII

    [clean_food_name] over texts that, beside ASCII characters, hold two
    letters whose case mappings Python takes from Unicode's special casing:
    U+0149 (small n preceded by apostrophe), whose title case is the two
    characters U+02BC and N, and U+02BC (modifier letter apostrophe).  The
    functions are those of [Char], [Str] and [Re] above and agree with them
    on ASCII characters (module [WideFacts]). *)

Module Wide.

Inductive uchar : Type :=
| Asc (c : ascii)
| NApostrophe
| ModApostrophe.

Definition ustr : Type := list uchar.

(** An ASCII text as a text. *)
Definition up (s : str) : ustr := map Asc s.

Definition eqb (a b : uchar) : bool :=
  match a, b with
  | Asc c, Asc d => Ascii.eqb c d
  | NApostrophe, NApostrophe => true
  | ModApostrophe, ModApostrophe => true
  | _, _ => false
  end.

(** [\d] *)
Definition is_digit (a : uchar) : bool :=
  match a with
  | Asc c => Char.is_digit c
  | _ => false
  end.

(** [\s] and [str.isspace] *)
Definition is_space (a : uchar) : bool :=
  match a with
  | Asc c => Char.is_space c
  | _ => false
  end.

(** [\w]: the two letters are alphabetic. *)
Definition is_word (a : uchar) : bool :=
  match a with
  | Asc c => Char.is_word c
  | _ => true
  end.

(** The lower case of a character, as [str.lower] and [str.capitalize] take
    it. *)
Definition lower (a : uchar) : ustr :=
  match a with
  | Asc c => [Asc (Char.lower c)]
  | _ => [a]
  end.

(** The title case of a character, as [str.capitalize] takes it for the
    first character. *)
Definition title (a : uchar) : ustr :=
  match a with
  | Asc c => [Asc (Char.upper c)]
  | NApostrophe => [ModApostrophe; Asc "N"%char]
  | ModApostrophe => [ModApostrophe]
  end.

(** The upper case of a character, as [str.upper] takes it. *)
Definition upper (a : uchar) : ustr :=
  match a with
  | Asc c => [Asc (Char.upper c)]
  | NApostrophe => [ModApostrophe; Asc "N"%char]
  | ModApostrophe => [ModApostrophe]
  end.

(** The one-character lower case that [re.IGNORECASE] compares. *)
Definition fold (a : uchar) : uchar :=
  match a with
  | Asc c => Asc (Char.lower c)
  | _ => a
  end.

(** [s.lower()] and [s.upper()] *)
Definition lower_text (s : ustr) : ustr := flat_map lower s.
Definition upper_text (s : ustr) : ustr := flat_map upper s.

(** [s.capitalize()] *)
Definition capitalize (s : ustr) : ustr :=
  match s with
  | [] => []
  | c :: w => title c ++ lower_text w
  end.

Fixpoint lstrip (s : ustr) : ustr :=
  match s with
  | c :: s' => if is_space c then lstrip s' else s
  | [] => []
  end.

Definition rstrip (s : ustr) : ustr := rev (lstrip (rev s)).

(** [s.strip()] *)
Definition strip (s : ustr) : ustr := rstrip (lstrip s).

Definition flush (acc : ustr) : list ustr :=
  match acc with
  | [] => []
  | _ => [rev acc]
  end.

Fixpoint split_go (acc : ustr) (s : ustr) : list ustr :=
  match s with
  | [] => flush acc
  | c :: s' =>
      if is_space c then flush acc ++ split_go [] s'
      else split_go (c :: acc) s'
  end.

(** [s.split()] *)
Definition split (s : ustr) : list ustr := split_go [] s.

(** [sep.join(ws)] *)
Fixpoint join (sep : ustr) (ws : list ustr) : ustr :=
  match ws with
  | [] => []
  | [w] => w
  | w :: ws' => w ++ sep ++ join sep ws'
  end.

(** The matcher of module [Re], over these characters. *)
Inductive regex : Type :=
| Chr (c : uchar)
| Cls (p : uchar -> bool)
| Seq (r1 r2 : regex)
| Alt (r1 r2 : regex)
| Opt (r : regex)
| Star (p : uchar -> bool)
| Plus (p : uchar -> bool)
| Bnd
| Grp (n : nat) (r : regex).

Fixpoint Lit (s : ustr) : regex :=
  match s with
  | [] => Opt (Cls (fun _ => false))
  | [c] => Chr c
  | c :: s' => Seq (Chr c) (Lit s')
  end.

Record mstate : Type := MState {
  prev : option uchar;
  rest : ustr;
  pos : nat;
  caps : list (nat * ustr)
}.

Definition advance (st : mstate) (c : uchar) (s' : ustr) : mstate :=
  MState (Some c) s' (S (pos st)) (caps st).

Definition set_cap (n : nat) (v : ustr) (st : mstate) : mstate :=
  MState (prev st) (rest st) (pos st) ((n, v) :: caps st).

Definition chr_eq (ci : bool) (c x : uchar) : bool :=
  if ci then eqb (fold c) (fold x) else eqb c x.

Definition wordb (o : option uchar) : bool :=
  match o with
  | Some c => is_word c
  | None => false
  end.

Definition at_boundary (st : mstate) : bool :=
  xorb (wordb (prev st)) (wordb (hd_error (rest st))).

Definition cont : Type := mstate -> option mstate.

Fixpoint star_cls (p : uchar -> bool) (k : cont)
    (pv : option uchar) (s : ustr) (i : nat) (cs : list (nat * ustr))
    : option mstate :=
  match s with
  | c :: s' =>
      if p c then
        match star_cls p k (Some c) s' (S i) cs with
        | Some r => Some r
        | None => k (MState pv s i cs)
        end
      else k (MState pv s i cs)
  | [] => k (MState pv s i cs)
  end.

Definition star (p : uchar -> bool) (k : cont) (st : mstate) : option mstate :=
  star_cls p k (prev st) (rest st) (pos st) (caps st).

Fixpoint rmatch (ci : bool) (r : regex) (k : cont) (st : mstate)
    : option mstate :=
  match r with
  | Chr c =>
      match rest st with
      | x :: s' => if chr_eq ci c x then k (advance st x s') else None
      | [] => None
      end
  | Cls p =>
      match rest st with
      | x :: s' => if p x then k (advance st x s') else None
      | [] => None
      end
  | Seq r1 r2 => rmatch ci r1 (rmatch ci r2 k) st
  | Alt r1 r2 =>
      match rmatch ci r1 k st with
      | Some res => Some res
      | None => rmatch ci r2 k st
      end
  | Opt r1 =>
      match rmatch ci r1 k st with
      | Some res => Some res
      | None => k st
      end
  | Star p => star p k st
  | Plus p =>
      match rest st with
      | x :: s' => if p x then star p k (advance st x s') else None
      | [] => None
      end
  | Bnd => if at_boundary st then k st else None
  | Grp n r1 =>
      rmatch ci r1
        (fun st' => k (set_cap n (firstn (pos st' - pos st) (rest st)) st'))
        st
  end.

Definition match_at (ci : bool) (r : regex) (pv : option uchar) (s : ustr)
    : option mstate :=
  rmatch ci r Some (MState pv s 0 []).

Fixpoint sub_go (ci : bool) (r : regex) (repl : ustr) (skip : nat)
    (pv : option uchar) (s : ustr) : ustr :=
  match s with
  | [] => []
  | c :: s' =>
      match skip with
      | S n => sub_go ci r repl n (Some c) s'
      | O =>
          match match_at ci r pv s with
          | Some st =>
              match pos st with
              | S n => repl ++ sub_go ci r repl n (Some c) s'
              | O => c :: sub_go ci r repl 0 (Some c) s'
              end
          | None => c :: sub_go ci r repl 0 (Some c) s'
          end
      end
  end.

(** [re.sub(r, repl, s)], with [flags=re.IGNORECASE] when [ci]. *)
Definition sub (ci : bool) (r : regex) (repl : ustr) (s : ustr) : ustr :=
  sub_go ci r repl 0 None s.

(** [\d+\.?\d*\s*] *)
Definition re_number : regex :=
  Seq (Plus is_digit)
    (Seq (Opt (Chr (Asc "."%char)))
       (Seq (Star is_digit) (Star is_space))).

Definition word (s : string) : regex := Lit (up (L s)).

(** [\b(pieces|piece|g|grams|gram|of|the|and|with)\b] *)
Definition re_stop : regex :=
  Seq Bnd
    (Seq (Grp 1
            (Alt (word "pieces") (Alt (word "piece") (Alt (word "g")
            (Alt (word "grams") (Alt (word "gram") (Alt (word "of")
            (Alt (word "the") (Alt (word "and") (word "with"))))))))))
       Bnd).

(** [\s+] *)
Definition re_spaces : regex := Plus is_space.

Definition clean_food_name (food_name : ustr) : ustr :=
  (* Remove numbers and decimal points *)
  let cleaned := sub false re_number [] food_name in
  (* Remove common units and garbage words *)
  let cleaned := sub true re_stop [] cleaned in
  (* Remove extra spaces and trim *)
  let cleaned := strip (sub false re_spaces (up (L " ")) cleaned) in
  (* Capitalize first letter of each word *)
  join (up (L " ")) (map capitalize (split cleaned)).

End Wide.

(** ** The name normaliser, step by step, without patterns

    A second description of [clean_food_name], written from the four steps
    of the specification (with the title-casing as amended: the letters
    after the first are lower-cased).  Theorem [C3_normaliser_steps] proves
    that the source's definition computes it. *)

Module CleanSpec.

(** Step 1.  A numeral is a maximal run of digits, optionally followed by a
    point and a further run of digits; it is removed together with the
    whitespace after it.  The scan remembers where it is. *)
Inductive num_state : Type :=
| Outside   (* not in a numeral *)
| InInt     (* in the digits before the point *)
| InFrac    (* after the point *)
| InTail.   (* in the whitespace after a numeral *)

Fixpoint strip_numerals_from (q : num_state) (s : str) : str :=
  match s with
  | [] => []
  | c :: s' =>
      if Char.is_digit c then
        match q with
        | InFrac => strip_numerals_from InFrac s'
        | _ => strip_numerals_from InInt s'
        end
      else
        match q with
        | InInt =>
            if Ascii.eqb c "."%char then strip_numerals_from InFrac s'
            else if Char.is_space c then strip_numerals_from InTail s'
            else c :: strip_numerals_from Outside s'
        | InFrac | InTail =>
            if Char.is_space c then strip_numerals_from InTail s'
            else c :: strip_numerals_from Outside s'
        | Outside => c :: strip_numerals_from Outside s'
        end
  end.

Definition strip_numerals (s : str) : str := strip_numerals_from Outside s.

(** Step 2.  A word is a maximal run of word characters; a word that is a
    stop word, letter case ignored, is removed. *)
Definition is_stop_word (w : str) : bool := str_in (Str.lower w) stop_words.

(** The word read so far is kept reversed in [acc]. *)
Definition keep (acc : str) : str :=
  if is_stop_word (rev acc) then [] else rev acc.

Fixpoint drop_stop_from (acc : str) (s : str) : str :=
  match s with
  | [] => keep acc
  | c :: s' =>
      if Char.is_word c then drop_stop_from (c :: acc) s'
      else keep acc ++ c :: drop_stop_from [] s'
  end.

Definition drop_stop_words (s : str) : str := drop_stop_from [] s.

(** Step 3.  Every run of whitespace becomes one space; then the ends are
    trimmed. *)
Fixpoint collapse_from (in_space : bool) (s : str) : str :=
  match s with
  | [] => []
  | c :: s' =>
      if Char.is_space c then
        if in_space then collapse_from true s'
        else " "%char :: collapse_from true s'
      else c :: collapse_from false s'
  end.

Definition collapse (s : str) : str := collapse_from false s.

(** Step 4.  Each word gets its first letter in upper case and the others
    in lower case; the words are joined by single spaces. *)
Definition title_word (w : str) : str :=
  match w with
  | [] => []
  | c :: w' => Char.upper c :: map Char.lower w'
  end.

Definition clean_steps (s : str) : str :=
  let step1 := strip_numerals s in
  let step2 := drop_stop_words step1 in
  let step3 := Str.strip (collapse step2) in
  Str.join (L " ") (map title_word (Str.split step3)).

(** The title-casing of the claim as first stated: the letters after the
    first are left as they are. *)
Definition title_word_keeping_case (w : str) : str :=
  match w with
  | [] => []
  | c :: w' => Char.upper c :: w'
  end.

(** The words of a text: its maximal runs of word characters. *)
Fixpoint words_from (acc : str) (s : str) : list str :=
  match s with
  | [] => Str.flush acc
  | c :: s' =>
      if Char.is_word c then words_from (c :: acc) s'
      else Str.flush acc ++ words_from [] s'
  end.

Definition words (s : str) : list str := words_from [] s.

End CleanSpec.

(** * Vocabulary of the properties

    The predicates, measures and fixtures the theorems below are stated
    with.  None of them is part of the program. *)

(** ** Matches of a pattern *)

(** Matches come in text order and do not overlap. *)
Definition before (m m' : rematch) : Prop := m_end m <= m_start m'.

(** A text without a character of class [p] has no match of a pattern that
    must begin with such a character. *)
Definition starts_with (p : ascii -> bool) (ci : bool) (r : regex) : Prop :=
  forall pv c s, p c = false -> match_at ci r pv (c :: s) = None.

(** [matches ci r st w st']: from [st], the pattern [r] can consume [w] and
    leave the matcher in [st'].  The relation forgets priorities; it is used
    to read off the shape of captures. *)
Inductive matches (ci : bool) : regex -> mstate -> str -> mstate -> Prop :=
| M_chr c x s' st :
    rest st = x :: s' -> chr_eq ci c x = true ->
    matches ci (Chr c) st [x] (advance st x s')
| M_cls p x s' st :
    rest st = x :: s' -> p x = true ->
    matches ci (Cls p) st [x] (advance st x s')
| M_seq r1 r2 st1 w1 st2 w2 st3 :
    matches ci r1 st1 w1 st2 -> matches ci r2 st2 w2 st3 ->
    matches ci (Seq r1 r2) st1 (w1 ++ w2) st3
| M_alt_l r1 r2 st w st' :
    matches ci r1 st w st' -> matches ci (Alt r1 r2) st w st'
| M_alt_r r1 r2 st w st' :
    matches ci r2 st w st' -> matches ci (Alt r1 r2) st w st'
| M_opt_some r st w st' :
    matches ci r st w st' -> matches ci (Opt r) st w st'
| M_opt_none r st :
    matches ci (Opt r) st [] st
| M_star_nil p st :
    matches ci (Star p) st [] st
| M_star_cons p x s' st w st' :
    rest st = x :: s' -> p x = true ->
    matches ci (Star p) (advance st x s') w st' ->
    matches ci (Star p) st (x :: w) st'
| M_plus p x s' st w st' :
    rest st = x :: s' -> p x = true ->
    matches ci (Star p) (advance st x s') w st' ->
    matches ci (Plus p) st (x :: w) st'
| M_bnd st :
    at_boundary st = true -> matches ci Bnd st [] st
| M_grp n r st w st' :
    matches ci r st w st' -> matches ci (Grp n r) st w (set_cap n w st').

Definition is_digits (w : str) : Prop :=
  Forall (fun c => Char.is_digit c = true) w /\ w <> [].

Definition units : list str :=
  [L "tbsp"; L "tsp"; L "tablespoon"; L "teaspoon"].

(** ** The scan, step by step *)

(** The character before the cursor once [w] has been consumed. *)
Fixpoint last_or (pv : option ascii) (w : str) : option ascii :=
  match w with
  | [] => pv
  | c :: w' => last_or (Some c) w'
  end.

(** Where a greedy repetition stops when nothing after it can fail. *)
Fixpoint star_end (p : ascii -> bool) (pv : option ascii) (s : str) (i : nat)
    (cs : list (nat * str)) : mstate :=
  match s with
  | c :: s' =>
      if p c then star_end p (Some c) s' (S i) cs else MState pv s i cs
  | [] => MState pv s i cs
  end.

Fixpoint drop_while (p : ascii -> bool) (s : str) : str :=
  match s with
  | c :: s' => if p c then drop_while p s' else s
  | [] => []
  end.

Fixpoint take_while (p : ascii -> bool) (s : str) : str :=
  match s with
  | c :: s' => if p c then c :: take_while p s' else []
  | [] => []
  end.

Definition after_frac (s : str) : str :=
  drop_while Char.is_space (drop_while Char.is_digit s).

Definition after_point (s : str) : str :=
  match s with
  | c :: s' => if Ascii.eqb c "."%char then after_frac s' else after_frac s
  | [] => []
  end.

(** What is left of the text after a numeral whose first digit has been
    read. *)
Definition after_number (s : str) : str :=
  after_point (drop_while Char.is_digit s).

(** The cursor after [n] more characters. *)
Fixpoint consume (n : nat) (st : mstate) : mstate :=
  match n with
  | O => st
  | S n' =>
      match rest st with
      | x :: s' => consume n' (advance st x s')
      | [] => st
      end
  end.

(** [l] is a prefix of [s], letter case ignored. *)
Fixpoint prefix_ci (l s : str) : bool :=
  match l, s with
  | [], _ => true
  | c :: l', x :: s' => chr_eq true c x && prefix_ci l' s'
  | _ :: _, [] => false
  end.

(** The alternation of a list of literal words. *)
Fixpoint alts (ls : list str) : regex :=
  match ls with
  | [] => Cls (fun _ => false)
  | [l] => Lit l
  | l :: ls' => Alt (Lit l) (alts ls')
  end.

Fixpoint try_alts (ls : list str) (k : cont) (st : mstate) : option mstate :=
  match ls with
  | [] => None
  | l :: ls' =>
      match (if prefix_ci l (rest st) then k (consume (List.length l) st)
             else None) with
      | Some r => Some r
      | None => try_alts ls' k st
      end
  end.

(** A literal is a whole word of the text at the cursor. *)
Definition whole_word (l s : str) : bool :=
  prefix_ci l s && negb (wordb (hd_error (skipn (List.length l) s))).

Definition good_literal (l : str) : Prop :=
  Forall (fun c => Char.is_word c = true) l /\ Str.lower l = l.

(** The continuation of the group: record it, then require a boundary. *)
Definition after_group (s0 : str) (p0 : nat) (k : cont) : cont :=
  fun st' => rmatch true Bnd k (set_cap 1 (firstn (pos st' - p0) s0) st').

(** ** Tokens and words *)

Definition no_space (c : ascii) : Prop := Char.is_space c = false.

(** A token of [split]: not empty and free of whitespace. *)
Definition token (t : str) : Prop := t <> [] /\ Forall no_space t.

Definition word_chars (w : str) : Prop :=
  Forall (fun c => Char.is_word c = true) w.

Definition not_stop (w : str) : Prop := CleanSpec.is_stop_word w = false.

Definition digit_free (s : str) : Prop :=
  Forall (fun c => Char.is_digit c = false) s.

(** ** Mentions *)

(** The key under which an item is remembered in [seen]. *)
Definition key (it : item) : str := Str.strip (food it).

(** Order-preserving selection. *)
Inductive subseq {A : Type} : list A -> list A -> Prop :=
| sub_nil : subseq [] []
| sub_skip x l1 l2 : subseq l1 l2 -> subseq l1 (x :: l2)
| sub_take x l1 l2 : subseq l1 l2 -> subseq (x :: l1) (x :: l2).

(** Where a candidate comes from: a match of one of the three patterns on
    the lower-cased text. *)
Inductive origin (text : str) (it : item) (m : rematch) : Prop :=
| from_grams :
    In m (finditer false re_grams (Str.lower text)) ->
    In it (item_of_grams m) -> origin text it m
| from_count :
    In m (finditer false re_count (Str.lower text)) ->
    In it (item_of_count m) -> origin text it m
| from_unit :
    In m (finditer false re_unit (Str.lower text)) ->
    In it (item_of_unit m) -> origin text it m.

(** ** Scores *)

(** The candidates that pass the three tests, with their scores. *)
Definition scored (word : str) (cutoff : Q) (possibilities : list str)
    : list (Q * str) :=
  flat_map (fun x => if Difflib.passes cutoff x word then [(Difflib.ratio x word, x)] else [])
    possibilities.

(** All 256 characters. *)
Definition all_chars_list : list ascii := map ascii_of_nat (seq 0 256).

(** The sum of [f] over all characters. *)
Definition sum_chars (f : ascii -> nat) : nat := list_sum (map f all_chars_list).

(** The size of the multiset intersection of two texts. *)
Definition common_chars (x y : str) : nat :=
  sum_chars (fun c => Nat.min (Difflib.count c x) (Difflib.count c y)).

Definition indicator (d c : ascii) : nat := if ascii_dec d c then 1 else 0.

(** The loop of [quick_ratio] computes the multiset intersection. *)
Definition avail_get (b : str) (avail : list (ascii * Z)) (c : ascii) : Z :=
  match find (fun kv => Ascii.eqb c (fst kv)) avail with
  | Some kv => snd kv
  | None => Z.of_nat (Difflib.count c b)
  end.

(** [s[lo:hi]] *)
Definition slice (s : str) (lo hi : nat) : str := firstn (hi - lo) (skipn lo s).

(** [k] characters from [i] in [a] are the [k] characters from [j] in
    [b]. *)
Definition block (a b : str) (i j k : nat) : Prop :=
  forall d, d < k ->
    exists c, nth_error a (i + d) = Some c /\ nth_error b (j + d) = Some c.

(** A triple that lies within the two ranges [alo, hi) of [a] and
    [blo, bhi) of [b]. *)
Definition best_ok (a b : str) (alo blo bhi : nat) (hi : nat)
    (t : Difflib.triple) : Prop :=
  let '(bi, bj, bk) := t in
  alo <= bi /\ bi + bk <= hi /\ blo <= bj /\ bj + bk <= bhi
  /\ block a b bi bj bk.

(** An entry [k] of [j2len] at column [j], the rows before [e] done: a
    block of length [k] that ends just before [e] in [a] and at [j] in
    [b]. *)
Definition ends (a b : str) (alo blo bhi : nat) (e j k : nat) : Prop :=
  k = 0
  \/ (alo + k <= e /\ blo + k <= S j /\ j < bhi
      /\ block a b (e - k) (S j - k) k).

Definition row_ok (a b : str) (alo blo bhi : nat) (e : nat)
    (row : list nat) : Prop :=
  forall j, ends a b alo blo bhi e j (nth j row 0).

(** ** Macro profiles *)

(** The four numbers of a profile. *)
Definition fields (m : macros) : list Q :=
  [Calories m; Protein m; Carbohydrates m; Fats m].

(** ** The trace of the handler *)

(** The estimator calls recorded in a trace. *)
Fixpoint estimates (tr : list event) : list (str * Q) :=
  match tr with
  | [] => []
  | EvEstimate f s :: tr' => (f, s) :: estimates tr'
  | _ :: tr' => estimates tr'
  end.

(** The persistence calls recorded in a trace. *)
Fixpoint persists (tr : list event) : list (str * Q * macros) :=
  match tr with
  | [] => []
  | EvPersist f s m :: tr' => (f, s, m) :: persists tr'
  | _ :: tr' => persists tr'
  end.

(** The replies recorded in a trace. *)
Fixpoint replies (tr : list event) : list reply :=
  match tr with
  | [] => []
  | EvReply r :: tr' => r :: replies tr'
  | _ :: tr' => replies tr'
  end.

(** The reference table answers for the item. *)
Definition hit (known_foods : table) (it : item) : bool :=
  match match_known_food (food it) known_foods cutoff_default with
  | Some k => truthy k
  | None => false
  end.

Definition missed (known_foods : table) (it : item) : bool :=
  negb (hit known_foods it).

(** What one iteration adds. *)
Record delta : Type := Delta {
  d_success : list success;
  d_failed : list str;
  d_trace : list event
}.

Definition step_delta (World : Type)
    (ai : str -> Q -> World -> option macros * World)
    (notion : str -> Q -> macros -> World -> bool * World)
    (known_foods : table) (w : World) (it : item) : delta * World :=
  let '(m, evs, w1) := get_macros World ai known_foods (food it) (serving it) w in
  match m with
  | Some mc =>
      let '(ok, w2) := notion (food it) (serving it) mc w1 in
      let tr := evs ++ [EvPersist (food it) (serving it) mc] in
      if ok
      then (Delta [Success (food it) (Calories mc) (Protein mc) (serving it)]
              [] tr, w2)
      else (Delta [] [food it] tr, w2)
  | None => (Delta [] [food it] evs, w1)
  end.

(** ** Vocabulary of the further properties *)

(** A double that writes a number of at most two decimals, of ordinary
    size. *)
Definition two_decimals (c : Q) : Prop :=
  exists n, (Z.abs n <= 10 ^ 15)%Z /\ c = literal n 100.

Definition zero_macros : macros := Macros 0 0 0 0.

(** The options of the keyboard that [height_input] shows. *)
Definition activity_options : list str :=
  [ L "Sedentary (little/no exercise)";
    L "Light exercise (1-3 days/week)";
    L "Moderate exercise (3-5 days/week)";
    L "Active (6-7 days/week)";
    L "Extra active (athlete level)" ].

(** The level [activity_input] reads in a text. *)
Definition level_of (text : str) : str :=
  activity_scan activity_map (Str.lower text) (L "sedentary").

(** A word in title case: an upper-case letter, then lower-case letters. *)
Definition titled_word (w : str) : Prop :=
  exists c w', w = c :: w' /\ Char.is_upper c = true
               /\ Forall (fun d => Char.is_lower d = true) w'.

(** Title-cased words separated by single spaces. *)
Definition plain_name (n : str) : Prop :=
  exists ws, ws <> [] /\ Forall titled_word ws /\ n = Str.join (L " ") ws.

(** A phrase of letters and whitespace. *)
Definition phrase_chars (w : str) : Prop :=
  Forall (fun c => alpha_or_space c = true) w.

(** What the summary says of an added item, what a persistence call was
    given, and what a mention asks for. *)
Definition reported (s : success) : str * Q * Q * Q :=
  (name s, s_serving s, calories s, protein s).

Definition written (p : str * Q * macros) : str * Q * Q * Q :=
  let '(f, sv, m) := p in (f, sv, Calories m, Protein m).

Definition asked (it : item) : str * Q := (food it, serving it).

(** The sum [total_calories] accumulates. *)
Definition sum_calories (l : list success) : Q :=
  fold_left Double.add (map calories l) 0%Q.

(** The test [if matched] on the result of the matcher for a name. *)
Definition name_hit (known_foods : table) (name : str) : bool :=
  match match_known_food name known_foods cutoff_default with
  | Some k => truthy k
  | None => false
  end.

(** A search result that is a database whose title starts with a text item
    reading [name]. *)
Definition database_titled (name : str) (result : json) : Prop :=
  exists first rest text,
    Py.getitem result (L "object") = Some (JStr (L "database"))
    /\ Py.getitem result (L "title") = Some (JList (first :: rest))
    /\ Py.getitem first (L "text") = Some text
    /\ Py.getitem text (L "content") = Some (JStr name).

(** A search result of another kind, a page for one. *)
Definition not_a_database (result : json) : Prop :=
  exists kind,
    Py.getitem result (L "object") = Some kind
    /\ Py.eq_str kind (L "database") = false.

(** The name, whatever its case, is the one the bot looks for. *)
Definition names_tracker (name : str) : bool :=
  str_eqb (Str.lower name) (Str.lower DB_NAME).

(** A search result that is not chosen: not a database, or a database with
    another name. *)
Definition passed_over (result : json) : Prop :=
  not_a_database result
  \/ exists name, database_titled name result /\ names_tracker name = false.

(** A search result on which the lookup does not raise. *)
Definition examined (result : json) : Prop :=
  not_a_database result \/ exists name, database_titled name result.

(** A calories value of an entry: an [int], or none. *)
Definition reading (v : option Z) : json :=
  match v with
  | Some n => JInt n
  | None => JNull
  end.

Fixpoint present (values : list (option Z)) : list Z :=
  match values with
  | [] => []
  | Some n :: values' => n :: present values'
  | None :: values' => present values'
  end.

Definition sum_Z (l : list Z) : Z := fold_right Z.add 0%Z l.

(** A value that cannot be added to a number. *)
Definition not_a_number (v : json) : bool :=
  match v with
  | JStr _ | JList _ | JDict _ => true
  | _ => false
  end.

(** The properties of a database whose first property with [calori] in its
    lower-cased name is [prop]. *)
Definition calories_column (prop : str) (items : list (str * json)) : Prop :=
  exists before details after,
    items = before ++ (prop, details) :: after
    /\ Forall (fun item =>
                 Text.contains (L "calori") (Str.lower (fst item)) = false)
         before
    /\ Text.contains (L "calori") (Str.lower prop) = true.

Section Answers.

Variable World : Type.
Variable notion_search : World -> option json * World.
Variable notion_databases_query : json -> World -> option json * World.
Variable notion_databases_retrieve : json -> World -> option json * World.

(** The three calls of [show_todays_calories] are answered: the search
    yields a database id, the query the entries and the retrieval the
    properties, leaving the state [w3]. *)
Definition answered (w : World) (entries db_props : json) (w3 : World)
    : Prop :=
  exists response w1 query_answer w2 retrieve_answer,
    notion_search w = (response, w1)
    /\ Py.truth (db_id_of response) = true
    /\ notion_databases_query (db_id_of response) w1 = (Some query_answer, w2)
    /\ Py.getitem query_answer (L "results") = Some entries
    /\ notion_databases_retrieve (db_id_of response) w2
       = (Some retrieve_answer, w3)
    /\ Py.getitem retrieve_answer (L "properties") = Some db_props.

End Answers.

(** ** Vocabulary of the handler on any answer *)

(** An answer of the estimator that is a profile of four floats, or
    nothing, as the value it is. *)
Definition answer_json (a : option macros) : json :=
  match a with
  | Some m => Untyped.profile_json m
  | None => JNull
  end.

Definition success_json (s : success) : Untyped.success :=
  Untyped.Success (name s) (JFloat (calories s)) (JFloat (protein s))
    (s_serving s).

Definition reply_json (r : reply) : Untyped.reply :=
  match r with
  | NoFoodIdentified => Untyped.NoFoodIdentified
  | Summary added failed total =>
      Untyped.Summary (map success_json added) failed (round_half_even total)
  end.

Definition event_json (e : event) : Untyped.event :=
  match e with
  | EvEstimate f s => Untyped.EvEstimate f s
  | EvPersist f s m => Untyped.EvPersist f s (Untyped.profile_json m)
  | EvReply r => Untyped.EvReply (reply_json r)
  end.

(** The total of the loop: the [int] 0 before the first addition, a float
    after it. *)
Definition total_json (t : Q) (n : number) : Prop :=
  (n = NInt 0 /\ t = 0%Q) \/ n = NFloat t.

Section Typed.

Variable World : Type.
Variable ai : str -> Q -> World -> option macros * World.
Variable search : World -> option json * World.
Variable create :
  json -> str -> Q -> json -> json -> json -> json -> World -> bool * World.

(** An estimator that answers with profiles or nothing, and the writing of
    a profile. *)
Definition typed_estimator (food : str) (serving : Q) (w : World)
    : json * World :=
  let '(a, w') := ai food serving w in (answer_json a, w').

Definition typed_notion (food : str) (serving : Q) (m : macros) (w : World)
    : bool * World :=
  Untyped.add_food_to_notion World search create food serving
    (Untyped.profile_json m) w.

(** The two loops are in the same state. *)
Definition agrees (st : loop_state World) (ust : Untyped.loop_state World)
    : Prop :=
  total_json (total_calories st) (Untyped.total_calories ust)
  /\ Untyped.successful_items ust = map success_json (successful_items st)
  /\ Untyped.failed_items ust = failed_items st
  /\ Untyped.trace ust = map event_json (trace st)
  /\ Untyped.world ust = world st.

End Typed.

(** ** Vocabulary of the normaliser beyond ASCII *)

(** An ASCII character, and a text of ASCII characters. *)
Definition is_ascii (a : Wide.uchar) : bool :=
  match a with
  | Wide.Asc c => Char.code c <? 128
  | _ => false
  end.

Definition ascii_text (s : Wide.ustr) : Prop := forallb is_ascii s = true.

(** The matcher state of an ASCII attempt, as a state over texts. *)
Definition up_caps (cs : list (nat * str)) : list (nat * Wide.ustr) :=
  map (fun nv => (fst nv, Wide.up (snd nv))) cs.

Definition up_state (st : Re.mstate) : Wide.mstate :=
  Wide.MState (option_map Wide.Asc (Re.prev st)) (Wide.up (Re.rest st)) (Re.pos st)
    (up_caps (Re.caps st)).

(** A pattern over texts that is an ASCII pattern. *)
Inductive same_pattern : Re.regex -> Wide.regex -> Prop :=
| same_chr c : same_pattern (Re.Chr c) (Wide.Chr (Wide.Asc c))
| same_cls p q :
    (forall c, q (Wide.Asc c) = p c) -> same_pattern (Re.Cls p) (Wide.Cls q)
| same_seq r1 r2 w1 w2 :
    same_pattern r1 w1 -> same_pattern r2 w2 ->
    same_pattern (Re.Seq r1 r2) (Wide.Seq w1 w2)
| same_alt r1 r2 w1 w2 :
    same_pattern r1 w1 -> same_pattern r2 w2 ->
    same_pattern (Re.Alt r1 r2) (Wide.Alt w1 w2)
| same_opt r w : same_pattern r w -> same_pattern (Re.Opt r) (Wide.Opt w)
| same_star p q :
    (forall c, q (Wide.Asc c) = p c) -> same_pattern (Re.Star p) (Wide.Star q)
| same_plus p q :
    (forall c, q (Wide.Asc c) = p c) -> same_pattern (Re.Plus p) (Wide.Plus q)
| same_bnd : same_pattern Re.Bnd Wide.Bnd
| same_grp n r w : same_pattern r w -> same_pattern (Re.Grp n r) (Wide.Grp n w).

(** ** Fixtures for closed examples *)

(** A world with no state, for closed examples. *)
Definition NoWorld : Type := Datatypes.unit.

Definition no_estimate (_ : str) (_ : Q) (w : NoWorld) : option macros * NoWorld :=
  (None, w).

Definition estimate_ones (_ : str) (_ : Q) (w : NoWorld) : option macros * NoWorld :=
  (Some (Macros 1 1 1 1), w).

Definition persist_ok (_ : str) (_ : Q) (_ : macros) (w : NoWorld) : bool * NoWorld :=
  (true, w).

Definition bananas_240 : item := Item (L "Bananas") 240 (L "pieces") (Some 2%Q).

Definition olive_oil_tbsp : item :=
  Item (L "Olive Oil (tbsp)") 28 (L "tbsp") (Some 2%Q).

Definition chicken_table : table :=
  [(L "chicken breast", Macros 165 31 0 (Double.round (36 # 10)))].

Definition chicken_150 : item := Item (L "Chicken Breast") 150 (L "g") None.

(** Cooked rice: 130 kcal, 2.7 g protein, 28.2 g carbohydrates and 0.3 g fat
    per 100 g, as the doubles the JSON numbers denote. *)
Definition rice_table : table :=
  [(L "rice",
    Macros 130 (Double.round (27 # 10)) (Double.round (282 # 10))
      (Double.round (3 # 10)))].

Definition rice_75 : item := Item (L "Rice") 75 (L "g") None.

Definition key_17 : str := L "aaaaaaaaaaaaaaaaaxxx".

Definition name_17 : str := L "aaaaaaaaaaaaaaaaayyy".

Definition key_16 : str := L "aaaaaaaaaaaaaaaaxxxx".

Definition name_16 : str := L "aaaaaaaaaaaaaaaayyyy".

(** ** Tactics *)

Definition text_item (content : str) : json :=
  JDict [(L "type", JStr (L "text"));
         (L "text", JDict [(L "content", JStr content)])].

Definition mention_item : json :=
  JDict [(L "type", JStr (L "mention"));
         (L "mention", JDict [(L "type", JStr (L "date"))])].

Definition database_object (id : str) (title : list json) : json :=
  JDict [(L "object", JStr (L "database")); (L "id", JStr id);
         (L "title", JList title)].

Definition page_object (id : str) : json :=
  JDict [(L "object", JStr (L "page")); (L "id", JStr id)].

Definition search_answer (results : list json) : json :=
  JDict [(L "object", JStr (L "list")); (L "results", JList results)].

Definition tracker_db : json :=
  database_object (L "db-2") [text_item (L "NUTRITION tracker")].

Definition search_none (w : NoWorld) : option json * NoWorld :=
  (Some (search_answer [page_object (L "p-1")]), w).

Definition search_tracker (w : NoWorld) : option json * NoWorld :=
  (Some (search_answer [page_object (L "p-1"); tracker_db]), w).

Definition create_ok (_ : json) (_ : str) (_ : Q) (_ : macros) (w : NoWorld)
    : bool * NoWorld :=
  (true, w).

Definition entry_with (prop : str) (number : json) : json :=
  JDict [(L "object", JStr (L "page"));
         (L "properties", JDict [(prop, JDict [(L "number", number)])])].

Definition tracker_props : list (str * json) :=
  [(L "Food name", JDict [(L "type", JStr (L "title"))]);
   (L "Calories", JDict [(L "type", JStr (L "number"))]);
   (L "Protein", JDict [(L "type", JStr (L "number"))])].

Definition query_of (entries : list json) (_ : json) (w : NoWorld)
    : option json * NoWorld :=
  (Some (JDict [(L "results", JList entries)]), w).

Definition retrieve_props (_ : json) (w : NoWorld) : option json * NoWorld :=
  (Some (JDict [(L "properties", JDict tracker_props)]), w).

Definition no_answer (_ : str) (_ : Q) (w : NoWorld) : json * NoWorld :=
  (JNull, w).

Definition create_any (_ : json) (_ : str) (_ : Q) (_ _ _ _ : json)
    (w : NoWorld) : bool * NoWorld :=
  (true, w).

(** An answer of the estimator that is a dict with the four keys, the
    calories being [null]. *)
Definition null_calories : json :=
  JDict [(L "Calories", JNull); (L "Protein", JFloat (13 # 10));
         (L "Carbohydrates", JInt 27); (L "Fats", JFloat (4 # 10))].

Definition answer_null_calories (_ : str) (_ : Q) (w : NoWorld)
    : json * NoWorld :=
  (null_calories, w).

Ltac inv H := inversion H; subst; clear H.

Ltac all_chars c := destruct c as [[] [] [] [] [] [] [] []].

(** * Properties *)

(** ** String equality *)

Lemma str_eqb_eq (a b : str) : str_eqb a b = true <-> a = b.
Proof.
  unfold str_eqb. destruct (list_eq_dec ascii_dec a b); split; congruence.
Qed.

Lemma str_eqb_refl (a : str) : str_eqb a a = true.
Proof. apply str_eqb_eq. reflexivity. Qed.

Lemma str_eqb_neq (a b : str) : str_eqb a b = false <-> a <> b.
Proof.
  unfold str_eqb. destruct (list_eq_dec ascii_dec a b); split; congruence.
Qed.

(** ** Rounding to the nearest double *)

Module DoubleFacts.

Import Double.

Local Open Scope Q_scope.

Lemma pow2_pos e : 0 < pow2 e.
Proof. apply Qpower_0_lt. reflexivity. Qed.

Lemma pow2_add a b : pow2 (a + b) == pow2 a * pow2 b.
Proof. apply Qpower_plus. discriminate. Qed.

Lemma pow2_le a b : (a <= b)%Z -> pow2 a <= pow2 b.
Proof. intros H. apply Qpower_le_compat_l; [exact H | discriminate]. Qed.

Lemma pow2_lt_inv a b : pow2 a < pow2 b -> (a < b)%Z.
Proof. intros H. eapply Qpower_lt_compat_l_inv; [exact H | reflexivity]. Qed.

Lemma pow2_Z z : (0 <= z)%Z -> pow2 z == inject_Z (2 ^ z).
Proof. intros H. unfold pow2. rewrite Zpower_Qpower by exact H. reflexivity. Qed.

(** [ilog2 x] is the exponent of the leading bit of [x]. *)
Lemma ilog2_spec x : 0 < x -> pow2 (ilog2 x) <= x /\ x < pow2 (ilog2 x + 1).
Proof.
  intros Hx. destruct x as [n d]. unfold ilog2. cbn [Qnum Qden].
  assert (Hn : (0 < n)%Z) by (unfold Qlt in Hx; simpl in Hx; lia).
  set (a := Z.log2 n). set (b := Z.log2 (Z.pos d)).
  assert (Ha : (2 ^ a <= n < 2 ^ (a + 1))%Z).
  { pose proof (Z.log2_spec n Hn) as H. unfold a. rewrite <- Z.add_1_r in H. lia. }
  assert (Hb : (2 ^ b <= Z.pos d < 2 ^ (b + 1))%Z).
  { pose proof (Z.log2_spec (Z.pos d) ltac:(lia)) as H. unfold b.
    rewrite <- Z.add_1_r in H. lia. }
  assert (Ha0 : (0 <= a)%Z) by apply Z.log2_nonneg.
  assert (Hb0 : (0 <= b)%Z) by apply Z.log2_nonneg.
  assert (Hlo : pow2 (a - b - 1) <= n # d).
  { replace (a - b - 1)%Z with (a - (b + 1))%Z by lia.
    unfold pow2. rewrite Qpower_minus by discriminate.
    fold (pow2 a) (pow2 (b + 1)). rewrite !pow2_Z by lia.
    apply Qle_shift_div_r.
    - change 0 with (inject_Z 0). rewrite <- Zlt_Qlt. lia.
    - unfold Qle, Qmult, inject_Z. cbn [Qnum Qden]. nia. }
  assert (Hhi : n # d < pow2 (a - b + 1)).
  { replace (a - b + 1)%Z with (a + 1 - b)%Z by lia.
    unfold pow2. rewrite Qpower_minus by discriminate.
    fold (pow2 (a + 1)) (pow2 b). rewrite !pow2_Z by lia.
    apply Qlt_shift_div_l.
    - change 0 with (inject_Z 0). rewrite <- Zlt_Qlt. lia.
    - unfold Qlt, Qmult, inject_Z. cbn [Qnum Qden]. nia. }
  destruct (Qle_bool (pow2 (a - b)) (n # d)) eqn:E.
  - apply Qle_bool_iff in E. split; [exact E | exact Hhi].
  - split; [exact Hlo|]. replace (a - b - 1 + 1)%Z with (a - b)%Z by lia.
    apply Qnot_le_lt. intros H. apply Qle_bool_iff in H. congruence.
Qed.

Lemma ilog2_mono x y : 0 < x -> x <= y -> (ilog2 x <= ilog2 y)%Z.
Proof.
  intros Hx Hxy.
  destruct (ilog2_spec x Hx) as [L _].
  destruct (ilog2_spec y) as [_ U]; [eapply Qlt_le_trans; eassumption|].
  assert (H : pow2 (ilog2 x) < pow2 (ilog2 y + 1)).
  { eapply Qle_lt_trans; [exact L|]. eapply Qle_lt_trans; eassumption. }
  apply pow2_lt_inv in H. lia.
Qed.

Lemma round_half_even_compat x y : x == y -> round_half_even x = round_half_even y.
Proof.
  intros H. unfold round_half_even. rewrite (Qred_complete _ _ H). reflexivity.
Qed.

Lemma round_half_even_near (x : Q) :
  (Qabs (x - inject_Z (round_half_even x)) <= 1 # 2)%Q.
Proof.
  unfold round_half_even.
  rewrite <- (Qred_correct x) at 1.
  destruct (Qred x) as [n d]. cbn [Qnum Qden].
  pose proof (Z.div_mod n (Z.pos d) ltac:(lia)) as E.
  pose proof (Z.mod_pos_bound n (Z.pos d) ltac:(lia)) as B.
  set (q := (n / Z.pos d)%Z) in *. set (r := (n mod Z.pos d)%Z) in *.
  clearbody q r. apply Qabs_Qle_condition.
  destruct (Z.compare_spec (2 * r) (Z.pos d)) as [C|C|C];
    [destruct (Z.even q)| |];
    unfold Qle, Qminus, Qplus, Qopp, inject_Z; cbn [Qnum Qden];
    rewrite ?Pos.mul_1_r; split; nia.
Qed.

Lemma half_gap (m m' : Z) :
  (m' < m)%Z -> inject_Z m' + (1 # 2) <= inject_Z m - (1 # 2).
Proof.
  intros H. unfold Qle, Qplus, Qminus, Qopp, inject_Z. simpl. lia.
Qed.

Lemma round_half_even_mono x y : x <= y -> (round_half_even x <= round_half_even y)%Z.
Proof.
  intros H. destruct (Z_le_gt_dec (round_half_even x) (round_half_even y)) as [L|G];
    [exact L|exfalso].
  pose proof (round_half_even_near x) as Nx.
  pose proof (round_half_even_near y) as Ny.
  apply Qabs_Qle_condition in Nx. apply Qabs_Qle_condition in Ny.
  destruct Nx as [Nx _]. destruct Ny as [_ Ny].
  set (m := round_half_even x) in *. set (m' := round_half_even y) in *.
  assert (E : x == y).
  { apply Qle_antisym; [exact H|].
    assert (A : y <= inject_Z m' + (1 # 2)).
    { apply Qplus_le_l with (z := - inject_Z m'). 
      setoid_replace (inject_Z m' + (1 # 2) + - inject_Z m') with (1 # 2) by ring.
      exact Ny. }
    assert (B : inject_Z m - (1 # 2) <= x).
    { apply Qplus_le_l with (z := - inject_Z m).
      setoid_replace (inject_Z m - (1 # 2) + - inject_Z m) with (- (1 # 2)) by ring.
      exact Nx. }
    assert (C : inject_Z m' + (1 # 2) <= inject_Z m - (1 # 2)).
    { apply half_gap. unfold m, m'. lia. }
    eapply Qle_trans; [exact A|]. eapply Qle_trans; eassumption. }
  apply round_half_even_compat in E. fold m m' in E. lia.
Qed.

Lemma round_half_even_Z z : round_half_even (inject_Z z) = z.
Proof.
  pose proof (round_half_even_near (inject_Z z)) as H.
  apply Qabs_Qle_condition in H. revert H.
  generalize (round_half_even (inject_Z z)). intros m [H1 H2].
  unfold Qle, Qminus, Qplus, Qopp, inject_Z in H1, H2. simpl in H1, H2. lia.
Qed.

(** Rounding to the nearest double is monotone on the positive numbers. *)
Lemma nearest_mono x y : 0 < x -> x <= y -> nearest x <= nearest y.
Proof.
  intros Hx Hxy. assert (Hy : 0 < y) by (eapply Qlt_le_trans; eassumption).
  pose proof (ilog2_mono x y Hx Hxy) as Hk.
  destruct (ilog2_spec x Hx) as [Lx Ux]. destruct (ilog2_spec y Hy) as [Ly Uy].
  unfold nearest, ulp_exp.
  set (kx := ilog2 x) in *. set (ky := ilog2 y) in *.
  set (ex := Z.max (-1074) (kx - 52)). set (ey := Z.max (-1074) (ky - 52)).
  assert (He : (ex <= ey)%Z) by (unfold ex, ey; lia).
  destruct (Z.eq_dec ex ey) as [E|E].
  - rewrite <- E. apply Qmult_le_compat_r; [|apply Qlt_le_weak, pow2_pos].
    rewrite <- Zle_Qle. apply round_half_even_mono.
    apply Qmult_le_compat_r; [exact Hxy|].
    apply Qlt_le_weak, Qinv_lt_0_compat, pow2_pos.
  - assert (Eey : ey = (ky - 52)%Z) by (unfold ex, ey in *; lia).
    apply Qle_trans with (pow2 ky).
    + (* nearest x <= 2^(ex+53) <= 2^ky *)
      apply Qle_trans with (pow2 (53 + ex)).
      * rewrite pow2_add. apply Qmult_le_compat_r; [|apply Qlt_le_weak, pow2_pos].
        rewrite (pow2_Z 53) by lia. rewrite <- Zle_Qle.
        rewrite <- (round_half_even_Z (2 ^ 53)). apply round_half_even_mono.
        rewrite <- (pow2_Z 53) by lia. apply Qle_shift_div_r; [apply pow2_pos|].
        rewrite <- pow2_add. apply Qlt_le_weak.
        eapply Qlt_le_trans; [exact Ux|]. apply pow2_le. unfold ex. lia.
      * apply pow2_le. lia.
    + (* 2^ky <= nearest y *)
      apply Qle_trans with (pow2 52 * pow2 ey).
      * rewrite <- pow2_add. apply pow2_le. lia.
      * apply Qmult_le_compat_r; [|apply Qlt_le_weak, pow2_pos].
        rewrite (pow2_Z 52) by lia. rewrite <- Zle_Qle.
        rewrite <- (round_half_even_Z (2 ^ 52)) at 1. apply round_half_even_mono.
        rewrite <- (pow2_Z 52) by lia. apply Qle_shift_div_l; [apply pow2_pos|].
        rewrite <- pow2_add. eapply Qle_trans; [|exact Ly]. apply pow2_le. lia.
Qed.

Lemma nearest_nonneg x : 0 <= x -> 0 <= nearest x.
Proof.
  intros H. unfold nearest. apply Qmult_le_0_compat; [|apply Qlt_le_weak, pow2_pos].
  change 0 with (inject_Z 0). rewrite <- Zle_Qle.
  rewrite <- (round_half_even_Z 0) at 1. apply round_half_even_mono.
  apply Qle_shift_div_l; [apply pow2_pos|]. rewrite Qmult_0_l. exact H.
Qed.

Lemma round_compat x y : x == y -> round x = round y.
Proof. intros H. unfold round. rewrite (Qred_complete _ _ H). reflexivity. Qed.

(** The three cases of [round], by the sign of the number. *)
Lemma round_zero x : x == 0 -> round x = 0.
Proof. intros H. rewrite (round_compat _ _ H). reflexivity. Qed.

Lemma round_pos x : 0 < x -> round x == nearest (Qred x) /\ 0 < Qred x.
Proof.
  intros H. unfold round. pose proof (Qred_correct x) as E.
  assert (H' : 0 < Qred x) by (rewrite E; exact H).
  destruct (Qred x) as [n d] eqn:R. cbn [Qnum].
  destruct n as [|p|p]; try (unfold Qlt in H'; simpl in H'; lia).
  split; [apply Qred_correct | exact H'].
Qed.

Lemma round_neg x : x < 0 -> round x == - nearest (- Qred x) /\ 0 < - Qred x.
Proof.
  intros H. unfold round. pose proof (Qred_correct x) as E.
  assert (H' : Qred x < 0) by (rewrite E; exact H).
  destruct (Qred x) as [n d] eqn:R. cbn [Qnum].
  destruct n as [|p|p]; try (unfold Qlt in H'; simpl in H'; lia).
  split; [apply Qred_correct | reflexivity].
Qed.

Lemma round_nonneg x : 0 <= x -> 0 <= round x.
Proof.
  intros H. destruct (Qlt_le_dec 0 x) as [P|N].
  - destruct (round_pos x P) as [E P']. rewrite E.
    apply nearest_nonneg, Qlt_le_weak, P'.
  - rewrite round_zero; [apply Qle_refl | apply Qle_antisym; assumption].
Qed.

Lemma round_nonpos x : x <= 0 -> round x <= 0.
Proof.
  intros H. destruct (Qlt_le_dec x 0) as [N|P].
  - destruct (round_neg x N) as [E N']. rewrite E.
    apply Qopp_le_compat with (p := 0). apply nearest_nonneg, Qlt_le_weak, N'.
  - rewrite round_zero; [apply Qle_refl | apply Qle_antisym; assumption].
Qed.

(** Rounding to the nearest double is monotone. *)
Lemma round_mono x y : x <= y -> round x <= round y.
Proof.
  intros H. destruct (Qlt_le_dec 0 x) as [Px|Nx].
  - assert (Py : 0 < y) by (eapply Qlt_le_trans; eassumption).
    destruct (round_pos x Px) as [Ex Px']. destruct (round_pos y Py) as [Ey Py'].
    rewrite Ex, Ey. apply nearest_mono; [exact Px'|]. rewrite !Qred_correct. exact H.
  - destruct (Qlt_le_dec y 0) as [Ny|Py].
    + assert (Nx' : x < 0) by (apply Qle_lt_trans with y; assumption).
      destruct (round_neg x Nx') as [Ex Px']. destruct (round_neg y Ny) as [Ey Py'].
      rewrite Ex, Ey. apply Qopp_le_compat. apply nearest_mono; [exact Py'|].
      apply Qopp_le_compat. rewrite !Qred_correct. exact H.
    + eapply Qle_trans; [apply round_nonpos, Nx | apply round_nonneg, Py].
Qed.

Lemma round_ge_1 x : 1 <= x -> 1 <= round x.
Proof.
  intros H. change 1 with (round 1) at 1. apply round_mono. exact H.
Qed.

Lemma of_Z_ge_1 z : (1 <= z)%Z -> 1 <= of_Z z.
Proof.
  intros H. apply round_ge_1. change 1 with (inject_Z 1). rewrite <- Zle_Qle.
  exact H.
Qed.

Lemma mul_ge_1 x y : 1 <= x -> 1 <= y -> 1 <= mul x y.
Proof.
  intros Hx Hy. apply round_ge_1.
  setoid_replace 1 with (1 * 1) by ring.
  apply Qle_trans with (x * 1).
  - apply Qmult_le_compat_r; [exact Hx | discriminate].
  - rewrite !(Qmult_comm x). apply Qmult_le_compat_r; [exact Hy|].
    eapply Qle_trans; [|exact Hx]. discriminate.
Qed.

Lemma of_nat_mono m n : (m <= n)%nat -> of_nat m <= of_nat n.
Proof.
  intros H. apply round_mono. rewrite <- Zle_Qle. lia.
Qed.

Lemma of_nat_S n : 1 <= of_nat (S n).
Proof. apply of_Z_ge_1. lia. Qed.

Lemma mul_mono_r c x y : 0 <= c -> x <= y -> mul c x <= mul c y.
Proof.
  intros Hc H. apply round_mono. rewrite !(Qmult_comm c).
  apply Qmult_le_compat_r; assumption.
Qed.

Lemma div_mono_l x y d : 0 < d -> x <= y -> div x d <= div y d.
Proof.
  intros Hd H. apply round_mono. apply Qmult_le_compat_r; [exact H|].
  apply Qlt_le_weak, Qinv_lt_0_compat, Hd.
Qed.

Lemma div_0_l x y : x == 0 -> div x y = 0.
Proof. intros H. apply round_zero. rewrite H. apply Qmult_0_l. Qed.

Lemma mul_0_l x y : x == 0 -> mul x y = 0.
Proof. intros H. apply round_zero. rewrite H. ring. Qed.

Lemma mul_0_r x y : y == 0 -> mul x y = 0.
Proof. intros H. apply round_zero. rewrite H. ring. Qed.

Lemma ulp_exp_bound x :
  0 < x -> pow2 (ulp_exp x - 1) <= x * pow2 (-53) + pow2 (-1075).
Proof.
  intros Hx. destruct (ilog2_spec x Hx) as [L _]. unfold ulp_exp.
  destruct (Z.max_spec (-1074) (ilog2 x - 52)) as [[_ ->]|[_ ->]].
  - replace (ilog2 x - 52 - 1)%Z with (ilog2 x + -53)%Z by lia.
    rewrite pow2_add.
    setoid_replace (pow2 (ilog2 x) * pow2 (-53))
      with (pow2 (ilog2 x) * pow2 (-53) + 0) by ring.
    apply Qplus_le_compat; [|apply Qlt_le_weak, pow2_pos].
    apply Qmult_le_compat_r; [exact L | apply Qlt_le_weak, pow2_pos].
  - setoid_replace (pow2 (-1074 - 1)) with (0 + pow2 (-1075)) by (simpl; ring).
    apply Qplus_le_compat; [|apply Qle_refl].
    apply Qmult_le_0_compat; apply Qlt_le_weak; [exact Hx | apply pow2_pos].
Qed.

Lemma nearest_near x :
  0 < x -> Qabs (nearest x - x) <= x * pow2 (-53) + pow2 (-1075).
Proof.
  intros Hx. eapply Qle_trans; [|apply ulp_exp_bound, Hx].
  unfold nearest. set (e := ulp_exp x).
  pose proof (round_half_even_near (x / pow2 e)) as H.
  set (m := inject_Z (round_half_even (x / pow2 e))) in *.
  assert (P : 0 < pow2 e) by apply pow2_pos.
  assert (E : m * pow2 e - x == - (x / pow2 e - m) * pow2 e).
  { field. intros Z. rewrite Z in P. discriminate P. }
  rewrite E, Qabs_Qmult, Qabs_opp, (Qabs_pos (pow2 e)) by (apply Qlt_le_weak, P).
  replace (e - 1)%Z with (-1 + e)%Z by lia. rewrite pow2_add.
  apply Qmult_le_compat_r; [exact H | apply Qlt_le_weak, P].
Qed.

(** The error of a rounding, relative to the number rounded. *)
Lemma round_near x :
  Qabs (round x - x) <= Qabs x * pow2 (-53) + pow2 (-1075).
Proof.
  assert (Exy : x == Qred x) by (symmetry; apply Qred_correct).
  destruct (Q_dec x 0) as [[N|P]|Z].
  - destruct (round_neg x N) as [E N']. rewrite E.
    pose proof (nearest_near _ N') as H. revert Exy H.
    generalize (Qred x). intros y Exy H. rewrite Exy.
    assert (Ny : y <= 0) by (rewrite <- Exy; apply Qlt_le_weak, N).
    rewrite (Qabs_neg y Ny).
    setoid_replace (- nearest (- y) - y) with (- (nearest (- y) - - y)) by ring.
    rewrite Qabs_opp. exact H.
  - destruct (round_pos x P) as [E P']. rewrite E.
    pose proof (nearest_near _ P') as H. revert Exy H.
    generalize (Qred x). intros y Exy H. rewrite Exy.
    assert (Py : 0 <= y) by (rewrite <- Exy; apply Qlt_le_weak, P).
    rewrite (Qabs_pos y Py). exact H.
  - rewrite (round_zero x Z), Z. vm_compute. discriminate.
Qed.

Lemma round_near_bound x B :
  Qabs x <= B -> Qabs (round x - x) <= B * pow2 (-53) + pow2 (-1075).
Proof.
  intros H. eapply Qle_trans; [apply round_near|].
  apply Qplus_le_compat; [|apply Qle_refl].
  apply Qmult_le_compat_r; [exact H | apply Qlt_le_weak, pow2_pos].
Qed.

End DoubleFacts.

(** ** The scan of [finditer] *)

Module ReFacts.

Lemma scan_ordered (ci : bool) (r : regex) (s : str) :
  forall skip pv at_,
    Forall (fun m => at_ + skip <= m_start m /\ m_start m < m_end m)
      (scan ci r skip pv at_ s)
    /\ StronglySorted before (scan ci r skip pv at_ s).
Proof.
  induction s as [|c s IH]; intros skip pv at_; simpl.
  - split; constructor.
  - destruct skip as [|n].
    + destruct (match_at ci r pv (c :: s)) as [st|].
      * destruct (pos st) as [|n].
        -- destruct (IH 0 (Some c) (S at_)) as [F S0]. split; [|exact S0].
           eapply Forall_impl; [|exact F]. simpl. intros m Hm. lia.
        -- destruct (IH n (Some c) (S at_)) as [F S0]. split.
           ++ constructor; [simpl; lia|].
              eapply Forall_impl; [|exact F]. simpl. intros m Hm. lia.
           ++ constructor; [exact S0|].
              eapply Forall_impl; [|exact F]. unfold before. simpl.
              intros m Hm. lia.
      * destruct (IH 0 (Some c) (S at_)) as [F S0]. split; [|exact S0].
        eapply Forall_impl; [|exact F]. simpl. intros m Hm. lia.
    + destruct (IH n (Some c) (S at_)) as [F S0]. split; [|exact S0].
      eapply Forall_impl; [|exact F]. simpl. intros m Hm. lia.
Qed.

Lemma finditer_ordered (ci : bool) (r : regex) (s : str) :
  StronglySorted before (finditer ci r s).
Proof. apply scan_ordered. Qed.

(** Every match reported by the scan is a successful attempt of the matcher
    on some suffix of the text. *)
Lemma scan_attempt (ci : bool) (r : regex) (s : str) :
  forall skip pv at_ m,
    In m (scan ci r skip pv at_ s) ->
    exists pv' s' st,
      match_at ci r pv' s' = Some st /\ m_caps m = caps st
      /\ m_end m = m_start m + pos st.
Proof.
  induction s as [|c s IH]; intros skip pv at_ m; simpl; [tauto|].
  destruct skip as [|n]; [|apply IH].
  destruct (match_at ci r pv (c :: s)) as [st|] eqn:E; [|apply IH].
  destruct (pos st) as [|n] eqn:P; [apply IH|].
  intros [<-|H]; [|eapply IH; exact H].
  exists pv, (c :: s), st. simpl. rewrite P. auto.
Qed.

Lemma finditer_attempt (ci : bool) (r : regex) (s : str) (m : rematch) :
  In m (finditer ci r s) ->
  exists pv' s' st,
    match_at ci r pv' s' = Some st /\ m_caps m = caps st
    /\ m_end m = m_start m + pos st.
Proof. apply scan_attempt. Qed.

Lemma scan_none (p : ascii -> bool) (ci : bool) (r : regex) (s : str) :
  starts_with p ci r ->
  forallb (fun c => negb (p c)) s = true ->
  forall pv at_, scan ci r 0 pv at_ s = [].
Proof.
  intros Hr. induction s as [|c s IH]; intros Hs pv at_; simpl; [reflexivity|].
  simpl in Hs. apply andb_prop in Hs. destruct Hs as [Hc Hs].
  rewrite Hr by (destruct (p c); simpl in Hc; congruence).
  apply IH. exact Hs.
Qed.

End ReFacts.

(** ** What a successful attempt consumed and captured *)

Module ReSound.

(** The consumed word is a prefix of the text and the cursor moves by its
    length. *)
Lemma matches_consumed ci r st w st' :
  matches ci r st w st' ->
  rest st = w ++ rest st' /\ pos st' = pos st + List.length w.
Proof.
  induction 1; simpl in *;
    repeat match goal with H : _ /\ _ |- _ => destruct H end;
    rewrite ?length_app; (split; [|lia]);
    try congruence; try reflexivity.
  rewrite <- app_assoc. congruence.
Qed.

Lemma star_cls_sound ci p k :
  forall s pv i cs res,
    star_cls p k pv s i cs = Some res ->
    exists w st', matches ci (Star p) (MState pv s i cs) w st'
                  /\ k st' = Some res.
Proof.
  induction s as [|c s IH]; intros pv i cs res; simpl.
  - intros H. exists [], (MState pv [] i cs). split; [constructor | exact H].
  - destruct (p c) eqn:Hp.
    + destruct (star_cls p k (Some c) s (S i) cs) as [r|] eqn:E.
      * intros H. inversion H; subst r. clear H.
        destruct (IH _ _ _ _ E) as (w & st' & Hm & Hk).
        exists (c :: w), st'. split; [|exact Hk].
        eapply M_star_cons with (s' := s); [reflexivity | exact Hp | exact Hm].
      * intros H. exists [], (MState pv (c :: s) i cs).
        split; [constructor | exact H].
    + intros H. exists [], (MState pv (c :: s) i cs).
      split; [constructor | exact H].
Qed.

Lemma rmatch_sound ci r :
  forall k st res,
    rmatch ci r k st = Some res ->
    exists w st', matches ci r st w st' /\ k st' = Some res.
Proof.
  induction r as [c|p|r1 IH1 r2 IH2|r1 IH1 r2 IH2|r1 IH1|p|p| |n r1 IH1];
    intros k st res; simpl.
  - destruct (rest st) as [|x s'] eqn:Hr; [discriminate|].
    destruct (chr_eq ci c x) eqn:Hc; [|discriminate].
    intros H. exists [x], (advance st x s'). split; [|exact H].
    constructor; assumption.
  - destruct (rest st) as [|x s'] eqn:Hr; [discriminate|].
    destruct (p x) eqn:Hc; [|discriminate].
    intros H. exists [x], (advance st x s'). split; [|exact H].
    constructor; assumption.
  - intros H. destruct (IH1 _ _ _ H) as (w1 & st2 & H1 & H').
    destruct (IH2 _ _ _ H') as (w2 & st3 & H2 & Hk).
    exists (w1 ++ w2), st3. split; [|exact Hk]. econstructor; eassumption.
  - destruct (rmatch ci r1 k st) as [r|] eqn:E.
    + intros H. inversion H; subst r.
      destruct (IH1 _ _ _ E) as (w & st' & Hm & Hk).
      exists w, st'. split; [apply M_alt_l; exact Hm | exact Hk].
    + intros H. destruct (IH2 _ _ _ H) as (w & st' & Hm & Hk).
      exists w, st'. split; [apply M_alt_r; exact Hm | exact Hk].
  - destruct (rmatch ci r1 k st) as [r|] eqn:E.
    + intros H. inversion H; subst r.
      destruct (IH1 _ _ _ E) as (w & st' & Hm & Hk).
      exists w, st'. split; [apply M_opt_some; exact Hm | exact Hk].
    + intros H. exists [], st. split; [apply M_opt_none | exact H].
  - unfold star. intros H.
    destruct (star_cls_sound ci p k _ _ _ _ _ H) as (w & st' & Hm & Hk).
    exists w, st'. split; [|exact Hk]. destruct st; exact Hm.
  - destruct (rest st) as [|x s'] eqn:Hr; [discriminate|].
    destruct (p x) eqn:Hc; [|discriminate].
    unfold star. intros H.
    destruct (star_cls_sound ci p k _ _ _ _ _ H) as (w & st' & Hm & Hk).
    exists (x :: w), st'. split; [|exact Hk].
    eapply M_plus; [exact Hr | exact Hc | exact Hm].
  - destruct (at_boundary st) eqn:Hb; [|discriminate].
    intros H. exists [], st. split; [constructor; exact Hb | exact H].
  - intros H. destruct (IH1 _ _ _ H) as (w & st' & Hm & Hk).
    destruct (matches_consumed _ _ _ _ _ Hm) as [Hrest Hpos].
    replace (firstn (pos st' - pos st) (rest st)) with w in Hk.
    + exists w, (set_cap n w st'). split; [constructor; exact Hm | exact Hk].
    + rewrite Hrest, Hpos.
      replace (pos st + List.length w - pos st) with (List.length w + 0) by lia.
      rewrite firstn_app_2. simpl. rewrite app_nil_r. reflexivity.
Qed.

Lemma match_at_sound ci r pv s st :
  match_at ci r pv s = Some st ->
  exists w, matches ci r (MState pv s 0 []) w st.
Proof.
  unfold match_at. intros H.
  destruct (rmatch_sound ci r _ _ _ H) as (w & st' & Hm & Hk).
  inversion Hk; subst st'. exists w. exact Hm.
Qed.

(** Classes preserve the captures; a literal consumes itself. *)
Lemma star_caps ci p st w st' :
  matches ci (Star p) st w st' -> caps st' = caps st /\ Forall (fun c => p c = true) w.
Proof.
  remember (Star p) as r eqn:E. induction 1; inversion E; subst.
  - split; [reflexivity | constructor].
  - destruct (IHmatches eq_refl) as [Hc Hw]. split; [exact Hc|].
    constructor; assumption.
Qed.

Lemma plus_caps ci p st w st' :
  matches ci (Plus p) st w st' ->
  caps st' = caps st /\ Forall (fun c => p c = true) w /\ w <> [].
Proof.
  inversion 1; subst.
  match goal with H : matches _ (Star _) _ _ _ |- _ =>
    destruct (star_caps _ _ _ _ _ H) as [Hc Hw] end.
  split; [exact Hc|]. split; [constructor; assumption | discriminate].
Qed.

Lemma lit_word (s : str) : s <> [] ->
  forall st w st', matches false (Lit s) st w st' -> w = s /\ caps st' = caps st.
Proof.
  induction s as [|c s IH]; [congruence|]. intros _ st w st' H.
  destruct s as [|d s].
  - simpl in H. inversion H; subst. simpl in *.
    match goal with H : Ascii.eqb _ _ = true |- _ => apply Ascii.eqb_eq in H; subst end.
    split; reflexivity.
  - change (Lit (c :: d :: s)) with (Seq (Chr c) (Lit (d :: s))) in H.
    inversion H as [| |r1 r2 st1 w1 st2 w2 st3 Hc Hl| | | | | | | | |]; subst.
    inversion Hc; subst. unfold chr_eq in *.
    match goal with H : Ascii.eqb _ _ = true |- _ =>
      apply Ascii.eqb_eq in H; subst end.
    destruct (IH ltac:(discriminate) _ _ _ Hl) as [-> Hcaps].
    split; [reflexivity | exact Hcaps].
Qed.

End ReSound.

(** ** The three patterns of the grammar *)

Module Grammar.

Import ReSound.

Lemma phrase_shape n st w st' :
  matches false (re_phrase n) st w st' ->
  caps st' = (n, w) :: caps st /\ w <> []
  /\ Forall (fun c => alpha_or_space c = true) w.
Proof.
  unfold re_phrase. intros H. inv H.
  match goal with H : matches _ (Seq _ _) _ _ _ |- _ => inv H end.
  match goal with H : matches _ (Cls _) _ _ _ |- _ => inv H end.
  match goal with H : matches _ (Star _) _ _ _ |- _ =>
    destruct (star_caps _ _ _ _ _ H) as [Hc Hw] end.
  simpl in *. split; [rewrite Hc; reflexivity|]. split; [discriminate|].
  constructor; [|exact Hw]. unfold alpha_or_space.
  match goal with H : Char.is_alpha _ = true |- _ => rewrite H end.
  reflexivity.
Qed.

Lemma alt_inv ci r1 r2 st w st' :
  matches ci (Alt r1 r2) st w st' ->
  matches ci r1 st w st' \/ matches ci r2 st w st'.
Proof. inversion 1; auto. Qed.

(** A match of pattern 1 captures a digit run and a phrase. *)
Lemma grams_shape pv s st :
  match_at false re_grams pv s = Some st ->
  exists w1 w2,
    caps st = [(2, w2); (1, w1)] /\ is_digits w1 /\ w2 <> [] /\ 0 < pos st.
Proof.
  intros H. apply match_at_sound in H. destruct H as [w H].
  destruct (matches_consumed _ _ _ _ _ H) as [_ Hpos]. simpl in Hpos.
  unfold re_grams in H. inv H.
  match goal with H : matches _ (Grp 1 _) _ _ _ |- _ => inv H end.
  match goal with H : matches _ (Plus _) _ _ _ |- _ =>
    destruct (plus_caps _ _ _ _ _ H) as (Hc1 & Hd & Hn) end.
  match goal with H : matches _ (Seq (Star _) _) _ _ _ |- _ => inv H end.
  match goal with H : matches _ (Star _) _ _ _ |- _ =>
    destruct (star_caps _ _ _ _ _ H) as [Hc2 _] end.
  match goal with H : matches _ (Seq (Chr _) _) _ _ _ |- _ => inv H end.
  match goal with H : matches _ (Chr _) _ _ _ |- _ => inv H end.
  match goal with H : matches _ (Seq (Star _) _) _ _ _ |- _ => inv H end.
  match goal with H : matches _ (Star _) _ _ _ |- _ =>
    destruct (star_caps _ _ _ _ _ H) as [Hc3 _] end.
  match goal with H : matches _ (re_phrase _) _ _ _ |- _ =>
    destruct (phrase_shape _ _ _ _ H) as (Hc4 & Hn2 & _) end.
  simpl in *. eexists _, _. split.
  - rewrite Hc4, Hc3. simpl. rewrite Hc2. simpl. rewrite Hc1. reflexivity.
  - split; [split; assumption|]. split; [assumption|].
    rewrite Hpos. rewrite length_app.
    match goal with H : ?w <> [] |- 0 < List.length ?w + _ =>
      destruct w; [congruence | simpl; lia] end.
Qed.

(** A match of pattern 2 captures a digit run and a phrase. *)
Lemma count_shape pv s st :
  match_at false re_count pv s = Some st ->
  exists w1 w2,
    caps st = [(2, w2); (1, w1)] /\ is_digits w1 /\ w2 <> [] /\ 0 < pos st.
Proof.
  intros H. apply match_at_sound in H. destruct H as [w H].
  destruct (matches_consumed _ _ _ _ _ H) as [_ Hpos]. simpl in Hpos.
  unfold re_count in H. inv H.
  match goal with H : matches _ (Grp 1 _) _ _ _ |- _ => inv H end.
  match goal with H : matches _ (Plus Char.is_digit) _ _ _ |- _ =>
    destruct (plus_caps _ _ _ _ _ H) as (Hc1 & Hd & Hn) end.
  match goal with H : matches _ (Seq (Plus _) _) _ _ _ |- _ => inv H end.
  match goal with H : matches _ (Plus Char.is_space) _ _ _ |- _ =>
    destruct (plus_caps _ _ _ _ _ H) as (Hc2 & _ & _) end.
  match goal with H : matches _ (re_phrase _) _ _ _ |- _ =>
    destruct (phrase_shape _ _ _ _ H) as (Hc4 & Hn2 & _) end.
  simpl in *. eexists _, _. split.
  - rewrite Hc4, Hc2. simpl. rewrite Hc1. reflexivity.
  - split; [split; assumption|]. split; [assumption|].
    rewrite Hpos. rewrite length_app.
    match goal with H : ?w <> [] |- 0 < List.length ?w + _ =>
      destruct w; [congruence | simpl; lia] end.
Qed.

(** A match of pattern 3 captures a digit run, one of the four unit words
    and a run of letters and whitespace. *)
Lemma unit_shape pv s st :
  match_at false re_unit pv s = Some st ->
  exists w1 w2 w3,
    caps st = [(3, w3); (2, w2); (1, w1)] /\ is_digits w1 /\ In w2 units
    /\ 0 < pos st.
Proof.
  intros H. apply match_at_sound in H. destruct H as [w H].
  destruct (matches_consumed _ _ _ _ _ H) as [_ Hpos]. simpl in Hpos.
  unfold re_unit in H. inv H.
  match goal with H : matches _ (Grp 1 _) _ _ _ |- _ => inv H end.
  match goal with H : matches _ (Plus Char.is_digit) _ _ _ |- _ =>
    destruct (plus_caps _ _ _ _ _ H) as (Hc1 & Hd & Hn) end.
  match goal with H : matches _ (Seq (Star _) _) _ _ _ |- _ => inv H end.
  match goal with H : matches _ (Star _) _ _ _ |- _ =>
    destruct (star_caps _ _ _ _ _ H) as [Hc2 _] end.
  match goal with H : matches _ (Seq (Grp 2 _) _) _ _ _ |- _ => inv H end.
  match goal with H : matches _ (Seq (Plus _) _) _ _ _ |- _ => inv H end.
  match goal with H : matches _ (Plus Char.is_space) _ _ _ |- _ =>
    destruct (plus_caps _ _ _ _ _ H) as (Hc4 & _ & _) end.
  match goal with H : matches _ (Grp 3 _) _ _ _ |- _ => inv H end.
  match goal with H : matches _ (Plus alpha_or_space) _ _ _ |- _ =>
    destruct (plus_caps _ _ _ _ _ H) as (Hc5 & _ & _) end.
  match goal with H : matches _ (Grp 2 _) _ _ _ |- _ => inv H end.
  assert (Hu : forall st w st',
             matches false
               (Alt (Lit (L "tbsp")) (Alt (Lit (L "tsp"))
                  (Alt (Lit (L "tablespoon")) (Lit (L "teaspoon")))))
               st w st' -> In w units /\ caps st' = caps st).
  { clear. intros st w st' H. unfold units.
    repeat (apply alt_inv in H; destruct H as [H|H]);
      (apply lit_word in H; [destruct H as [-> Hc] | discriminate]);
      (split; [simpl; tauto | exact Hc]). }
  match goal with H : matches _ (Alt _ _) _ _ _ |- _ =>
    destruct (Hu _ _ _ H) as [Hin Hc3] end.
  simpl in *. eexists _, _, _. split.
  - rewrite Hc5, Hc4. simpl. rewrite Hc3, Hc2. simpl. rewrite Hc1. reflexivity.
  - split; [split; assumption|]. split; [assumption|].
    rewrite Hpos. rewrite length_app.
    match goal with H : ?w <> [] |- 0 < List.length ?w + _ =>
      destruct w; [congruence | simpl; lia] end.
Qed.

(** The groups of the matches that [finditer] reports. *)
Lemma finditer_unit_groups text m :
  In m (finditer false re_unit text) ->
  is_digits (group m 1) /\ In (group m 2) units.
Proof.
  intros H. apply ReFacts.finditer_attempt in H.
  destruct H as (pv & s & st & Hm & Hc & _).
  apply unit_shape in Hm. destruct Hm as (w1 & w2 & w3 & Hcaps & Hd & Hu & _).
  unfold group. rewrite Hc, Hcaps. simpl. auto.
Qed.

End Grammar.

(** ** The deduplicator *)

Module Dedup.

Lemma str_in_In (x : str) (xs : list str) : str_in x xs = true <-> In x xs.
Proof.
  unfold str_in. rewrite existsb_exists. split.
  - intros (y & Hy & E). apply str_eqb_eq in E. subst. exact Hy.
  - intros H. exists x. split; [exact H | apply str_eqb_refl].
Qed.

Lemma str_in_not (x : str) (xs : list str) : str_in x xs = false <-> ~ In x xs.
Proof.
  rewrite <- str_in_In. destruct (str_in x xs); split; congruence.
Qed.

Lemma subseq_refl {A} (l : list A) : subseq l l.
Proof. induction l; constructor; assumption. Qed.

Lemma subseq_nil_l {A} (l : list A) : subseq [] l.
Proof. induction l; constructor; assumption. Qed.

Lemma subseq_app {A} (l1 l1' l2 l2' : list A) :
  subseq l1 l1' -> subseq l2 l2' -> subseq (l1 ++ l2) (l1' ++ l2').
Proof.
  intros H1 H2. induction H1; simpl.
  - exact H2.
  - apply sub_skip. exact IHsubseq.
  - apply sub_take. exact IHsubseq.
Qed.

Lemma subseq_map {A B} (f : A -> B) (l1 l2 : list A) :
  subseq l1 l2 -> subseq (map f l1) (map f l2).
Proof. induction 1; simpl; constructor; assumption. Qed.

Lemma subseq_In {A} (l1 l2 : list A) x : subseq l1 l2 -> In x l1 -> In x l2.
Proof. induction 1; simpl; intuition. Qed.

Lemma dedup_subseq items : forall seen, subseq (dedup seen items) items.
Proof.
  induction items as [|it items IH]; intros seen; simpl; [constructor|].
  destruct (List.length (Str.strip (food it)) <? 2); [constructor; apply IH|].
  destruct (str_in (Str.strip (food it)) seen); constructor; apply IH.
Qed.

Lemma dedup_incl items seen it : In it (dedup seen items) -> In it items.
Proof. apply subseq_In, dedup_subseq. Qed.

Lemma dedup_fresh items :
  forall seen it, In it (dedup seen items) ->
    ~ In (key it) seen /\ 2 <= List.length (key it).
Proof.
  induction items as [|x items IH]; intros seen it; simpl; [tauto|].
  fold (key x).
  destruct (List.length (key x) <? 2) eqn:El; [apply IH|].
  destruct (str_in (key x) seen) eqn:Es; [apply IH|].
  intros [<-|H].
  - apply str_in_not in Es. apply Nat.ltb_ge in El. auto.
  - destruct (IH _ _ H) as [Hn Hl]. split; [|exact Hl].
    intros Hs. apply Hn. right. exact Hs.
Qed.

Lemma dedup_nodup items : forall seen, NoDup (map key (dedup seen items)).
Proof.
  induction items as [|x items IH]; intros seen; simpl; [constructor|].
  fold (key x).
  destruct (List.length (key x) <? 2); [apply IH|].
  destruct (str_in (key x) seen); [apply IH|].
  simpl. constructor; [|apply IH].
  intros H. apply in_map_iff in H. destruct H as (y & E & Hy).
  apply dedup_fresh in Hy. destruct Hy as [Hy _]. apply Hy. left.
  symmetry. exact E.
Qed.

(** First occurrence wins: an emitted item stands in the candidate list
    before every other candidate with its key. *)
Lemma dedup_first items :
  forall seen it, In it (dedup seen items) ->
    exists l1 l2, items = l1 ++ it :: l2
                  /\ forall x, In x l1 -> key x <> key it.
Proof.
  induction items as [|x items IH]; intros seen it; simpl; [tauto|].
  fold (key x).
  destruct (List.length (key x) <? 2) eqn:El.
  - intros H. destruct (dedup_fresh _ _ _ H) as [_ Hl].
    destruct (IH _ _ H) as (l1 & l2 & -> & Hk).
    exists (x :: l1), l2. split; [reflexivity|].
    intros y [<-|Hy]; [|apply Hk; exact Hy].
    apply Nat.ltb_lt in El. intros E. rewrite E in El. lia.
  - destruct (str_in (key x) seen) eqn:Es.
    + intros H. destruct (dedup_fresh _ _ _ H) as [Hn _].
      destruct (IH _ _ H) as (l1 & l2 & -> & Hk).
      exists (x :: l1), l2. split; [reflexivity|].
      intros y [<-|Hy]; [|apply Hk; exact Hy].
      apply str_in_In in Es. intros E. rewrite E in Es. contradiction.
    + intros [<-|H].
      * exists [], items. split; [reflexivity|]. simpl. tauto.
      * destruct (dedup_fresh _ _ _ H) as [Hn _].
        destruct (IH _ _ H) as (l1 & l2 & -> & Hk).
        exists (x :: l1), l2. split; [reflexivity|].
        intros y [<-|Hy]; [|apply Hk; exact Hy].
        intros E. apply Hn. left. exact E.
Qed.

(** No key is lost: every candidate with a key of two characters or more
    that is not yet in [seen] is represented in the output. *)
Lemma dedup_complete items :
  forall seen x, In x items -> 2 <= List.length (key x) -> ~ In (key x) seen ->
    exists it, In it (dedup seen items) /\ key it = key x.
Proof.
  induction items as [|y items IH]; intros seen x; simpl; [tauto|].
  fold (key y). intros Hin Hl Hs.
  destruct (List.length (key y) <? 2) eqn:El.
  - destruct Hin as [->|Hin]; [apply Nat.ltb_lt in El; lia|].
    apply IH; assumption.
  - destruct (str_in (key y) seen) eqn:Es.
    + destruct Hin as [->|Hin]; [apply str_in_In in Es; contradiction|].
      apply IH; assumption.
    + destruct (list_eq_dec ascii_dec (key y) (key x)) as [E|N].
      * exists y. split; [left; reflexivity | exact E].
      * destruct Hin as [->|Hin]; [congruence|].
        destruct (IH (key y :: seen) x Hin Hl) as (it & Hit & Hk).
        -- intros [E|H]; [congruence | contradiction].
        -- exists it. split; [right; exact Hit | exact Hk].
Qed.

End Dedup.

(** ** The mentions emitted by [parse_food_text] *)

Module Mentions.

Import Dedup Grammar.

Lemma potential_origin text it :
  In it (potential_items text) -> exists m, origin text it m.
Proof.
  unfold potential_items. rewrite !in_app_iff, !in_flat_map.
  intros [(m & Hm & Hi)|[(m & Hm & Hi)|(m & Hm & Hi)]]; exists m;
    [apply from_grams | apply from_count | apply from_unit]; assumption.
Qed.

Lemma parse_origin text it :
  In it (parse_food_text text) -> exists m, origin text it m.
Proof. intros H. apply potential_origin. eapply dedup_incl. exact H. Qed.

Lemma digit_value_nonneg c : (0 <= digit_value c)%Z.
Proof. unfold digit_value. lia. Qed.

Lemma int_of_digits_nonneg s : (0 <= int_of_digits s)%Z.
Proof.
  unfold int_of_digits.
  assert (G : forall acc, (0 <= acc)%Z ->
            (0 <= fold_left (fun a c => 10 * a + digit_value c) s acc)%Z).
  { induction s as [|c s IH]; intros acc Ha; cbn [fold_left]; [exact Ha|].
    apply IH. pose proof (digit_value_nonneg c). lia. }
  apply G. lia.
Qed.

Lemma dict_get_pos (d : list (str * Z)) (k : str) (default : Z) :
  Forall (fun kv => (0 < snd kv)%Z) d -> (0 < default)%Z ->
  (0 < dict_get d k default)%Z.
Proof.
  intros Hd Hdef. induction Hd as [|[k' v] d Hv Hd IH]; simpl; [exact Hdef|].
  destruct (str_eqb k k'); [exact Hv | exact IH].
Qed.

Lemma standard_servings_pos k : (0 < dict_get standard_servings k 100)%Z.
Proof.
  apply dict_get_pos; [|lia].
  unfold standard_servings. repeat constructor.
Qed.

(** A number read from a digit run is zero or at least one, and so is its
    product with a positive integer. *)
Lemma float_of_digits_cases s :
  (float_of_digits s = 0%Q /\ int_of_digits s = 0%Z)
  \/ ((1 <= float_of_digits s)%Q /\ int_of_digits s <> 0%Z).
Proof.
  pose proof (int_of_digits_nonneg s) as H. unfold float_of_digits.
  destruct (Z.eq_dec (int_of_digits s) 0) as [E|E].
  - left. rewrite E. split; reflexivity.
  - right. split; [apply DoubleFacts.of_Z_ge_1; lia | exact E].
Qed.

Lemma sign_of_cases (q : Q) (n : Z) :
  (q = 0%Q /\ n = 0%Z) \/ ((1 <= q)%Q /\ n <> 0%Z) ->
  (0 <= q)%Q /\ ((0 < q)%Q <-> n <> 0%Z).
Proof.
  intros [[-> ->]|[H1 Hn]].
  - split; [apply Qle_refl|]. split; [intros H; discriminate H | congruence].
  - assert (P : (0 < q)%Q) by (eapply Qlt_le_trans; [|exact H1]; reflexivity).
    split; [apply Qlt_le_weak, P|]. split; auto.
Qed.

(** The serving of a candidate, by the shape of its mention. *)
Lemma origin_serving text it m :
  origin text it m ->
  (0 <= serving it)%Q
  /\ ((0 < serving it)%Q <-> int_of_digits (group m 1) <> 0%Z).
Proof.
  pose proof (float_of_digits_cases (group m 1)) as Hq.
  intros [_ Hi|_ Hi|_ Hi].
  - unfold item_of_grams in Hi.
    destruct (clean_food_name (group m 2)); [contradiction|].
    destruct Hi as [<-|[]]. cbn [serving]. apply sign_of_cases. exact Hq.
  - unfold item_of_count in Hi.
    destruct (clean_food_name (group m 2)) as [|c w] eqn:E; [contradiction|].
    destruct Hi as [<-|[]]. cbn [serving]. apply sign_of_cases.
    destruct Hq as [[Hq Hn]|[Hq Hn]].
    + left. split; [|exact Hn]. apply DoubleFacts.mul_0_r. rewrite Hq. reflexivity.
    + right. split; [|exact Hn]. apply DoubleFacts.mul_ge_1; [|exact Hq].
      apply DoubleFacts.of_Z_ge_1.
      pose proof (standard_servings_pos (Str.lower (c :: w))). lia.
  - unfold item_of_unit in Hi.
    destruct (clean_food_name (group m 3)) as [|c w] eqn:E; [contradiction|].
    destruct Hi as [<-|[]]. cbn [serving]. apply sign_of_cases.
    destruct Hq as [[Hq Hn]|[Hq Hn]].
    + left. split; [|exact Hn]. apply DoubleFacts.mul_0_l. rewrite Hq. reflexivity.
    + right. split; [|exact Hn]. apply DoubleFacts.mul_ge_1; [exact Hq|].
      apply DoubleFacts.of_Z_ge_1.
      match goal with |- context [if ?b then _ else _] => destruct b end; lia.
Qed.

End Mentions.

(** ** Claims on the parser *)

Module ParserClaims.

Import Dedup Grammar Mentions.

(** C4, as stated, fails: a zero numeral gives a mention whose serving is
    zero.  [parse_food_text("0g rice")] holds one item, Rice, of 0 grams. *)
Lemma C4_zero_serving :
  parse_food_text (L "0g rice") = [Item (L "Rice") 0 (L "g") None]
  /\ ~ (forall it, In it (parse_food_text (L "0g rice")) ->
          (0 < serving it)%Q).
Proof.
  assert (E : parse_food_text (L "0g rice") = [Item (L "Rice") 0 (L "g") None])
    by (vm_compute; reflexivity).
  split; [exact E|]. intros H.
  specialize (H (Item (L "Rice") 0 (L "g") None)).
  rewrite E in H. specialize (H (or_introl eq_refl)).
  simpl in H. revert H. apply Qlt_irrefl.
Qed.

(** C4, amended: every mention emitted by [parse_food_text] has a serving
    that is not negative, and the serving is strictly positive exactly when
    the numeral of the mention (group 1 of the match it comes from, under
    any of the three patterns) is not zero. *)
Theorem C4_serving_sign (text : str) (it : item) :
  In it (parse_food_text text) ->
  (0 <= serving it)%Q
  /\ exists m, origin text it m
       /\ ((0 < serving it)%Q <-> int_of_digits (group m 1) <> 0%Z).
Proof.
  intros H. destruct (parse_origin _ _ H) as [m Hm].
  destruct (origin_serving _ _ _ Hm) as [Hn Hp].
  split; [exact Hn|]. exists m. split; [exact Hm | exact Hp].
Qed.

Lemma C4_serving_sign_witness :
  In bananas_240 (parse_food_text (L "2 bananas"))
  /\ ((0 <= serving bananas_240)%Q
      /\ exists m, origin (L "2 bananas") bananas_240 m
           /\ ((0 < serving bananas_240)%Q
               <-> int_of_digits (group m 1) <> 0%Z)).
Proof.
  assert (H : In bananas_240 (parse_food_text (L "2 bananas")))
    by (vm_compute; left; reflexivity).
  split; [exact H|]. exact (C4_serving_sign (L "2 bananas") bananas_240 H).
Defined.

(** C7, as stated, fails for the long unit words: the display name carries
    a tag only when the text used [tbsp] or [tsp].
    [parse_food_text("2 tablespoon oil")] holds the unit-qualified item
    named Oil, not Oil (tbsp). *)
Lemma C7_long_form_untagged :
  parse_food_text (L "2 tablespoon oil")
  = [Item (L "Tablespoon Oil") 28 (L "pieces") (Some 2%Q);
     Item (L "Oil") 28 (L "tablespoon") (Some 2%Q)]
  /\ exists it, In it (parse_food_text (L "2 tablespoon oil"))
       /\ unit it = L "tablespoon"
       /\ food it <> clean_food_name (L "oil") ++ L " (tbsp)".
Proof.
  assert (E : parse_food_text (L "2 tablespoon oil")
              = [Item (L "Tablespoon Oil") 28 (L "pieces") (Some 2%Q);
                 Item (L "Oil") 28 (L "tablespoon") (Some 2%Q)])
    by (vm_compute; reflexivity).
  split; [exact E|].
  exists (Item (L "Oil") 28 (L "tablespoon") (Some 2%Q)). rewrite E.
  split; [right; left; reflexivity|]. split; [reflexivity|].
  vm_compute. discriminate.
Qed.

(** C7, amended: every emitted mention whose unit is one of tbsp, tsp,
    tablespoon, teaspoon comes from a match of pattern 3; its serving is the
    quantity times 14 for tbsp and tablespoon and times 5 for tsp and
    teaspoon; its name is the normalised name followed by the unit in
    parentheses when the text used the short form tbsp or tsp, and the
    normalised name alone when it used tablespoon or teaspoon. *)
Theorem C7_unit_conversion (text : str) (it : item) :
  In it (parse_food_text text) ->
  In (unit it) units ->
  exists m,
    In m (finditer false re_unit (Str.lower text))
    /\ unit it = group m 2
    /\ quantity it = Some (float_of_digits (group m 1))
    /\ ((unit it = L "tbsp" \/ unit it = L "tablespoon") ->
        serving it = Double.mul (float_of_digits (group m 1)) 14)
    /\ ((unit it = L "tsp" \/ unit it = L "teaspoon") ->
        serving it = Double.mul (float_of_digits (group m 1)) 5)
    /\ ((unit it = L "tbsp" \/ unit it = L "tsp") ->
        food it = clean_food_name (group m 3) ++ L " (" ++ unit it ++ L ")")
    /\ ((unit it = L "tablespoon" \/ unit it = L "teaspoon") ->
        food it = clean_food_name (group m 3)).
Proof.
  intros H Hu. destruct (parse_origin _ _ H) as [m [Hm Hi|Hm Hi|Hm Hi]].
  - exfalso. unfold item_of_grams in Hi.
    destruct (clean_food_name (group m 2)); [contradiction|].
    destruct Hi as [<-|[]]. simpl in Hu.
    repeat (destruct Hu as [Hu|Hu]; [discriminate|]). exact Hu.
  - exfalso. unfold item_of_count in Hi.
    destruct (clean_food_name (group m 2)); [contradiction|].
    destruct Hi as [<-|[]]. simpl in Hu.
    repeat (destruct Hu as [Hu|Hu]; [discriminate|]). exact Hu.
  - exists m. split; [exact Hm|]. unfold item_of_unit in Hi.
    destruct (clean_food_name (group m 3)) as [|c w] eqn:E; [contradiction|].
    destruct Hi as [<-|[]]. cbn [unit quantity serving food].
    split; [reflexivity|]. split; [reflexivity|].
    repeat split; intros [->| ->]; reflexivity.
Qed.

Lemma C7_unit_conversion_witness :
  In olive_oil_tbsp (parse_food_text (L "2 tbsp olive oil"))
  /\ In (unit olive_oil_tbsp) units
  /\ exists m,
       In m (finditer false re_unit (Str.lower (L "2 tbsp olive oil")))
       /\ unit olive_oil_tbsp = group m 2
       /\ quantity olive_oil_tbsp = Some (float_of_digits (group m 1))
       /\ ((unit olive_oil_tbsp = L "tbsp"
            \/ unit olive_oil_tbsp = L "tablespoon") ->
           serving olive_oil_tbsp = Double.mul (float_of_digits (group m 1)) 14)
       /\ ((unit olive_oil_tbsp = L "tsp"
            \/ unit olive_oil_tbsp = L "teaspoon") ->
           serving olive_oil_tbsp = Double.mul (float_of_digits (group m 1)) 5)
       /\ ((unit olive_oil_tbsp = L "tbsp" \/ unit olive_oil_tbsp = L "tsp") ->
           food olive_oil_tbsp
           = clean_food_name (group m 3) ++ L " ("
             ++ unit olive_oil_tbsp ++ L ")")
       /\ ((unit olive_oil_tbsp = L "tablespoon"
            \/ unit olive_oil_tbsp = L "teaspoon") ->
           food olive_oil_tbsp = clean_food_name (group m 3)).
Proof.
  assert (H : In olive_oil_tbsp (parse_food_text (L "2 tbsp olive oil")))
    by (vm_compute; right; left; reflexivity).
  assert (Hu : In (unit olive_oil_tbsp) units) by (left; reflexivity).
  split; [exact H|]. split; [exact Hu|].
  exact (C7_unit_conversion (L "2 tbsp olive oil") olive_oil_tbsp H Hu).
Defined.

(** The two conversions quoted with the claim. *)
Example tbsp_olive_oil_28 :
  parse_food_text (L "2 tbsp olive oil")
  = [Item (L "Tbsp Olive Oil") 28 (L "pieces") (Some 2%Q);
     Item (L "Olive Oil (tbsp)") 28 (L "tbsp") (Some 2%Q)].
Proof. vm_compute. reflexivity. Qed.

Example tsp_oil_5 :
  parse_food_text (L "1 tsp oil")
  = [Item (L "Tsp Oil") 5 (L "pieces") (Some 1%Q);
     Item (L "Oil (tsp)") 5 (L "tsp") (Some 1%Q)].
Proof. vm_compute. reflexivity. Qed.

(** C2, as stated, fails: the key of the deduplication is the stored name,
    unit tag included, not the bare normalised name.  In
    [parse_food_text("1 tbsp oil 1 tsp oil")] the two matches of pattern 3
    have the same normalised name Oil, and both are emitted. *)
Lemma C2_same_name_twice :
  parse_food_text (L "1 tbsp oil 1 tsp oil")
  = [Item (L "Tbsp Oil") 14 (L "pieces") (Some 1%Q);
     Item (L "Tsp Oil") 5 (L "pieces") (Some 1%Q);
     Item (L "Oil (tbsp)") 14 (L "tbsp") (Some 1%Q);
     Item (L "Oil (tsp)") 5 (L "tsp") (Some 1%Q)]
  /\ map (fun m => clean_food_name (group m 3))
       (finditer false re_unit (Str.lower (L "1 tbsp oil 1 tsp oil")))
     = [L "Oil"; L "Oil"].
Proof. split; vm_compute; reflexivity. Qed.

(** C2, amended: the mention list is deduplicated by the stored name of the
    item (its [food] entry, stripped; for tbsp and tsp mentions this is the
    unit-annotated name).  No two emitted items share a key; an emitted item
    is the first candidate with its key, taken over unchanged (nothing is
    merged or summed); every candidate whose key has two characters or more
    is represented; and "1 banana 1 banana" yields the single item Banana
    of 120 grams. *)
Theorem C2_dedup_by_stored_name (text : str) :
  NoDup (map key (parse_food_text text))
  /\ (forall it, In it (parse_food_text text) ->
        exists l1 l2, potential_items text = l1 ++ it :: l2
                      /\ forall x, In x l1 -> key x <> key it)
  /\ (forall x, In x (potential_items text) -> 2 <= List.length (key x) ->
        exists it, In it (parse_food_text text) /\ key it = key x)
  /\ parse_food_text (L "1 banana 1 banana")
     = [Item (L "Banana") 120 (L "pieces") (Some 1%Q)].
Proof.
  unfold parse_food_text. split; [apply dedup_nodup|].
  split; [intros it; apply dedup_first|].
  split; [|vm_compute; reflexivity].
  intros x Hx Hl. apply dedup_complete; auto.
Qed.

End ParserClaims.

(** ** The reference matcher: the returned key *)

Module MatcherKey.

Import Difflib.

Lemma max_from_In (l : list (Q * str)) :
  forall cur, In (max_from cur l) (cur :: l).
Proof.
  induction l as [|x l IH]; intros cur; simpl; [auto|].
  destruct (IH (if pair_ltb cur x then x else cur)) as [E|H].
  - rewrite <- E. destruct (pair_ltb cur x); auto.
  - auto.
Qed.

Lemma scored_In word cutoff possibilities s x :
  In (s, x) (scored word cutoff possibilities) <->
  In x possibilities /\ passes cutoff x word = true /\ s = ratio x word.
Proof.
  unfold scored. rewrite in_flat_map. split.
  - intros (y & Hy & H). destruct (passes cutoff y word) eqn:E; [|contradiction].
    destruct H as [H|[]]. inversion H; subst. auto.
  - intros (Hx & Hp & ->). exists x. split; [exact Hx|]. rewrite Hp. left.
    reflexivity.
Qed.

Lemma get_close_matches1_In word possibilities cutoff k rest_ :
  get_close_matches1 word possibilities cutoff = k :: rest_ ->
  rest_ = [] /\ In k possibilities /\ passes cutoff k word = true.
Proof.
  unfold get_close_matches1. fold (scored word cutoff possibilities).
  destruct (scored word cutoff possibilities) as [|x l] eqn:E; simpl;
    [discriminate|].
  intros H. inversion H; subst. split; [reflexivity|].
  pose proof (max_from_In l x) as Hin. rewrite <- E in Hin.
  destruct (max_from x l) as [s y]. apply scored_In in Hin. simpl. tauto.
Qed.

Lemma match_known_food_key food_name known_foods cutoff k :
  match_known_food food_name known_foods cutoff = Some k ->
  In k (keys known_foods)
  /\ passes cutoff k (Str.lower food_name) = true.
Proof.
  unfold match_known_food.
  destruct (get_close_matches1 (Str.lower food_name) (keys known_foods) cutoff)
    as [|m l] eqn:E; [discriminate|].
  intros H. inversion H; subst.
  apply get_close_matches1_In in E. tauto.
Qed.

Lemma table_get_In known_foods k :
  In k (keys known_foods) -> exists r, table_get known_foods k = Some r.
Proof.
  unfold keys. induction known_foods as [|[k' v] t IH]; simpl; [tauto|].
  intros [->|H].
  - rewrite str_eqb_refl. eauto.
  - destruct (str_eqb k k'); eauto.
Qed.

(** The empty key never passes for a non-empty name, so a matched key is
    true in the test [if matched:]. *)
Lemma passes_empty_key word :
  word <> [] -> passes cutoff_default [] word = false.
Proof.
  intros H. unfold passes, real_quick_ratio. destruct word as [|c w];
    [congruence|]. cbn [List.length Nat.min Nat.add calculate_ratio].
  rewrite DoubleFacts.div_0_l by reflexivity. reflexivity.
Qed.

Lemma lower_nonempty s : s <> [] -> Str.lower s <> [].
Proof. destruct s; simpl; congruence. Qed.

Lemma matched_truthy food_name known_foods k :
  food_name <> [] ->
  match_known_food food_name known_foods cutoff_default = Some k ->
  truthy k = true.
Proof.
  intros Hn H. apply match_known_food_key in H. destruct H as [_ Hp].
  destruct k; [|reflexivity].
  rewrite passes_empty_key in Hp by (apply lower_nonempty; exact Hn).
  discriminate.
Qed.

End MatcherKey.

(** ** Rounding *)

Module Rounding.

Import Double DoubleFacts.

Local Open Scope Q_scope.

Lemma dist_triangle a b c : Qabs (a - c) <= Qabs (a - b) + Qabs (b - c).
Proof.
  setoid_replace (a - c) with ((a - b) + (b - c)) by ring. apply Qabs_triangle.
Qed.

Lemma abs_le_near a b e B : Qabs (a - b) <= e -> Qabs b <= B -> Qabs a <= B + e.
Proof.
  intros H1 H2. setoid_replace a with (b + (a - b)) by ring.
  eapply Qle_trans; [apply Qabs_triangle|]. apply Qplus_le_compat; assumption.
Qed.

Lemma round2_near_decimal x :
  Qabs ((round_half_even (x * 100) # 100) - x) <= 1 # 200.
Proof.
  pose proof (round_half_even_near (x * 100)) as H.
  set (k := round_half_even (x * 100)) in *.
  assert (E : (k # 100) - x == - (x * 100 - inject_Z k) * (1 # 100)).
  { rewrite (Qmake_Qdiv k 100). field. }
  rewrite E, Qabs_Qmult, Qabs_opp.
  setoid_replace (1 # 200) with ((1 # 2) * Qabs (1 # 100)) by reflexivity.
  apply Qmult_le_compat_r; [exact H | apply Qabs_nonneg].
Qed.

(** The resolved value of a field against the exact scaled value: half a
    hundredth for the rounding to two decimals, and the rounding errors of
    the three double-precision operations. *)
Lemma scaled_field_near (c s : Q) :
  Qabs c <= 1000000 -> 0 <= s -> s <= 1000000 ->
  Qabs (round2 (Double.mul c (Double.div s 100)) - c * s / 100)
  <= 501 # 100000.
Proof.
  intros Hc Hs0 Hs. unfold round2, Double.mul, Double.div.
  set (u := pow2 (-53)). set (eta := pow2 (-1075)).
  set (x1 := s / 100). set (f := round x1).
  assert (H1 : Qabs x1 <= 10000).
  { unfold x1. rewrite Qabs_pos.
    - apply Qle_shift_div_r; [reflexivity|]. exact Hs.
    - apply Qle_shift_div_l; [reflexivity|]. rewrite Qmult_0_l. exact Hs0. }
  pose proof (round_near_bound x1 _ H1) as E1. fold f u eta in E1.
  pose proof (abs_le_near _ _ _ _ E1 H1) as F1.
  set (x2 := c * f). set (p := round x2).
  assert (H2 : Qabs x2 <= 1000000 * (10000 + (10000 * u + eta))).
  { unfold x2. rewrite Qabs_Qmult.
    eapply Qle_trans; [apply Qmult_le_compat_r; [exact Hc | apply Qabs_nonneg]|].
    rewrite !(Qmult_comm 1000000). apply Qmult_le_compat_r; [exact F1|].
    discriminate. }
  pose proof (round_near_bound x2 _ H2) as E2. fold p u eta in E2.
  assert (D2 : Qabs (x2 - c * s / 100) <= 1000000 * (10000 * u + eta)).
  { setoid_replace (x2 - c * s / 100) with (c * (f - x1))
      by (unfold x2, x1; field).
    rewrite Qabs_Qmult.
    eapply Qle_trans; [apply Qmult_le_compat_r; [exact Hc | apply Qabs_nonneg]|].
    rewrite !(Qmult_comm 1000000). apply Qmult_le_compat_r; [exact E1|].
    discriminate. }
  pose proof (abs_le_near _ _ _ _ E2 H2) as P.
  pose proof (round2_near_decimal p) as E3.
  set (y := round_half_even (p * 100) # 100) in *.
  pose proof (abs_le_near _ _ _ _ E3 P) as Y.
  pose proof (round_near_bound y _ Y) as E4. fold u eta in E4.
  eapply Qle_trans; [apply (dist_triangle _ y)|].
  eapply Qle_trans;
    [apply Qplus_le_compat;
       [exact E4
       | eapply Qle_trans; [apply (dist_triangle _ p)|];
         apply Qplus_le_compat;
           [exact E3
           | eapply Qle_trans; [apply (dist_triangle _ x2)|];
             apply Qplus_le_compat; [exact E2 | exact D2]]]|].
  vm_compute. discriminate.
Qed.

Local Close Scope Q_scope.

(** The scaler, field by field: the factor first, then the product, then
    the rounding to two decimals. *)
Lemma scale_macros_law (r : macros) (s : Q) :
  scale_macros r s
  = Macros (round2 (Double.mul (Calories r) (Double.div s 100)))
      (round2 (Double.mul (Protein r) (Double.div s 100)))
      (round2 (Double.mul (Carbohydrates r) (Double.div s 100)))
      (round2 (Double.mul (Fats r) (Double.div s 100))).
Proof. reflexivity. Qed.

End Rounding.

(** ** The loop of the handler *)

Module HandlerFacts.

Import Dedup MatcherKey.

Lemma estimates_app t1 t2 : estimates (t1 ++ t2) = estimates t1 ++ estimates t2.
Proof.
  induction t1 as [|[f s|f s m|r] t1 IH]; simpl; rewrite ?IH; reflexivity.
Qed.

Lemma persists_app t1 t2 : persists (t1 ++ t2) = persists t1 ++ persists t2.
Proof.
  induction t1 as [|[f s|f s m|r] t1 IH]; simpl; rewrite ?IH; reflexivity.
Qed.

Lemma replies_app t1 t2 : replies (t1 ++ t2) = replies t1 ++ replies t2.
Proof.
  induction t1 as [|[f s|f s m|r] t1 IH]; simpl; rewrite ?IH; reflexivity.
Qed.

Section Loop.

Variable World : Type.
Variable ai : str -> Q -> World -> option macros * World.
Variable notion : str -> Q -> macros -> World -> bool * World.
Variable known_foods : table.

Local Abbreviation stepW := (step World ai notion known_foods).
Local Abbreviation processW := (process World ai notion known_foods).
Local Abbreviation get_macrosW := (get_macros World ai known_foods).
Local Abbreviation missedW := (missed known_foods).
Local Abbreviation step_deltaW := (step_delta World ai notion known_foods).

Lemma step_as_delta st it :
  let '(d, w') := step_deltaW (world st) it in
  successful_items (stepW st it) = successful_items st ++ d_success d
  /\ failed_items (stepW st it) = failed_items st ++ d_failed d
  /\ trace (stepW st it) = trace st ++ d_trace d
  /\ world (stepW st it) = w'.
Proof.
  unfold step, step_delta.
  destruct (get_macrosW (food it) (serving it) (world st)) as [[m evs] w1].
  destruct m as [mc|]; simpl.
  - destruct (notion (food it) (serving it) mc w1) as [[|] w2]; simpl;
      rewrite ?app_nil_r; auto.
  - rewrite ?app_nil_r. auto.
Qed.

(** Each iteration puts the item's name in exactly one of the two lists. *)
Lemma step_delta_one w it :
  let d := fst (step_deltaW w it) in
  (map name (d_success d) = [food it] /\ d_failed d = [])
  \/ (d_success d = [] /\ d_failed d = [food it]).
Proof.
  unfold step_delta.
  destruct (get_macrosW (food it) (serving it) w) as [[m evs] w1].
  destruct m as [mc|]; simpl; [|auto].
  destruct (notion (food it) (serving it) mc w1) as [[|] w2]; simpl; auto.
Qed.

(** The estimator is called once on a miss and not at all on a hit. *)
Lemma get_macros_estimates it w :
  let '(m, evs, w1) := get_macrosW (food it) (serving it) w in
  estimates evs = (if missedW it then [(food it, serving it)] else [])
  /\ persists evs = [] /\ replies evs = [].
Proof.
  unfold get_macros, missed, hit.
  destruct (match_known_food (food it) known_foods cutoff_default) as [k|].
  - destruct (truthy k); simpl; [auto|].
    destruct (ai (food it) (serving it) w) as [m w1]. simpl. auto.
  - destruct (ai (food it) (serving it) w) as [m w1]. simpl. auto.
Qed.

Lemma step_delta_estimates w it :
  estimates (d_trace (fst (step_deltaW w it)))
  = (if missedW it then [(food it, serving it)] else [])
  /\ replies (d_trace (fst (step_deltaW w it))) = [].
Proof.
  unfold step_delta. pose proof (get_macros_estimates it w) as H.
  destruct (get_macrosW (food it) (serving it) w) as [[m evs] w1].
  destruct H as (He & _ & Hr).
  destruct m as [mc|]; simpl; [|auto].
  destruct (notion (food it) (serving it) mc w1) as [[|] w2]; simpl;
    rewrite estimates_app, replies_app, He, Hr; simpl; rewrite app_nil_r; auto.
Qed.

(** The loop, from any state. *)
Lemma loop_invariant items :
  forall st,
    let st' := fold_left stepW items st in
    exists S' F' T',
      successful_items st' = successful_items st ++ S'
      /\ failed_items st' = failed_items st ++ F'
      /\ trace st' = trace st ++ T'
      /\ subseq (map name S') (map food items)
      /\ subseq F' (map food items)
      /\ Permutation (map name S' ++ F') (map food items)
      /\ estimates T'
         = map (fun it => (food it, serving it)) (filter missedW items)
      /\ replies T' = [].
Proof.
  induction items as [|it items IH]; intros st; simpl.
  - exists [], [], []. rewrite !app_nil_r. repeat split; constructor.
  - pose proof (step_as_delta st it) as Hs.
    pose proof (step_delta_one (world st) it) as H1.
    pose proof (step_delta_estimates (world st) it) as He.
    destruct (step_deltaW (world st) it) as [d w'].
    destruct Hs as (Hs & Hf & Ht & _). simpl in H1, He.
    destruct (IH (stepW st it)) as (S' & F' & T' & IS & IF & IT & SS & SF & P & E & R).
    exists (d_success d ++ S'), (d_failed d ++ F'), (d_trace d ++ T').
    rewrite IS, IF, IT, Hs, Hf, Ht, <- !app_assoc.
    split; [reflexivity|]. split; [reflexivity|]. split; [reflexivity|].
    destruct He as [He Hr].
    rewrite estimates_app, replies_app, He, Hr, E, R, map_app.
    destruct H1 as [[Hn Hd]|[Hn Hd]]; rewrite Hn, Hd; simpl.
    + split; [apply sub_take; exact SS|]. split; [apply sub_skip; exact SF|].
      split; [constructor; exact P|].
      split; [|reflexivity]. destruct (missedW it); reflexivity.
    + split; [apply sub_skip; exact SS|]. split; [apply sub_take; exact SF|].
      split; [|split; [|reflexivity]; destruct (missedW it); reflexivity].
      apply Permutation_sym. apply Permutation_cons_app.
      apply Permutation_sym. exact P.
Qed.

Lemma process_invariant items w :
  let st := processW items w in
  subseq (map name (successful_items st)) (map food items)
  /\ subseq (failed_items st) (map food items)
  /\ Permutation (map name (successful_items st) ++ failed_items st)
       (map food items)
  /\ estimates (trace st)
     = map (fun it => (food it, serving it)) (filter missedW items)
  /\ replies (trace st) = [].
Proof.
  unfold process.
  destruct (loop_invariant items (LoopState World 0 [] [] [] w))
    as (S' & F' & T' & IS & IF & IT & SS & SF & P & E & R).
  simpl in IS, IF, IT. cbv zeta. rewrite IS, IF, IT. auto.
Qed.

(** The lists only grow. *)
Lemma loop_failed_grows items st :
  exists F', failed_items (fold_left stepW items st) = failed_items st ++ F'.
Proof.
  destruct (loop_invariant items st) as (S' & F' & T' & _ & IF & _).
  exists F'. exact IF.
Qed.

Lemma process_app l1 l2 w :
  processW (l1 ++ l2) w = fold_left stepW l2 (processW l1 w).
Proof. unfold process. apply fold_left_app. Qed.

End Loop.

End HandlerFacts.

(** ** Claims on the handler *)

Module HandlerClaims.

Import Dedup Grammar Mentions MatcherKey Rounding HandlerFacts.

Lemma parse_food_nonempty text it :
  In it (parse_food_text text) -> food it <> [].
Proof.
  intros H. apply dedup_fresh in H. destruct H as [_ Hl]. unfold key in Hl.
  intros E. rewrite E in Hl. simpl in Hl. lia.
Qed.

Section Claims.

Variable World : Type.
Variable ai : str -> Q -> World -> option macros * World.
Variable notion : str -> Q -> macros -> World -> bool * World.
Variable known_foods : table.

Local Abbreviation stepW := (step World ai notion known_foods).
Local Abbreviation processW := (process World ai notion known_foods).
Local Abbreviation get_macrosW := (get_macros World ai known_foods).
Local Abbreviation missedW := (missed known_foods).

(** On a hit the macros come from the table, scaled, with no call. *)
Lemma get_macros_hit food serving w k r :
  match_known_food food known_foods cutoff_default = Some k ->
  truthy k = true ->
  table_get known_foods k = Some r ->
  get_macrosW food serving w = (Some (scale_macros r serving), [], w).
Proof.
  intros Hm Ht Hr. unfold get_macros.
  rewrite Hm, Ht, Hr. reflexivity.
Qed.

(** The profile handed to the persistence call of a reference-matched
    item. *)
Lemma loop_persists_hit items :
  forall st it k r,
    In it items ->
    match_known_food (food it) known_foods cutoff_default = Some k ->
    truthy k = true ->
    table_get known_foods k = Some r ->
    In (food it, serving it, scale_macros r (serving it))
      (persists (trace (fold_left stepW items st))).
Proof.
  induction items as [|x items IH]; intros st it k r Hin Hm Ht Hr;
    [contradiction|].
  simpl. destruct Hin as [->|Hin]; [|eapply IH; eassumption].
  destruct (loop_invariant World ai notion known_foods items (stepW st it))
    as (S' & F' & T' & _ & _ & IT & _).
  rewrite IT, persists_app. apply in_or_app. left.
  unfold step.
  rewrite (get_macros_hit _ _ _ _ _ Hm Ht Hr).
  destruct (notion (food it) (serving it) (scale_macros r (serving it))
              (world st)) as [[|] w2]; simpl;
    rewrite persists_app; apply in_or_app; right; simpl; auto.
Qed.

End Claims.

(** C1, as stated, fails in the last decimal: the source computes the
    factor [serving / 100] first and multiplies the reference value by it,
    and in double precision this is not the quotient of the product by 100.
    For "75g rice" and a table giving rice 2.7 g of protein per 100 g, the
    resolved protein is 2.03, while [round(2.7 * 75 / 100, 2)] is 2.02. *)
Lemma C1_product_first_differs :
  parse_food_text (L "75g rice") = [rice_75]
  /\ get_macros NoWorld no_estimate rice_table (L "Rice") 75 tt
     = (Some (Macros (195 # 2) (Double.round (203 # 100))
                (Double.round (2115 # 100)) (Double.round (22 # 100))),
        [], tt)
  /\ round2 (Double.div (Double.mul (Double.round (27 # 10)) 75) 100)
     = Double.round (202 # 100)
  /\ Double.round (203 # 100) <> Double.round (202 # 100).
Proof.
  split; [vm_compute; reflexivity|]. split; [vm_compute; reflexivity|].
  split; [vm_compute; reflexivity|]. vm_compute. discriminate.
Qed.

(** C1, amended: for every mention emitted by the parser that the reference
    matcher matches to a key [k] with profile [r], the macros resolved for
    it are [r] scaled by the factor [serving / 100], the factor being
    computed first and each operation rounded to the nearest double, each
    of the four fields rounded to two decimals; no estimation is requested,
    and this is the profile handed on to persistence.  When the reference
    values and the serving do not exceed a million, each resolved field is
    within 0.00501 of the exact value [r * serving / 100]. *)
Theorem C1_scaling_law (World : Type)
    (ai : str -> Q -> World -> option macros * World)
    (notion : str -> Q -> macros -> World -> bool * World)
    (known_foods : table) (text : str) (it : item) (w : World)
    (k : str) (r : macros) :
  In it (parse_food_text text) ->
  match_known_food (food it) known_foods cutoff_default = Some k ->
  table_get known_foods k = Some r ->
  let factor := Double.div (serving it) 100 in
  let resolved :=
    Macros (round2 (Double.mul (Calories r) factor))
      (round2 (Double.mul (Protein r) factor))
      (round2 (Double.mul (Carbohydrates r) factor))
      (round2 (Double.mul (Fats r) factor)) in
  get_macros World ai known_foods (food it) (serving it) w
  = (Some resolved, [], w)
  /\ In (food it, serving it, resolved)
       (persists
          (trace (process World ai notion known_foods
                    (parse_food_text text) w)))
  /\ (Forall (fun c => (Qabs c <= 1000000)%Q) (fields r) ->
      (serving it <= 1000000)%Q ->
      Forall2
        (fun v c => (Qabs (v - c * serving it / 100) <= 501 # 100000)%Q)
        (fields resolved) (fields r)).
Proof.
  intros Hin Hm Hr. cbv zeta.
  assert (Ht : truthy k = true).
  { eapply matched_truthy; [|exact Hm]. eapply parse_food_nonempty. exact Hin. }
  split; [|split].
  - rewrite <- scale_macros_law. apply get_macros_hit with (k := k); assumption.
  - rewrite <- scale_macros_law. unfold process.
    eapply loop_persists_hit; eassumption.
  - intros Hf Hs. destruct (parse_origin _ _ Hin) as [m Ho].
    destruct (origin_serving _ _ _ Ho) as [Hs0 _].
    unfold fields in *. cbn [Calories Protein Carbohydrates Fats].
    inversion Hf as [|? ? H1 Hf1]; subst.
    inversion Hf1 as [|? ? H2 Hf2]; subst.
    inversion Hf2 as [|? ? H3 Hf3]; subst.
    inversion Hf3 as [|? ? H4 _]; subst.
    repeat constructor; apply scaled_field_near; assumption.
Qed.

Lemma C1_scaling_law_witness :
  let factor := Double.div 150 100 in
  let resolved :=
    Macros (round2 (Double.mul 165 factor)) (round2 (Double.mul 31 factor))
      (round2 (Double.mul 0 factor))
      (round2 (Double.mul (Double.round (36 # 10)) factor)) in
  get_macros NoWorld no_estimate chicken_table (L "Chicken Breast") 150 tt
  = (Some resolved, [], tt)
  /\ In (L "Chicken Breast", 150%Q, resolved)
       (persists
          (trace (process NoWorld no_estimate persist_ok chicken_table
                    (parse_food_text (L "150g chicken breast")) tt)))
  /\ (Forall (fun c => (Qabs c <= 1000000)%Q)
        (fields (Macros 165 31 0 (Double.round (36 # 10)))) ->
      (150 <= 1000000)%Q ->
      Forall2 (fun v c => (Qabs (v - c * 150 / 100) <= 501 # 100000)%Q)
        (fields resolved)
        (fields (Macros 165 31 0 (Double.round (36 # 10))))).
Proof.
  refine (C1_scaling_law NoWorld no_estimate persist_ok chicken_table
            (L "150g chicken breast") chicken_150 tt (L "chicken breast")
            (Macros 165 31 0 (Double.round (36 # 10))) _ _ _).
  - vm_compute. left. reflexivity.
  - vm_compute. reflexivity.
  - vm_compute. reflexivity.
Defined.

(** The witness's numbers: 150 g of a food of 165 kcal, 31 g of protein and
    3.6 g of fat per 100 g hold 247.5 kcal, 46.5 g and 5.4 g. *)
Example chicken_150_macros :
  scale_macros (Macros 165 31 0 (Double.round (36 # 10))) 150
  = Macros (495 # 2) (93 # 2) 0 (Double.round (54 # 10)).
Proof. vm_compute. reflexivity. Qed.

(** C6, as stated, fails: the order is not that of the text.  In
    "2 bananas 100g chicken breast" the bare-count mention starts at offset
    0 and the gram-qualified one at offset 10, and the handler lists
    Chicken Breast first. *)
Lemma C6_not_text_order :
  map name
    (successful_items
       (process NoWorld estimate_ones persist_ok []
          (parse_food_text (L "2 bananas 100g chicken breast")) tt))
  = [L "Chicken Breast"; L "Bananas"]
  /\ map (fun m => (m_start m, clean_food_name (group m 2)))
       (finditer false re_count (Str.lower (L "2 bananas 100g chicken breast")))
     = [(0, L "Bananas")]
  /\ map (fun m => (m_start m, clean_food_name (group m 2)))
       (finditer false re_grams (Str.lower (L "2 bananas 100g chicken breast")))
     = [(10, L "Chicken Breast")].
Proof. repeat split; vm_compute; reflexivity. Qed.

(** C6, amended: the successes and the failures each keep the order of the
    deduplicated mention list, which keeps the order of the candidates; the
    candidates are the matches of the gram pattern, then those of the count
    pattern, then those of the unit pattern, and within one pattern the
    matches are in text order and do not overlap.  No other ordering is
    applied. *)
Theorem C6_order (World : Type)
    (ai : str -> Q -> World -> option macros * World)
    (notion : str -> Q -> macros -> World -> bool * World)
    (known_foods : table) (text : str) (w : World) :
  let st := process World ai notion known_foods (parse_food_text text) w in
  subseq (map name (successful_items st)) (map food (parse_food_text text))
  /\ subseq (failed_items st) (map food (parse_food_text text))
  /\ subseq (parse_food_text text) (potential_items text)
  /\ potential_items text
     = flat_map item_of_grams (finditer false re_grams (Str.lower text))
       ++ flat_map item_of_count (finditer false re_count (Str.lower text))
       ++ flat_map item_of_unit (finditer false re_unit (Str.lower text))
  /\ StronglySorted before (finditer false re_grams (Str.lower text))
  /\ StronglySorted before (finditer false re_count (Str.lower text))
  /\ StronglySorted before (finditer false re_unit (Str.lower text)).
Proof.
  cbv zeta.
  destruct (process_invariant World ai notion known_foods
              (parse_food_text text) w) as (SS & SF & _).
  split; [exact SS|]. split; [exact SF|].
  split; [apply dedup_subseq|]. split; [reflexivity|].
  repeat split; apply ReFacts.finditer_ordered.
Qed.

End HandlerClaims.

(** ** Texts with and without a mention *)

Module NoMention.

Import Dedup HandlerFacts.

Lemma lower_is_digit c : Char.is_digit (Char.lower c) = Char.is_digit c.
Proof. all_chars c; reflexivity. Qed.

(** The two outcomes on two texts. *)
Example hello_has_no_mention :
  free_form_input NoWorld no_estimate persist_ok []
    (L "hello there") tt
  = ([EvReply NoFoodIdentified], tt).
Proof. vm_compute. reflexivity. Qed.

Example all_failed_is_a_summary :
  free_form_input NoWorld no_estimate persist_ok []
    (L "2 bananas") tt
  = ([EvEstimate (L "Bananas") 240;
      EvReply (Summary [] [L "Bananas"] 0)], tt).
Proof. vm_compute. reflexivity. Qed.

End NoMention.

(** ** Unfolding the scan of [sub] *)

Module ReScan.

Import ReSound.

Lemma last_or_app pv w1 w2 :
  last_or pv (w1 ++ w2) = last_or (last_or pv w1) w2.
Proof. revert pv. induction w1; intros; simpl; auto. Qed.

Lemma matches_prev ci r st w st' :
  matches ci r st w st' -> prev st' = last_or (prev st) w.
Proof.
  induction 1; simpl in *; try reflexivity; try assumption.
  rewrite last_or_app. congruence.
Qed.

(** A successful attempt splits the text into what it consumed and what is
    left. *)
Lemma match_at_consumed ci r pv s st :
  match_at ci r pv s = Some st ->
  exists w, s = w ++ rest st /\ pos st = List.length w
            /\ prev st = last_or pv w.
Proof.
  intros H. apply match_at_sound in H. destruct H as [w H].
  exists w. destruct (matches_consumed _ _ _ _ _ H) as [Hr Hp].
  apply matches_prev in H. simpl in *. auto.
Qed.

Lemma sub_go_skip ci r repl :
  forall w s pv,
    sub_go ci r repl (List.length w) pv (w ++ s)
    = sub_go ci r repl 0 (last_or pv w) s.
Proof.
  induction w as [|c w IH]; intros s pv; simpl; [reflexivity|]. apply IH.
Qed.

(** The two ways one step of the scan can go. *)
Lemma sub_go_hit ci r repl pv c s st :
  match_at ci r pv (c :: s) = Some st -> 0 < pos st ->
  sub_go ci r repl 0 pv (c :: s)
  = repl ++ sub_go ci r repl 0 (prev st) (rest st)
  /\ List.length (rest st) < List.length (c :: s).
Proof.
  intros H Hp. destruct (match_at_consumed _ _ _ _ _ H) as (w & Hs & Hl & Hv).
  simpl. rewrite H. destruct (pos st) as [|n] eqn:E; [lia|].
  destruct w as [|x w]; [discriminate|]. simpl in Hs, Hl, Hv.
  inversion Hs; subst x. inversion Hl; subst n.
  split.
  - rewrite sub_go_skip. rewrite Hv. reflexivity.
  - rewrite length_app. lia.
Qed.

Lemma sub_go_miss ci r repl pv c s :
  match_at ci r pv (c :: s) = None ->
  sub_go ci r repl 0 pv (c :: s) = c :: sub_go ci r repl 0 (Some c) s.
Proof. intros H. simpl. rewrite H. reflexivity. Qed.

Lemma star_cls_total p (k : cont) :
  (forall st, k st <> None) ->
  forall s pv i cs, star_cls p k pv s i cs = k (star_end p pv s i cs).
Proof.
  intros Hk. induction s as [|c s IH]; intros pv i cs; simpl; [reflexivity|].
  destruct (p c); [|reflexivity]. rewrite IH.
  destruct (k (star_end p (Some c) s (S i) cs)) eqn:E; [reflexivity|].
  apply Hk in E. contradiction.
Qed.

Lemma star_end_rest p s : forall pv i cs,
  rest (star_end p pv s i cs) = drop_while p s
  /\ i <= pos (star_end p pv s i cs)
  /\ caps (star_end p pv s i cs) = cs.
Proof.
  induction s as [|c s IH]; intros pv i cs; simpl; [auto|].
  destruct (p c); simpl; [|auto].
  destruct (IH (Some c) (S i) cs) as (Hr & Hp & Hc). auto with arith.
Qed.

Lemma drop_while_length p s : List.length (drop_while p s) <= List.length s.
Proof.
  induction s as [|c s IH]; simpl; [lia|]. destruct (p c); simpl; lia.
Qed.

Lemma drop_while_head p s c s' : drop_while p s = c :: s' -> p c = false.
Proof.
  induction s as [|d s IH]; simpl; [discriminate|].
  destruct (p d) eqn:E; [exact IH|]. intros H. inversion H; subst. exact E.
Qed.

End ReScan.

(** ** The three substitutions of [clean_food_name] *)

Module CleanRefine.

Import ReSound ReScan CleanSpec.
Import NoMention.

Lemma space_not_digit c : Char.is_space c = true -> Char.is_digit c = false.
Proof. all_chars c; simpl; intros H; try reflexivity; discriminate H. Qed.

Lemma point_not_digit c : Ascii.eqb c "."%char = true -> Char.is_digit c = false.
Proof. intros H. apply Ascii.eqb_eq in H. subst. reflexivity. Qed.

Lemma point_not_space c : Ascii.eqb c "."%char = true -> Char.is_space c = false.
Proof. intros H. apply Ascii.eqb_eq in H. subst. reflexivity. Qed.

(** *** Numerals *)

Lemma some_total : forall st : mstate, Some st <> None.
Proof. discriminate. Qed.

Lemma frac_attempt st :
  exists st',
    rmatch false (Seq (Star Char.is_digit) (Star Char.is_space)) Some st
    = Some st'
    /\ rest st' = after_frac (rest st) /\ pos st <= pos st'.
Proof.
  simpl. unfold star.
  assert (T : forall st0, star Char.is_space Some st0 <> None).
  { intros st0. unfold star. rewrite star_cls_total by apply some_total.
    discriminate. }
  rewrite (star_cls_total Char.is_digit (star Char.is_space Some) T).
  unfold star. rewrite star_cls_total by apply some_total.
  eexists. split; [reflexivity|].
  destruct (star_end_rest Char.is_digit (rest st) (prev st) (pos st) (caps st))
    as (R1 & P1 & _).
  match goal with |- rest (star_end _ ?a ?b ?c ?d) = _ /\ _ =>
    destruct (star_end_rest Char.is_space b a c d) as (R2 & P2 & _) end.
  unfold after_frac. split; [rewrite R2, R1; reflexivity | lia].
Qed.

Lemma point_attempt st :
  exists st',
    rmatch false
      (Seq (Opt (Chr "."%char)) (Seq (Star Char.is_digit) (Star Char.is_space)))
      Some st
    = Some st'
    /\ rest st' = after_point (rest st) /\ pos st <= pos st'.
Proof.
  cbn [rmatch]. unfold chr_eq.
  destruct (rest st) as [|x s'] eqn:Hr.
  - destruct (frac_attempt st) as (st' & H & R & P). cbn [rmatch] in H.
    rewrite H. exists st'. rewrite R, Hr. auto.
  - simpl after_point. rewrite Ascii.eqb_sym.
    destruct (Ascii.eqb x "."%char) eqn:Ex.
    + destruct (frac_attempt (advance st x s')) as (st' & H & R & P).
      cbn [rmatch] in H. rewrite H. exists st'. simpl in R, P.
      split; [reflexivity|]. split; [exact R | lia].
    + destruct (frac_attempt st) as (st' & H & R & P). cbn [rmatch] in H.
      rewrite H. exists st'. rewrite R, Hr. auto.
Qed.

Lemma point_total st :
  rmatch false
    (Seq (Opt (Chr "."%char)) (Seq (Star Char.is_digit) (Star Char.is_space)))
    Some st <> None.
Proof. destruct (point_attempt st) as (st' & H & _). congruence. Qed.

Lemma number_attempt pv c s :
  if Char.is_digit c
  then exists st, match_at false re_number pv (c :: s) = Some st
                  /\ rest st = after_number s /\ 0 < pos st
  else match_at false re_number pv (c :: s) = None.
Proof.
  unfold match_at, re_number. cbn [rmatch rest].
  destruct (Char.is_digit c); [|reflexivity].
  unfold star. rewrite star_cls_total by apply point_total.
  match goal with |- context [star_end ?p ?a ?b ?i ?d] =>
    destruct (star_end_rest p b a i d) as (R & P & _);
    destruct (point_attempt (star_end p a b i d)) as (st' & H & R' & P')
  end.
  exists st'. split; [exact H|]. unfold after_number.
  split; [rewrite R', R; reflexivity | simpl in *; lia].
Qed.

Lemma strip_tail s :
  strip_numerals_from InTail s
  = strip_numerals_from Outside (drop_while Char.is_space s).
Proof.
  induction s as [|c s IH]; simpl; [reflexivity|].
  destruct (Char.is_space c) eqn:Es.
  - rewrite (space_not_digit _ Es). exact IH.
  - simpl. destruct (Char.is_digit c); reflexivity.
Qed.

Lemma strip_frac s :
  strip_numerals_from InFrac s = strip_numerals_from Outside (after_frac s).
Proof.
  unfold after_frac. induction s as [|c s IH]; simpl; [reflexivity|].
  destruct (Char.is_digit c) eqn:Ed; [exact IH|]. simpl.
  destruct (Char.is_space c) eqn:Es; [apply strip_tail|].
  simpl. rewrite Ed. reflexivity.
Qed.

Lemma strip_int s :
  strip_numerals_from InInt s = strip_numerals_from Outside (after_number s).
Proof.
  unfold after_number. induction s as [|c s IH]; simpl; [reflexivity|].
  destruct (Char.is_digit c) eqn:Ed; [exact IH|]. simpl.
  destruct (Ascii.eqb c "."%char) eqn:Ep; [apply strip_frac|].
  unfold after_frac. simpl. rewrite Ed. simpl.
  destruct (Char.is_space c) eqn:Es.
  - apply strip_tail.
  - simpl. rewrite Ed. reflexivity.
Qed.

Lemma after_number_length s : List.length (after_number s) <= List.length s.
Proof.
  unfold after_number, after_point, after_frac.
  pose proof (drop_while_length Char.is_digit s) as H1.
  destruct (drop_while Char.is_digit s) as [|c t]; [simpl; lia|].
  destruct (Ascii.eqb c "."%char).
  - pose proof (drop_while_length Char.is_digit t).
    pose proof (drop_while_length Char.is_space (drop_while Char.is_digit t)).
    simpl in *. lia.
  - pose proof (drop_while_length Char.is_digit (c :: t)).
    pose proof (drop_while_length Char.is_space
                  (drop_while Char.is_digit (c :: t))).
    simpl List.length in *. lia.
Qed.

(** The first substitution removes the numerals. *)
Lemma sub_number s : Re.sub false re_number [] s = strip_numerals s.
Proof.
  unfold Re.sub, strip_numerals. generalize (@None ascii) as pv.
  remember (List.length s) as n eqn:Hn.
  assert (Hle : List.length s <= n) by lia. clear Hn. revert s Hle.
  induction n as [|n IH]; intros s Hle pv.
  - destruct s; [reflexivity | simpl in Hle; lia].
  - destruct s as [|c s]; [reflexivity|].
    pose proof (number_attempt pv c s) as H. simpl strip_numerals_from.
    destruct (Char.is_digit c).
    + destruct H as (st & Hm & Hr & Hp).
      destruct (sub_go_hit false re_number [] _ _ _ _ Hm Hp) as [E Hl].
      rewrite E. simpl. rewrite Hr. rewrite IH.
      * symmetry. apply strip_int.
      * pose proof (after_number_length s). simpl in Hle. lia.
    + rewrite (sub_go_miss _ _ _ _ _ _ H). f_equal. apply IH.
      simpl in Hle. lia.
Qed.

(** *** Whitespace *)

Lemma spaces_attempt pv c s :
  if Char.is_space c
  then exists st, match_at false re_spaces pv (c :: s) = Some st
                  /\ rest st = drop_while Char.is_space s /\ 0 < pos st
  else match_at false re_spaces pv (c :: s) = None.
Proof.
  unfold match_at, re_spaces. cbn [rmatch rest].
  destruct (Char.is_space c); [|reflexivity].
  unfold star. rewrite star_cls_total by apply some_total.
  eexists. split; [reflexivity|].
  match goal with |- context [star_end ?p ?a ?b ?i ?d] =>
    destruct (star_end_rest p b a i d) as (R & P & _) end.
  simpl in *. split; [exact R | lia].
Qed.

Lemma collapse_in_space s :
  collapse_from true s = collapse_from false (drop_while Char.is_space s).
Proof.
  induction s as [|c s IH]; simpl; [reflexivity|].
  destruct (Char.is_space c) eqn:Es; [exact IH|]. simpl. rewrite Es.
  reflexivity.
Qed.

(** The third substitution collapses the runs of whitespace. *)
Lemma sub_spaces s : Re.sub false re_spaces (L " ") s = collapse s.
Proof.
  unfold Re.sub, collapse. generalize (@None ascii) as pv.
  remember (List.length s) as n eqn:Hn.
  assert (Hle : List.length s <= n) by lia. clear Hn. revert s Hle.
  induction n as [|n IH]; intros s Hle pv.
  - destruct s; [reflexivity | simpl in Hle; lia].
  - destruct s as [|c s]; [reflexivity|].
    pose proof (spaces_attempt pv c s) as H. simpl collapse_from.
    destruct (Char.is_space c).
    + destruct H as (st & Hm & Hr & Hp).
      destruct (sub_go_hit false re_spaces (L " ") _ _ _ _ Hm Hp) as [E Hl].
      rewrite E. simpl. f_equal. rewrite Hr, IH.
      * symmetry. apply collapse_in_space.
      * pose proof (drop_while_length Char.is_space s). simpl in Hle. lia.
    + rewrite (sub_go_miss _ _ _ _ _ _ H). f_equal. apply IH.
      simpl in Hle. lia.
Qed.

End CleanRefine.

(** ** The stop-word substitution *)

Module StopRefine.

Import ReSound ReScan CleanSpec.
Import NoMention.

Lemma take_drop p s : s = take_while p s ++ drop_while p s.
Proof.
  induction s as [|c s IH]; simpl; [reflexivity|].
  destruct (p c); simpl; [f_equal; exact IH | reflexivity].
Qed.

Lemma take_while_all p s : Forall (fun c => p c = true) (take_while p s).
Proof.
  induction s as [|c s IH]; simpl; [constructor|].
  destruct (p c) eqn:E; constructor; assumption.
Qed.

Lemma lower_is_word c : Char.is_word (Char.lower c) = Char.is_word c.
Proof. all_chars c; reflexivity. Qed.

Lemma lower_lower c : Char.lower (Char.lower c) = Char.lower c.
Proof. all_chars c; reflexivity. Qed.

Lemma lit_attempt l : l <> [] ->
  forall (k : cont) st,
    rmatch true (Lit l) k st
    = if prefix_ci l (rest st) then k (consume (List.length l) st) else None.
Proof.
  induction l as [|c l IH]; [congruence|]. intros _ k st.
  destruct l as [|d l].
  - simpl. destruct (rest st) as [|x s'] eqn:E; [reflexivity|].
    rewrite andb_true_r. reflexivity.
  - change (Lit (c :: d :: l)) with (Seq (Chr c) (Lit (d :: l))).
    cbn [rmatch]. destruct (rest st) as [|x s'] eqn:E; [reflexivity|].
    cbn [prefix_ci List.length consume]. rewrite E.
    destruct (chr_eq true c x); [|reflexivity].
    rewrite IH by discriminate. reflexivity.
Qed.

Lemma alts_attempt ls :
  Forall (fun l => l <> []) ls ->
  forall k st, rmatch true (alts ls) k st = try_alts ls k st.
Proof.
  induction 1 as [|l ls Hl Hls IH]; intros k st.
  - simpl. destruct (rest st); reflexivity.
  - destruct ls as [|l' ls].
    + simpl alts. rewrite lit_attempt by exact Hl. simpl.
      destruct (prefix_ci l (rest st)); [|reflexivity].
      destruct (k (consume (List.length l) st)); reflexivity.
    + change (alts (l :: l' :: ls)) with (Alt (Lit l) (alts (l' :: ls))).
      cbn [rmatch]. rewrite lit_attempt by exact Hl. rewrite IH. reflexivity.
Qed.

Lemma re_stop_alts :
  re_stop = Seq Bnd (Seq (Grp 1 (alts stop_words)) Bnd).
Proof. reflexivity. Qed.

Lemma chr_eq_lower a x : Char.lower a = a ->
  chr_eq true a x = Ascii.eqb a (Char.lower x).
Proof. intros H. unfold chr_eq. rewrite H. reflexivity. Qed.

Lemma whole_word_eq l : good_literal l ->
  forall s,
    whole_word l s = str_eqb l (Str.lower (take_while Char.is_word s)).
Proof.
  unfold whole_word. intros [Hw Hl]. induction l as [|a l IH]; intros s.
  - simpl. destruct s as [|x s]; simpl; [reflexivity|].
    destruct (Char.is_word x); reflexivity.
  - inversion Hw as [|? ? Ha Hw']; subst. simpl in Hl.
    inversion Hl as [[Ha' Hl']]. rewrite Ha', Hl'.
    destruct s as [|x s]; [reflexivity|].
    cbn [prefix_ci List.length skipn take_while].
    rewrite chr_eq_lower by exact Ha'.
    destruct (Ascii.eqb a (Char.lower x)) eqn:E.
    + apply Ascii.eqb_eq in E. assert (Hx : Char.is_word x = true).
      { rewrite <- lower_is_word, <- E. exact Ha. }
      rewrite Hx. simpl. rewrite IH by assumption.
      unfold str_eqb. rewrite <- E.
      destruct (list_eq_dec ascii_dec l (Str.lower (take_while Char.is_word s)))
        as [e|n];
        destruct (list_eq_dec ascii_dec (a :: l)
                    (a :: Str.lower (take_while Char.is_word s))) as [e'|n'];
        try reflexivity.
      * exfalso. apply n'. f_equal. exact e.
      * exfalso. apply n. inversion e'. reflexivity.
    + simpl. symmetry. apply str_eqb_neq. destruct (Char.is_word x); simpl.
      * intros H. inversion H. apply Ascii.eqb_neq in E. contradiction.
      * discriminate.
Qed.

Lemma stop_words_good : Forall good_literal stop_words.
Proof.
  unfold stop_words, good_literal.
  repeat constructor.
Qed.

Lemma consume_rest n : forall st,
  rest (consume n st) = skipn n (rest st)
  /\ caps (consume n st) = caps st
  /\ (n <= List.length (rest st) -> pos (consume n st) = pos st + n)
  /\ prev (consume n st) = last_or (prev st) (firstn n (rest st)).
Proof.
  induction n as [|n IH]; intros st; simpl.
  - rewrite Nat.add_0_r. auto.
  - destruct (rest st) as [|x s'] eqn:E; simpl.
    + rewrite E. repeat split; try reflexivity. intros; lia.
    + destruct (IH (advance st x s')) as (R & C & P & V). simpl in *.
      repeat split; try assumption. intros H. rewrite P by lia. lia.
Qed.

Lemma prefix_ci_length l : forall s,
  prefix_ci l s = true -> List.length l <= List.length s.
Proof.
  induction l as [|a l IH]; intros s; simpl; [lia|].
  destruct s as [|x s]; [discriminate|]. intros H.
  apply andb_prop in H. destruct H as [_ H]. apply IH in H. simpl. lia.
Qed.

(** The last character of a matched literal is a word character. *)
Lemma prefix_ci_last l : good_literal l -> l <> [] ->
  forall s pv,
    prefix_ci l s = true ->
    wordb (last_or pv (firstn (List.length l) s)) = true.
Proof.
  intros [Hw Hl]. induction l as [|a l IH]; [congruence|]. intros _ s pv.
  inversion Hw as [|? ? Ha Hw']; subst. simpl in Hl.
  inversion Hl as [[Ha' Hl']]. rewrite Ha', Hl'.
  destruct s as [|x s]; [discriminate|]. cbn [prefix_ci List.length firstn last_or].
  rewrite chr_eq_lower by exact Ha'. intros H. apply andb_prop in H.
  destruct H as [E H]. apply Ascii.eqb_eq in E.
  destruct l as [|b l].
  - simpl. rewrite <- lower_is_word, <- E. exact Ha.
  - apply IH; try assumption. discriminate.
Qed.

Lemma stop_attempt_unfold pv s :
  match_at true re_stop pv s
  = if at_boundary (MState pv s 0 [])
    then try_alts stop_words (after_group s 0 Some) (MState pv s 0 [])
    else None.
Proof.
  unfold match_at. rewrite re_stop_alts. cbn [rmatch].
  destruct (at_boundary (MState pv s 0 [])); [|reflexivity].
  rewrite alts_attempt; [reflexivity|].
  unfold stop_words. repeat constructor; discriminate.
Qed.

Lemma try_alts_none ls (k : cont) st :
  Forall (fun l => prefix_ci l (rest st) = false) ls ->
  try_alts ls k st = None.
Proof.
  induction 1 as [|l ls Hl Hls IH]; simpl; [reflexivity|].
  rewrite Hl. exact IH.
Qed.

Lemma good_literal_no_prefix l c s :
  good_literal l -> l <> [] -> Char.is_word c = false ->
  prefix_ci l (c :: s) = false.
Proof.
  intros [Hw Hl] Hn Hc. destruct l as [|a l]; [congruence|].
  inversion Hw as [|? ? Ha Hw']; subst. simpl in Hl.
  injection Hl as Ha' Hl'. cbn [prefix_ci].
  rewrite chr_eq_lower by exact Ha'.
  destruct (Ascii.eqb a (Char.lower c)) eqn:E; [|reflexivity].
  apply Ascii.eqb_eq in E. rewrite <- lower_is_word, <- E in Hc. congruence.
Qed.

Lemma stop_words_nonempty : Forall (fun l : str => l <> []) stop_words.
Proof. unfold stop_words. repeat constructor; discriminate. Qed.

(** No stop word is found at a character that is not a word character. *)
Lemma stop_attempt_nonword pv c s :
  Char.is_word c = false -> match_at true re_stop pv (c :: s) = None.
Proof.
  intros Hc. rewrite stop_attempt_unfold.
  destruct (at_boundary (MState pv (c :: s) 0 [])); [|reflexivity].
  apply try_alts_none. simpl rest.
  pose proof stop_words_good as G. pose proof stop_words_nonempty as N.
  rewrite Forall_forall in *. intros l Hl.
  apply good_literal_no_prefix; auto.
Qed.

(** No stop word is found inside a word. *)
Lemma stop_attempt_inside pv c s :
  wordb pv = true -> Char.is_word c = true ->
  match_at true re_stop pv (c :: s) = None.
Proof.
  intros Hp Hc. rewrite stop_attempt_unfold. unfold at_boundary. simpl.
  rewrite Hp, Hc. reflexivity.
Qed.

Lemma lower_length s : List.length (Str.lower s) = List.length s.
Proof. apply length_map. Qed.

Lemma skipn_take_drop p s :
  skipn (List.length (take_while p s)) s = drop_while p s.
Proof.
  induction s as [|c s IH]; simpl; [reflexivity|].
  destruct (p c); simpl; [exact IH | reflexivity].
Qed.

(** One alternative, with the group's continuation. *)
Lemma alternative_attempt l pv s :
  good_literal l -> l <> [] ->
  let st0 := MState pv s 0 [] in
  (if prefix_ci l s
   then after_group s 0 Some (consume (List.length l) st0)
   else None)
  = if whole_word l s
    then Some (set_cap 1 (firstn (pos (consume (List.length l) st0)) s)
                 (consume (List.length l) st0))
    else None.
Proof.
  intros Hg Hn st0. unfold whole_word.
  destruct (prefix_ci l s) eqn:E; [|reflexivity]. simpl andb.
  unfold after_group. cbn [rmatch]. unfold at_boundary. cbn [prev rest set_cap].
  destruct (consume_rest (List.length l) st0) as (R & _ & _ & V).
  rewrite R, V. simpl rest. simpl prev.
  rewrite (prefix_ci_last l Hg Hn s pv E). rewrite Nat.sub_0_r.
  simpl xorb. destruct (wordb (hd_error (skipn (List.length l) s)));
    reflexivity.
Qed.

Lemma try_alts_word ls pv s :
  Forall good_literal ls -> Forall (fun l => l <> []) ls ->
  let st0 := MState pv s 0 [] in
  let w := take_while Char.is_word s in
  if str_in (Str.lower w) ls
  then exists st, try_alts ls (after_group s 0 Some) st0 = Some st
                  /\ rest st = drop_while Char.is_word s /\ 0 < pos st
  else try_alts ls (after_group s 0 Some) st0 = None.
Proof.
  intros Hg Hn. cbv zeta. induction ls as [|l ls IH]; [reflexivity|].
  inversion Hg as [|? ? Hgl Hg']; subst.
  inversion Hn as [|? ? Hnl Hn']; subst.
  cbn [try_alts str_in existsb]. simpl rest.
  rewrite (alternative_attempt l pv s Hgl Hnl).
  rewrite (whole_word_eq l Hgl).
  destruct (str_eqb l (Str.lower (take_while Char.is_word s))) eqn:E.
  - apply str_eqb_eq in E.
    assert (E' : str_eqb (Str.lower (take_while Char.is_word s)) l = true)
      by (apply str_eqb_eq; symmetry; exact E).
    rewrite E'. simpl.
    eexists. split; [reflexivity|].
    destruct (consume_rest (List.length l) (MState pv s 0 [])) as (R & _ & P & _).
    cbn [rest pos set_cap]. rewrite R. simpl rest.
    assert (Hlen : List.length l = List.length (take_while Char.is_word s)).
    { rewrite E at 1. apply lower_length. }
    split.
    + rewrite Hlen. apply skipn_take_drop.
    + simpl rest in P. simpl pos in P. rewrite P.
      * destruct l; [congruence | simpl; lia].
      * rewrite Hlen. rewrite (take_drop Char.is_word s) at 2.
        rewrite length_app. lia.
  - assert (E' : str_eqb (Str.lower (take_while Char.is_word s)) l = false).
    { apply str_eqb_neq. apply str_eqb_neq in E. congruence. }
    rewrite E'. simpl. apply IH; assumption.
Qed.

(** At the start of a word, a match is found exactly when the word is a
    stop word, and it consumes the word. *)
Lemma stop_attempt_word pv c s :
  wordb pv = false -> Char.is_word c = true ->
  if is_stop_word (take_while Char.is_word (c :: s))
  then exists st, match_at true re_stop pv (c :: s) = Some st
                  /\ rest st = drop_while Char.is_word (c :: s) /\ 0 < pos st
  else match_at true re_stop pv (c :: s) = None.
Proof.
  intros Hp Hc. rewrite stop_attempt_unfold. unfold at_boundary.
  cbn [prev rest hd_error wordb]. rewrite Hp, Hc. simpl xorb. cbv iota.
  apply (try_alts_word stop_words pv (c :: s) stop_words_good
           stop_words_nonempty).
Qed.

(** The scan inside a word that has not matched emits the word. *)
Lemma sub_stop_inside w : Forall (fun c => Char.is_word c = true) w ->
  forall pv t, wordb pv = true ->
    sub_go true re_stop [] 0 pv (w ++ t)
    = w ++ sub_go true re_stop [] 0 (last_or pv w) t.
Proof.
  induction 1 as [|c w Hc Hw IH]; intros pv t Hp; [reflexivity|].
  simpl app. rewrite sub_go_miss by (apply stop_attempt_inside; assumption).
  f_equal. simpl last_or. apply IH. exact Hc.
Qed.

Lemma keep_nil : keep [] = [].
Proof. reflexivity. Qed.

(** The direct definition, word by word. *)
Lemma drop_stop_word w : Forall (fun c => Char.is_word c = true) w ->
  forall acc t,
    wordb (hd_error t) = false ->
    drop_stop_from acc (w ++ t) = keep (rev w ++ acc) ++ drop_stop_from [] t.
Proof.
  induction 1 as [|c w Hc Hw IH]; intros acc t Ht.
  - simpl. destruct t as [|x t]; simpl.
    + rewrite app_nil_r. reflexivity.
    + simpl in Ht. rewrite Ht. reflexivity.
  - simpl app. cbn [drop_stop_from]. rewrite Hc. rewrite IH by exact Ht.
    simpl rev. rewrite <- app_assoc. reflexivity.
Qed.

Lemma drop_while_word_head s :
  wordb (hd_error (drop_while Char.is_word s)) = false.
Proof.
  destruct (drop_while Char.is_word s) as [|x t] eqn:E; [reflexivity|].
  simpl. eapply drop_while_head. exact E.
Qed.

Lemma sub_stop_from n :
  forall s pv,
    List.length s <= n ->
    wordb pv && wordb (hd_error s) = false ->
    sub_go true re_stop [] 0 pv s = drop_stop_from [] s.
Proof.
  induction n as [|n IH]; intros s pv Hle Hb.
  - destruct s; [reflexivity | simpl in Hle; lia].
  - destruct s as [|c s]; [reflexivity|]. simpl in Hle, Hb.
    destruct (Char.is_word c) eqn:Hc.
    + rewrite andb_true_r in Hb.
      pose proof (stop_attempt_word pv c s Hb Hc) as H.
      pose proof (take_drop Char.is_word (c :: s)) as Hs.
      pose proof (take_while_all Char.is_word (c :: s)) as Hw.
      pose proof (drop_while_word_head (c :: s)) as Ht.
      assert (Hl' : List.length (drop_while Char.is_word (c :: s)) <= n).
      { pose proof (drop_while_length Char.is_word s) as Hl.
        simpl. rewrite Hc. lia. }
      assert (Hw1 : take_while Char.is_word (c :: s)
                    = c :: take_while Char.is_word s)
        by (simpl; rewrite Hc; reflexivity).
      remember (drop_while Char.is_word (c :: s)) as t eqn:Et.
      remember (take_while Char.is_word (c :: s)) as w eqn:Ew.
      assert (Hd : drop_stop_from [] (c :: s) = keep (rev w) ++ drop_stop_from [] t).
      { rewrite Hs. rewrite (drop_stop_word _ Hw [] _ Ht).
        rewrite app_nil_r. reflexivity. }
      rewrite Hd. unfold keep. rewrite rev_involutive.
      destruct (is_stop_word w).
      * destruct H as (st & Hm & Hr & Hp).
        destruct (sub_go_hit true re_stop [] _ _ _ _ Hm Hp) as [E _].
        rewrite E, Hr. rewrite !app_nil_l. apply IH; [exact Hl'|].
        rewrite Ht. apply andb_false_r.
      * rewrite sub_go_miss by exact H.
        rewrite Hw1 in Hs, Hw |- *. rewrite <- app_comm_cons. f_equal.
        inversion Hw as [|? ? _ Hw']; subst.
        rewrite <- app_comm_cons in Hs. injection Hs as Hs'.
        rewrite Hs' at 1.
        rewrite sub_stop_inside by (try exact Hw'; simpl; exact Hc).
        f_equal. apply IH; [exact Hl'|]. rewrite Ht. apply andb_false_r.
    + rewrite sub_go_miss by (apply stop_attempt_nonword; exact Hc).
      cbn [drop_stop_from]. rewrite Hc, keep_nil. rewrite app_nil_l. f_equal.
      apply IH; [lia|]. simpl. rewrite Hc. reflexivity.
Qed.

(** The second substitution removes the stop words. *)
Lemma sub_stop s : Re.sub true re_stop [] s = drop_stop_words s.
Proof.
  unfold Re.sub, drop_stop_words.
  apply sub_stop_from with (n := List.length s); [lia | reflexivity].
Qed.

End StopRefine.

(** ** Words, tokens and whitespace *)

Module Tokens.

Import CleanSpec ReScan StopRefine.
Import NoMention.

Lemma space_not_word c : Char.is_space c = true -> Char.is_word c = false.
Proof. all_chars c; simpl; intros H; try reflexivity; discriminate H. Qed.

Lemma upper_is_space c : Char.is_space (Char.upper c) = Char.is_space c.
Proof. all_chars c; reflexivity. Qed.

Lemma lower_is_space c : Char.is_space (Char.lower c) = Char.is_space c.
Proof. all_chars c; reflexivity. Qed.

Lemma upper_is_digit c : Char.is_digit (Char.upper c) = Char.is_digit c.
Proof. all_chars c; reflexivity. Qed.

Lemma lower_upper c : Char.lower (Char.upper c) = Char.lower c.
Proof. all_chars c; reflexivity. Qed.

Lemma upper_upper c : Char.upper (Char.upper c) = Char.upper c.
Proof. all_chars c; reflexivity. Qed.

(** *** [split] *)

Lemma flush_cons c acc : Str.flush (c :: acc) = [rev (c :: acc)].
Proof. reflexivity. Qed.

Lemma rev_cons_nonempty (c : ascii) acc : rev (c :: acc) <> [].
Proof. simpl. destruct (rev acc); discriminate. Qed.

Lemma flush_token acc : Forall no_space acc -> Forall token (Str.flush acc).
Proof.
  intros H. destruct acc as [|c acc]; [constructor|].
  rewrite flush_cons. constructor; [|constructor]. split.
  - apply rev_cons_nonempty.
  - apply Forall_rev. exact H.
Qed.

Lemma split_go_tokens s : forall acc,
  Forall no_space acc -> Forall token (Str.split_go acc s).
Proof.
  induction s as [|c s IH]; intros acc Ha; simpl.
  - apply flush_token. exact Ha.
  - destruct (Char.is_space c) eqn:E.
    + apply Forall_app. split; [apply flush_token; exact Ha|].
      apply IH. constructor.
    + apply IH. constructor; assumption.
Qed.

Lemma split_tokens s : Forall token (Str.split s).
Proof. apply split_go_tokens. constructor. Qed.

(** The characters of the tokens are characters of the text. *)
Lemma split_go_chars (P : ascii -> Prop) s : forall acc,
  Forall P acc -> Forall P s -> Forall (Forall P) (Str.split_go acc s).
Proof.
  assert (F : forall acc, Forall P acc -> Forall (Forall P) (Str.flush acc)).
  { intros acc H. destruct acc as [|c acc]; [constructor|].
    rewrite flush_cons. constructor; [|constructor]. apply Forall_rev.
    exact H. }
  induction s as [|c s IH]; intros acc Ha Hs; simpl; [apply F; exact Ha|].
  inversion Hs; subst.
  destruct (Char.is_space c).
  - apply Forall_app. split; [apply F; exact Ha|]. apply IH; [constructor|].
    assumption.
  - apply IH; [constructor|]; assumption.
Qed.

Lemma split_go_token t : Forall no_space t ->
  forall acc s, Str.split_go acc (t ++ s) = Str.split_go (rev t ++ acc) s.
Proof.
  induction 1 as [|c t Hc Ht IH]; intros acc s; [reflexivity|].
  simpl. rewrite Hc. rewrite IH. rewrite <- app_assoc. reflexivity.
Qed.

Lemma flush_rev t : t <> [] -> Str.flush (rev t) = [t].
Proof.
  intros H. destruct (rev t) as [|c a] eqn:E.
  - apply (f_equal (@rev ascii)) in E. rewrite rev_involutive in E.
    simpl in E. congruence.
  - rewrite flush_cons, <- E, rev_involutive. reflexivity.
Qed.

(** Splitting what [join] made gives the tokens back. *)
Lemma split_join ts : Forall token ts ->
  Str.split (Str.join (L " ") ts) = ts.
Proof.
  unfold Str.split. induction 1 as [|t ts [Hn Ht] Hts IH]; [reflexivity|].
  destruct ts as [|t' ts].
  - simpl Str.join. rewrite <- (app_nil_r t) at 1.
    rewrite split_go_token by exact Ht. rewrite app_nil_r.
    simpl Str.split_go. apply flush_rev. exact Hn.
  - change (Str.join (L " ") (t :: t' :: ts))
      with (t ++ " "%char :: Str.join (L " ") (t' :: ts)).
    rewrite split_go_token by exact Ht. rewrite app_nil_r.
    cbn [Str.split_go]. change (Char.is_space " ") with true. cbv iota.
    rewrite flush_rev by exact Hn. simpl app. f_equal. exact IH.
Qed.

Lemma split_go_spaces ws : Forall (fun c => Char.is_space c = true) ws ->
  forall acc, Str.split_go acc ws = Str.flush acc.
Proof.
  induction 1 as [|c ws Hc Hws IH]; intros acc; [reflexivity|].
  simpl. rewrite Hc, IH. simpl. apply app_nil_r.
Qed.

Lemma split_go_trailing ws : Forall (fun c => Char.is_space c = true) ws ->
  forall s acc, Str.split_go acc (s ++ ws) = Str.split_go acc s.
Proof.
  intros Hws. induction s as [|c s IH]; intros acc; simpl.
  - apply split_go_spaces. exact Hws.
  - destruct (Char.is_space c); rewrite IH; reflexivity.
Qed.

Lemma split_lstrip s : Str.split (Str.lstrip s) = Str.split s.
Proof.
  unfold Str.split. induction s as [|c s IH]; simpl; [reflexivity|].
  destruct (Char.is_space c) eqn:E; [exact IH|]. simpl. rewrite E.
  reflexivity.
Qed.

Lemma lstrip_prefix s :
  exists ws, Forall (fun c => Char.is_space c = true) ws
             /\ s = ws ++ Str.lstrip s.
Proof.
  induction s as [|c s (ws & Hws & E)]; [exists []; split; [constructor|reflexivity]|].
  simpl. destruct (Char.is_space c) eqn:Ec.
  - exists (c :: ws). split; [constructor; assumption|]. simpl. f_equal. exact E.
  - exists []. split; [constructor | reflexivity].
Qed.

Lemma rstrip_suffix s :
  exists ws, Forall (fun c => Char.is_space c = true) ws
             /\ s = Str.rstrip s ++ ws.
Proof.
  unfold Str.rstrip. destruct (lstrip_prefix (rev s)) as (ws & Hws & E).
  exists (rev ws). split; [apply Forall_rev; exact Hws|].
  rewrite <- rev_app_distr, <- E, rev_involutive. reflexivity.
Qed.

Lemma split_rstrip s : Str.split (Str.rstrip s) = Str.split s.
Proof.
  destruct (rstrip_suffix s) as (ws & Hws & E). unfold Str.split.
  rewrite E at 2. rewrite split_go_trailing by exact Hws. reflexivity.
Qed.

Lemma split_strip s : Str.split (Str.strip s) = Str.split s.
Proof. unfold Str.strip. rewrite split_rstrip. apply split_lstrip. Qed.

Lemma split_collapse_from s : forall b acc,
  (b = true -> acc = []) ->
  Str.split_go acc (collapse_from b s) = Str.split_go acc s.
Proof.
  induction s as [|c s IH]; intros b acc Hb; simpl; [reflexivity|].
  destruct (Char.is_space c) eqn:E.
  - destruct b.
    + rewrite (Hb eq_refl). simpl. apply IH. auto.
    + simpl. f_equal. apply IH. auto.
  - simpl. rewrite E. apply IH. discriminate.
Qed.

Lemma split_collapse s : Str.split (collapse s) = Str.split s.
Proof. apply split_collapse_from. discriminate. Qed.

(** The whitespace step does not change the tokens. *)
Lemma split_normalised s :
  Str.split (Str.strip (collapse s)) = Str.split s.
Proof. rewrite split_strip. apply split_collapse. Qed.

(** *** [join] *)

Lemma join_chars (P : ascii -> Prop) ts :
  P " "%char -> Forall (Forall P) ts -> Forall P (Str.join (L " ") ts).
Proof.
  intros Hsp. induction 1 as [|t ts Ht Hts IH]; [constructor|].
  destruct ts as [|t' ts]; [exact Ht|].
  change (Str.join (L " ") (t :: t' :: ts))
    with (t ++ L " " ++ Str.join (L " ") (t' :: ts)).
  apply Forall_app. split; [exact Ht|]. constructor; assumption.
Qed.

Lemma join_nil ts : Forall token ts -> Str.join (L " ") ts = [] -> ts = [].
Proof.
  intros H E. destruct H as [|t ts [Hn _] _]; [reflexivity|].
  exfalso. destruct ts as [|t' ts]; simpl in E.
  - congruence.
  - destruct t; [congruence | discriminate].
Qed.

(** *** Title-casing *)

Lemma title_is_capitalize w : title_word w = Str.capitalize w.
Proof. reflexivity. Qed.

Lemma title_token t : token t -> token (title_word t).
Proof.
  intros [Hn Ht]. destruct t as [|c t]; [congruence|]. split; [discriminate|].
  inversion Ht; subst. simpl. constructor.
  - unfold no_space. rewrite upper_is_space. assumption.
  - apply Forall_map. eapply Forall_impl; [|eassumption].
    intros a Ha. unfold no_space. rewrite lower_is_space. exact Ha.
Qed.

Lemma title_title t : title_word (title_word t) = title_word t.
Proof.
  destruct t as [|c t]; [reflexivity|]. simpl. rewrite upper_upper. f_equal.
  rewrite map_map. apply map_ext. intros a. apply lower_lower.
Qed.

Lemma lower_title t : Str.lower (title_word t) = Str.lower t.
Proof.
  destruct t as [|c t]; [reflexivity|]. unfold Str.lower. simpl.
  rewrite lower_upper. f_equal.
  rewrite map_map. apply map_ext. intros a. apply lower_lower.
Qed.

Lemma title_no_digit t :
  Forall (fun c => Char.is_digit c = false) t ->
  Forall (fun c => Char.is_digit c = false) (title_word t).
Proof.
  intros H. destruct t as [|c t]; [constructor|]. inversion H; subst.
  simpl. constructor; [rewrite upper_is_digit; assumption|].
  apply Forall_map. eapply Forall_impl; [|eassumption].
  intros a Ha. simpl. rewrite lower_is_digit. exact Ha.
Qed.

End Tokens.

(** ** The words of a text under the steps of the normaliser *)

Module WordFacts.

Import CleanSpec ReScan StopRefine Tokens.
Import NoMention.

Lemma words_app_sep a : forall acc c b,
  Char.is_word c = false ->
  words_from acc (a ++ c :: b) = words_from acc a ++ words_from [] b.
Proof.
  induction a as [|x a IH]; intros acc c b Hc; simpl.
  - rewrite Hc. reflexivity.
  - destruct (Char.is_word x); [apply IH; exact Hc|].
    rewrite IH by exact Hc. apply app_assoc.
Qed.

Lemma words_word w : word_chars w ->
  forall acc, words_from acc w = Str.flush (rev w ++ acc).
Proof.
  induction 1 as [|c w Hc Hw IH]; intros acc; [reflexivity|].
  simpl. rewrite Hc, IH. rewrite <- app_assoc. reflexivity.
Qed.

(** The words of a text are the words of its tokens. *)
Lemma words_split_go s : forall acc,
  words_from [] (rev acc ++ s) = flat_map words (Str.split_go acc s).
Proof.
  assert (F : forall acc, flat_map words (Str.flush acc) = words (rev acc)).
  { intros [|c acc]; [reflexivity|]. rewrite flush_cons. simpl flat_map.
    apply app_nil_r. }
  induction s as [|c s IH]; intros acc; simpl.
  - rewrite app_nil_r. symmetry. apply F.
  - destruct (Char.is_space c) eqn:E.
    + rewrite words_app_sep by (apply space_not_word; exact E).
      rewrite flat_map_app, F. f_equal. apply (IH []).
    + rewrite <- IH. simpl. rewrite <- app_assoc. reflexivity.
Qed.

Lemma words_split s : words s = flat_map words (Str.split s).
Proof. apply (words_split_go s []). Qed.

Lemma words_join ts : words (Str.join (L " ") ts) = flat_map words ts.
Proof.
  induction ts as [|t ts IH]; [reflexivity|].
  destruct ts as [|t' ts]; [simpl; symmetry; apply app_nil_r|].
  change (Str.join (L " ") (t :: t' :: ts))
    with (t ++ " "%char :: Str.join (L " ") (t' :: ts)).
  unfold words at 1. rewrite words_app_sep by reflexivity.
  fold (words t). fold (words (Str.join (L " ") (t' :: ts))).
  rewrite IH. reflexivity.
Qed.

Lemma words_lower s : forall acc,
  words_from (Str.lower acc) (Str.lower s)
  = map Str.lower (words_from acc s).
Proof.
  assert (F : forall acc, Str.flush (Str.lower acc)
                          = map Str.lower (Str.flush acc)).
  { intros [|c acc]; [reflexivity|]. unfold Str.lower at 1. simpl map at 1.
    rewrite !flush_cons. simpl map. f_equal.
    change (Char.lower c :: map Char.lower acc) with (map Char.lower (c :: acc)).
    rewrite <- map_rev. reflexivity. }
  induction s as [|c s IH]; intros acc; simpl; [apply F|].
  rewrite lower_is_word. destruct (Char.is_word c).
  - apply (IH (c :: acc)).
  - rewrite map_app, F. f_equal. apply (IH []).
Qed.

Lemma lower_idem s : Str.lower (Str.lower s) = Str.lower s.
Proof.
  unfold Str.lower. rewrite map_map. apply map_ext. apply lower_lower.
Qed.

Lemma not_stop_lower w : not_stop (Str.lower w) <-> not_stop w.
Proof. unfold not_stop, is_stop_word. rewrite lower_idem. tauto. Qed.

(** Title-casing a token leaves its words free of stop words. *)
Lemma title_not_stop t :
  Forall not_stop (words t) -> Forall not_stop (words (title_word t)).
Proof.
  intros H.
  assert (E : map Str.lower (words (title_word t)) = map Str.lower (words t)).
  { unfold words. rewrite <- !(words_lower _ []). rewrite lower_title.
    reflexivity. }
  assert (G : forall l, Forall not_stop (map Str.lower l) <-> Forall not_stop l).
  { intros l. rewrite Forall_map. split; apply Forall_impl; intros w;
      apply not_stop_lower. }
  apply G. rewrite E. apply G. exact H.
Qed.

Lemma not_stop_nil : is_stop_word [] = false.
Proof. reflexivity. Qed.

Lemma keep_words acc : word_chars acc -> Forall not_stop (words (keep acc)).
Proof.
  intros Ha. unfold keep. destruct (is_stop_word (rev acc)) eqn:E;
    [constructor|].
  unfold words. rewrite words_word by (apply Forall_rev; exact Ha).
  rewrite app_nil_r, rev_involutive. destruct acc as [|c acc]; [constructor|].
  rewrite flush_cons. constructor; [exact E | constructor].
Qed.

(** After the stop-word step no word of the text is a stop word. *)
Lemma drop_stop_words_clean s : forall acc,
  word_chars acc -> Forall not_stop (words (drop_stop_from acc s)).
Proof.
  induction s as [|c s IH]; intros acc Ha; simpl.
  - apply keep_words. exact Ha.
  - destruct (Char.is_word c) eqn:E.
    + apply IH. constructor; assumption.
    + unfold words. rewrite words_app_sep by exact E.
      apply Forall_app. split; [apply keep_words; exact Ha|].
      apply IH. constructor.
Qed.

(** A text none of whose words is a stop word is left alone. *)
Lemma drop_stop_fixed s : forall acc,
  Forall not_stop (words_from acc s) ->
  drop_stop_from acc s = rev acc ++ s.
Proof.
  assert (K : forall acc, Forall not_stop (Str.flush acc) -> keep acc = rev acc).
  { intros [|c acc] H; [reflexivity|]. rewrite flush_cons in H.
    apply Forall_inv in H. unfold not_stop in H. unfold keep.
    rewrite H. reflexivity. }
  induction s as [|c s IH]; intros acc H; simpl in *.
  - rewrite app_nil_r. apply K. exact H.
  - destruct (Char.is_word c).
    + rewrite IH by exact H. simpl. rewrite <- app_assoc. reflexivity.
    + apply Forall_app in H. destruct H as [H1 H2].
      rewrite (K _ H1), (IH [] H2). reflexivity.
Qed.

(** *** Digits *)

Lemma strip_numerals_digit_free s : forall q,
  digit_free (strip_numerals_from q s).
Proof.
  unfold digit_free. induction s as [|c s IH]; intros q; simpl; [constructor|].
  destruct (Char.is_digit c) eqn:E.
  - destruct q; apply IH.
  - destruct q; repeat match goal with
      | |- context [if ?b then _ else _] => destruct b
      end; try apply IH; constructor; auto.
Qed.

Lemma strip_numerals_fixed s :
  digit_free s -> strip_numerals_from Outside s = s.
Proof.
  induction 1 as [|c s Hc Hs IH]; simpl; [reflexivity|].
  rewrite Hc, IH. reflexivity.
Qed.

Lemma keep_chars (P : ascii -> Prop) acc : Forall P acc -> Forall P (keep acc).
Proof.
  intros H. unfold keep. destruct (is_stop_word (rev acc)); [constructor|].
  apply Forall_rev. exact H.
Qed.

Lemma drop_stop_chars (P : ascii -> Prop) s : forall acc,
  Forall P acc -> Forall P s -> Forall P (drop_stop_from acc s).
Proof.
  induction s as [|c s IH]; intros acc Ha Hs; simpl.
  - apply keep_chars. exact Ha.
  - inversion Hs; subst. destruct (Char.is_word c).
    + apply IH; [constructor|]; assumption.
    + apply Forall_app. split; [apply keep_chars; exact Ha|].
      constructor; [assumption|]. apply IH; [constructor | assumption].
Qed.

End WordFacts.

(** ** Claims on the name normaliser *)

Module NormaliserClaims.

Import CleanSpec CleanRefine StopRefine Tokens WordFacts.

(** The source's definition computes the four steps. *)
Lemma clean_food_name_steps s : clean_food_name s = clean_steps s.
Proof.
  unfold clean_food_name, clean_steps.
  rewrite sub_number, sub_stop, sub_spaces. reflexivity.
Qed.

(** The normalised name in terms of the tokens left by steps 1 and 2. *)
Lemma clean_steps_tokens s :
  clean_steps s
  = Str.join (L " ")
      (map title_word (Str.split (drop_stop_words (strip_numerals s)))).
Proof. unfold clean_steps. rewrite split_normalised. reflexivity. Qed.

(** C3, as stated, fails in the title-casing: the letters after the first
    are lower-cased, not left as they are.  "chicken BREAST" becomes
    Chicken Breast, where the stated rule gives Chicken BREAST. *)
Lemma C3_rest_is_lowercased :
  clean_food_name (L "chicken BREAST") = L "Chicken Breast"
  /\ Str.join (L " ")
       (map title_word_keeping_case (Str.split (L "chicken BREAST")))
     = L "Chicken BREAST"
  /\ clean_food_name (L "chicken BREAST") <> L "Chicken BREAST".
Proof.
  split; [vm_compute; reflexivity|]. split; [vm_compute; reflexivity|].
  vm_compute. discriminate.
Qed.

(** C3, amended: for every phrase the normaliser computes the four steps:
    it strips the numerals (digit runs with an optional decimal part,
    together with the whitespace after them), leaving no digit; removes the
    stop words as whole words, letter case ignored, leaving no stop word;
    collapses whitespace and trims; and title-cases each remaining word by
    upper-casing its first letter and lower-casing the others.  The output
    is empty exactly when no token survives. *)
Theorem C3_normaliser_steps (s : str) :
  clean_food_name s = clean_steps s
  /\ digit_free (strip_numerals s)
  /\ Forall not_stop (words (drop_stop_words (strip_numerals s)))
  /\ Str.split (Str.strip (collapse (drop_stop_words (strip_numerals s))))
     = Str.split (drop_stop_words (strip_numerals s))
  /\ (forall c w, title_word (c :: w) = Char.upper c :: map Char.lower w)
  /\ (clean_food_name s = []
      <-> Str.split (drop_stop_words (strip_numerals s)) = []).
Proof.
  split; [apply clean_food_name_steps|].
  split; [apply strip_numerals_digit_free|].
  split; [apply drop_stop_words_clean; constructor|].
  split; [apply split_normalised|].
  split; [reflexivity|].
  rewrite clean_food_name_steps, clean_steps_tokens. split.
  - intros H. apply join_nil in H.
    + destruct (Str.split (drop_stop_words (strip_numerals s)));
        [reflexivity | discriminate].
    + apply Forall_map. eapply Forall_impl; [|apply split_tokens].
      intros t. apply title_token.
  - intros ->. reflexivity.
Qed.

(** The normalised name: title-cased tokens joined by single spaces. *)
Lemma clean_steps_shape s :
  exists ts,
    clean_steps s = Str.join (L " ") (map title_word ts)
    /\ Forall token ts
    /\ Forall digit_free ts
    /\ Forall (fun t => Forall not_stop (words t)) ts.
Proof.
  exists (Str.split (drop_stop_words (strip_numerals s))).
  split; [apply clean_steps_tokens|]. split; [apply split_tokens|]. split.
  - apply split_go_chars; [constructor|]. apply drop_stop_chars; [constructor|].
    apply strip_numerals_digit_free.
  - pose proof (drop_stop_words_clean (strip_numerals s) []
                  ltac:(constructor)) as H.
    fold (drop_stop_words (strip_numerals s)) in H.
    rewrite words_split in H. rewrite Forall_flat_map in H. exact H.
Qed.

(** On ASCII texts the name normaliser is idempotent. *)
Lemma clean_twice (s : str) :
  clean_food_name (clean_food_name s) = clean_food_name s.
Proof.
  rewrite !clean_food_name_steps.
  destruct (clean_steps_shape s) as (ts & E & Ht & Hd & Hs). rewrite E.
  set (o := Str.join (L " ") (map title_word ts)).
  assert (Htt : Forall token (map title_word ts)).
  { apply Forall_map. eapply Forall_impl; [|exact Ht].
    intros t. apply title_token. }
  assert (H1 : strip_numerals o = o).
  { apply strip_numerals_fixed. apply join_chars; [reflexivity|].
    apply Forall_map. eapply Forall_impl; [|exact Hd].
    intros t. apply title_no_digit. }
  assert (H2 : drop_stop_words o = o).
  { unfold drop_stop_words. rewrite drop_stop_fixed; [reflexivity|].
    fold (words o). unfold o. rewrite words_join. apply Forall_flat_map.
    apply Forall_map. eapply Forall_impl; [|exact Hs].
    intros t. apply title_not_stop. }
  rewrite clean_steps_tokens, H1, H2. unfold o.
  rewrite split_join by exact Htt.
  rewrite map_map. f_equal. apply map_ext. apply title_title.
Qed.

End NormaliserClaims.

(** ** Counting characters *)

Module Counting.

Import Difflib.
Import NoMention.

Lemma sum_chars_ext f g : (forall c, f c = g c) -> sum_chars f = sum_chars g.
Proof.
  intros H. unfold sum_chars. f_equal. apply map_ext. exact H.
Qed.

Lemma sum_chars_le f g : (forall c, f c <= g c) -> sum_chars f <= sum_chars g.
Proof.
  intros H. unfold sum_chars. induction all_chars_list as [|c l IH]; simpl;
    [lia|]. specialize (H c). lia.
Qed.

Lemma sum_chars_add f g :
  sum_chars (fun c => f c + g c) = sum_chars f + sum_chars g.
Proof.
  unfold sum_chars. induction all_chars_list as [|c l IH]; simpl; [lia|].
  rewrite IH. lia.
Qed.

Lemma sum_chars_zero : sum_chars (fun _ => 0) = 0.
Proof.
  unfold sum_chars. induction all_chars_list as [|c l IH]; simpl; [lia|].
  exact IH.
Qed.

Lemma sum_chars_indicator d : sum_chars (indicator d) = 1.
Proof. all_chars d; vm_compute; reflexivity. Qed.

Lemma count_cons c d s : count c (d :: s) = indicator d c + count c s.
Proof. unfold count, indicator. simpl. destruct (ascii_dec d c); reflexivity. Qed.

Lemma count_app c s t : count c (s ++ t) = count c s + count c t.
Proof. unfold count. apply count_occ_app. Qed.

Lemma sum_chars_count s : sum_chars (fun c => count c s) = List.length s.
Proof.
  induction s as [|d s IH]; [apply sum_chars_zero|].
  rewrite (sum_chars_ext _ (fun c => indicator d c + count c s))
    by (intros c; apply count_cons).
  rewrite sum_chars_add, sum_chars_indicator, IH. reflexivity.
Qed.

Lemma common_chars_le_l x y : common_chars x y <= List.length x.
Proof.
  rewrite <- (sum_chars_count x). apply sum_chars_le. intros c. lia.
Qed.

Lemma common_chars_le_r x y : common_chars x y <= List.length y.
Proof.
  rewrite <- (sum_chars_count y). apply sum_chars_le. intros c. lia.
Qed.

(** A shared middle part counts in full. *)
Lemma common_chars_split x1 m x2 y1 y2 :
  common_chars x1 y1 + List.length m + common_chars x2 y2
  <= common_chars (x1 ++ m ++ x2) (y1 ++ m ++ y2).
Proof.
  unfold common_chars. rewrite <- (sum_chars_count m).
  rewrite <- !sum_chars_add. apply sum_chars_le. intros c.
  rewrite !count_app. lia.
Qed.

Lemma sum_chars_scale n f : sum_chars (fun c => n * f c) = n * sum_chars f.
Proof.
  unfold sum_chars. induction all_chars_list as [|c l IH]; simpl; [lia|].
  rewrite IH. lia.
Qed.

Lemma sum_chars_bump e n g :
  sum_chars (fun c => n * indicator e c + g c) = n + sum_chars g.
Proof.
  rewrite sum_chars_add, sum_chars_scale, sum_chars_indicator. lia.
Qed.

Lemma quick_matches_sum b a : forall avail,
  quick_matches b avail a
  = sum_chars (fun c => Nat.min (count c a) (Z.to_nat (avail_get b avail c))).
Proof.
  induction a as [|e a IH]; intros avail.
  - simpl. symmetry. rewrite <- sum_chars_zero. apply sum_chars_ext.
    intros c. reflexivity.
  - cbn [quick_matches]. fold (avail_get b avail e). rewrite IH.
    set (numb := avail_get b avail e).
    rewrite <- sum_chars_bump with (e := e). apply sum_chars_ext. intros c.
    rewrite count_cons. unfold indicator, avail_get at 1. simpl find.
    destruct (ascii_dec e c) as [E|N].
    + subst c. rewrite Ascii.eqb_refl. simpl snd. fold numb.
      destruct (0 <? numb)%Z eqn:E.
      * apply Z.ltb_lt in E. lia.
      * apply Z.ltb_ge in E. lia.
    + assert (E : Ascii.eqb c e = false)
        by (apply Ascii.eqb_neq; congruence).
      rewrite E. fold (avail_get b avail c). lia.
Qed.

Lemma quick_matches_common a b : quick_matches b [] a = common_chars a b.
Proof.
  rewrite quick_matches_sum. apply sum_chars_ext. intros c.
  unfold avail_get. simpl. rewrite Nat2Z.id. reflexivity.
Qed.

End Counting.

(** ** [find_longest_match] returns a common block of the two ranges *)

Module LongestMatch.

Import Difflib.

Section Ranges.

Variables a b : str.
Variables alo ahi blo bhi : nat.

Local Abbreviation blockW := (block a b).
Local Abbreviation best_okW := (best_ok a b alo blo bhi).
Local Abbreviation endsW := (ends a b alo blo bhi).
Local Abbreviation row_okW := (row_ok a b alo blo bhi).

Lemma next_row_nth ai bs : forall j diag row t,
  nth t (next_row b ai blo bhi j bs diag row) 0
  = match nth_error bs t with
    | None => 0
    | Some bj =>
        if (blo <=? j + t) && (j + t <? bhi) && Ascii.eqb ai bj
           && negb (popular b ai)
        then S (match t with O => diag | S t' => nth t' row 0 end)
        else 0
    end.
Proof.
  induction bs as [|bj bs IH]; intros j diag row t.
  - destruct t; reflexivity.
  - destruct t as [|t]; cbn [next_row nth nth_error].
    + rewrite Nat.add_0_r. reflexivity.
    + rewrite IH. replace (S j + t) with (j + S t) by lia.
      destruct (nth_error bs t); [|reflexivity].
      destruct ((blo <=? j + S t) && (j + S t <? bhi) && Ascii.eqb ai a0
                && negb (popular b ai)); [|reflexivity].
      f_equal. destruct row as [|r row]; destruct t as [|t]; try reflexivity.
      simpl. destruct t; reflexivity.
Qed.

Lemma next_row_ok i ai row :
  alo <= i -> nth_error a i = Some ai -> row_okW i row ->
  row_okW (S i) (next_row b ai blo bhi 0 b 0 row).
Proof.
  intros Hi Hai Hrow j. rewrite next_row_nth. simpl plus.
  destruct (nth_error b j) as [bj|] eqn:Hbj; [|left; reflexivity].
  destruct ((blo <=? j) && (j <? bhi) && Ascii.eqb ai bj
            && negb (popular b ai)) eqn:C; [|left; reflexivity].
  apply andb_prop in C. destruct C as [C _].
  apply andb_prop in C. destruct C as [C Hc].
  apply andb_prop in C. destruct C as [C1 C2].
  apply Nat.leb_le in C1. apply Nat.ltb_lt in C2.
  apply Ascii.eqb_eq in Hc. subst bj. right.
  assert (Hlast : forall k, k <= i -> k <= j ->
            blockW (i - k) (j - k) k -> blockW (S i - S k) (S j - S k) (S k)).
  { intros k Hki Hkj Hb d Hd. simpl Nat.sub.
    destruct (Nat.eq_dec d k) as [->|N].
    - exists ai. replace (i - k + k) with i by lia.
      replace (j - k + k) with j by lia. auto.
    - apply Hb. lia. }
  destruct j as [|j'].
  - split; [lia|]. split; [lia|]. split; [lia|].
    apply (Hlast 0); [lia | lia |]. intros d Hd. lia.
  - destruct (Hrow j') as [E|(E1 & E2 & E3 & E4)].
    + rewrite E. split; [lia|]. split; [lia|]. split; [lia|].
      apply (Hlast 0); [lia | lia |]. intros d Hd. lia.
    + split; [lia|]. split; [lia|]. split; [lia|].
      apply Hlast; [lia | lia |].
      replace (S j' - nth j' row 0) with (S j' - nth j' row 0) by lia.
      exact E4.
Qed.

Lemma scan_row_ok hi i : S i <= hi ->
  forall row j best,
    (forall t, endsW (S i) (j + t) (nth t row 0)) ->
    best_okW hi best -> best_okW hi (scan_row i j row best).
Proof.
  intros Hhi. induction row as [|k row IH]; intros j best Hrow Hbest;
    [exact Hbest|].
  cbn [scan_row]. apply IH.
  - intros t. replace (S j + t) with (j + S t) by lia. apply (Hrow (S t)).
  - destruct (snd best <? k) eqn:E; [|exact Hbest].
    apply Nat.ltb_lt in E. specialize (Hrow 0). cbn [nth] in Hrow.
    rewrite Nat.add_0_r in Hrow.
    destruct Hrow as [->|(E1 & E2 & E3 & E4)]; [lia|].
    unfold best_ok.
    split; [lia|]. split; [lia|]. split; [lia|]. split; [lia | exact E4].
Qed.

Lemma slice_head i x xs :
  firstn (ahi - i) (skipn i a) = x :: xs ->
  i < ahi /\ nth_error a i = Some x
  /\ xs = firstn (ahi - S i) (skipn (S i) a).
Proof.
  intros H. destruct (ahi - i) as [|n] eqn:En; [discriminate|].
  destruct (skipn i a) as [|y ys] eqn:Es; [discriminate|].
  simpl in H. injection H as -> <-.
  split; [lia|]. split.
  - rewrite <- (Nat.add_0_r i), <- nth_error_skipn, Es. reflexivity.
  - replace (ahi - S i) with n by lia.
    replace (S i) with (1 + i) by lia. rewrite <- skipn_skipn, Es.
    reflexivity.
Qed.

Lemma rows_ok as_ : forall i row best,
  as_ = firstn (ahi - i) (skipn i a) ->
  alo <= i -> row_okW i row -> best_okW ahi best ->
  best_okW ahi (rows b blo bhi i as_ row best).
Proof.
  induction as_ as [|ai as_ IH]; intros i row best E Hi Hrow Hbest;
    [exact Hbest|].
  symmetry in E. apply slice_head in E. destruct E as (Hlt & Hai & E).
  simpl. pose proof (next_row_ok i ai row Hi Hai Hrow) as Hrow'.
  apply IH; [exact E | lia | exact Hrow' |].
  apply scan_row_ok; [lia | | exact Hbest].
  intros t. apply Hrow'.
Qed.

Lemma same_some x y :
  same x y = true -> exists c, x = Some c /\ y = Some c.
Proof.
  destruct x as [c|], y as [d|]; simpl; try discriminate.
  intros H. apply Ascii.eqb_eq in H. subst. eauto.
Qed.

Lemma extend_left_ok hi : forall bi bj bk,
  best_okW hi (bi, bj, bk) ->
  best_okW hi (extend_left a b alo blo bi bj bk).
Proof.
  induction bi as [|i' IH]; intros bj bk H; [destruct bj; exact H|].
  destruct bj as [|j']; [exact H|]. cbn [extend_left].
  destruct ((alo <? S i') && (blo <? S j')
            && same (nth_error a i') (nth_error b j')) eqn:C; [|exact H].
  apply andb_prop in C. destruct C as [C Hs].
  apply andb_prop in C. destruct C as [C1 C2].
  apply Nat.ltb_lt in C1. apply Nat.ltb_lt in C2.
  apply same_some in Hs. destruct Hs as (c & Ha & Hb).
  destruct H as (H1 & H2 & H3 & H4 & H5).
  apply IH. unfold best_ok. repeat split; try lia.
  intros d Hd. destruct d as [|d].
  - exists c. rewrite !Nat.add_0_r. auto.
  - replace (i' + S d) with (S i' + d) by lia.
    replace (j' + S d) with (S j' + d) by lia. apply H5. lia.
Qed.

Lemma extend_right_ok bi bj : forall d bk,
  bi + bk + d <= ahi ->
  best_okW ahi (bi, bj, bk) ->
  best_okW ahi (bi, bj, extend_right a b bhi bi bj d bk).
Proof.
  induction d as [|d IH]; intros bk Hd H; [exact H|].
  cbn [extend_right].
  destruct ((bj + bk <? bhi)
            && same (nth_error a (bi + bk)) (nth_error b (bj + bk))) eqn:C;
    [|exact H].
  apply andb_prop in C. destruct C as [C1 Hs]. apply Nat.ltb_lt in C1.
  apply same_some in Hs. destruct Hs as (c & Ha & Hb).
  destruct H as (H1 & H2 & H3 & H4 & H5).
  apply IH; [lia|]. unfold best_ok. repeat split; try lia.
  intros e He. destruct (Nat.eq_dec e bk) as [->|N].
  - exists c. auto.
  - apply H5. lia.
Qed.

Lemma row_zero_ok n : row_okW alo (repeat 0 n).
Proof. intros j. left. apply nth_repeat. Qed.

(** The returned triple is a common blockW inside the two ranges. *)
Lemma find_longest_match_ok :
  alo <= ahi -> blo <= bhi ->
  best_okW ahi (find_longest_match a b alo ahi blo bhi).
Proof.
  intros Ha Hb. unfold find_longest_match.
  pose proof (rows_ok (firstn (ahi - alo) (skipn alo a)) alo
                (repeat 0 (List.length b)) (alo, blo, 0) eq_refl
                (Nat.le_refl _) (row_zero_ok _)) as H0.
  destruct (rows b blo bhi alo (firstn (ahi - alo) (skipn alo a))
              (repeat 0 (List.length b)) (alo, blo, 0)) as [[bi bj] bk].
  assert (H1 : best_okW ahi (bi, bj, bk)).
  { apply H0. unfold best_ok. repeat split; try lia. intros d Hd. lia. }
  apply extend_left_ok in H1.
  destruct (extend_left a b alo blo bi bj bk) as [[bi' bj'] bk'].
  apply extend_right_ok; [|exact H1].
  destruct H1 as (_ & H2 & _). lia.
Qed.

End Ranges.

End LongestMatch.

(** ** The score and its two quick bounds *)

Module Scores.

Import Difflib Counting LongestMatch.

Lemma slice_split s lo mid hi :
  lo <= mid -> mid <= hi -> slice s lo hi = slice s lo mid ++ slice s mid hi.
Proof.
  intros H1 H2. unfold slice.
  replace (hi - lo) with ((mid - lo) + (hi - mid)) by lia.
  rewrite <- (firstn_skipn (mid - lo) (firstn (mid - lo + (hi - mid)) (skipn lo s))).
  rewrite firstn_firstn, Nat.min_l by lia. f_equal.
  rewrite skipn_firstn_comm. replace (mid - lo + (hi - mid) - (mid - lo))
    with (hi - mid) by lia.
  rewrite skipn_skipn. replace (mid - lo + lo) with mid by lia. reflexivity.
Qed.

Lemma slice_full s : slice s 0 (List.length s) = s.
Proof. unfold slice. rewrite Nat.sub_0_r. simpl. apply firstn_all. Qed.

Lemma block_slices a b i j k :
  block a b i j k -> slice a i (i + k) = slice b j (j + k)
                     /\ List.length (slice a i (i + k)) = k.
Proof.
  intros H. unfold slice. replace (i + k - i) with k by lia.
  replace (j + k - j) with k by lia. split.
  - apply nth_error_ext. intros d. rewrite !nth_error_firstn, !nth_error_skipn.
    destruct (d <? k) eqn:E; [|reflexivity]. apply Nat.ltb_lt in E.
    destruct (H d E) as (c & -> & ->). reflexivity.
  - rewrite length_firstn, length_skipn. apply Nat.min_l.
    destruct k as [|k]; [lia|].
    destruct (H k ltac:(lia)) as (c & Hc & _).
    assert (i + k < List.length a) by (apply nth_error_Some; congruence).
    lia.
Qed.

(** The blocks collected are disjoint common parts, so together they fit
    in the multiset intersection of the two ranges. *)
Lemma matched_le_common a b fuel : forall alo ahi blo bhi,
  alo <= ahi -> blo <= bhi ->
  matched fuel a b alo ahi blo bhi
  <= common_chars (slice a alo ahi) (slice b blo bhi).
Proof.
  induction fuel as [|fuel IH]; intros alo ahi blo bhi Ha Hb; [simpl; lia|].
  cbn [matched].
  pose proof (find_longest_match_ok a b alo ahi blo bhi Ha Hb) as H.
  destruct (find_longest_match a b alo ahi blo bhi) as [[i j] k].
  destruct H as (H1 & H2 & H3 & H4 & H5).
  destruct (k =? 0) eqn:Ek; [lia|].
  destruct (block_slices a b i j k H5) as [Hm Hl].
  rewrite (slice_split a alo i ahi) by lia.
  rewrite (slice_split a i (i + k) ahi) by lia.
  rewrite (slice_split b blo j bhi) by lia.
  rewrite (slice_split b j (j + k) bhi) by lia.
  rewrite <- Hm.
  etransitivity; [|apply common_chars_split]. rewrite Hl.
  assert (L : (if (alo <? i) && (blo <? j)
               then matched fuel a b alo i blo j else 0)
              <= common_chars (slice a alo i) (slice b blo j)).
  { destruct ((alo <? i) && (blo <? j)); [apply IH; lia | lia]. }
  assert (R : (if (i + k <? ahi) && (j + k <? bhi)
               then matched fuel a b (i + k) ahi (j + k) bhi else 0)
              <= common_chars (slice a (i + k) ahi) (slice b (j + k) bhi)).
  { destruct ((i + k <? ahi) && (j + k <? bhi)); [apply IH; lia | lia]. }
  lia.
Qed.

(** Fuel beyond the length of the range in [a] changes nothing. *)
Lemma matched_fuel a b f1 : forall f2 alo ahi blo bhi,
  alo <= ahi -> blo <= bhi ->
  ahi - alo < f1 -> ahi - alo < f2 ->
  matched f1 a b alo ahi blo bhi = matched f2 a b alo ahi blo bhi.
Proof.
  induction f1 as [|f1 IH]; intros f2 alo ahi blo bhi Ha Hb F1 F2; [lia|].
  destruct f2 as [|f2]; [lia|]. cbn [matched].
  pose proof (find_longest_match_ok a b alo ahi blo bhi Ha Hb) as H.
  destruct (find_longest_match a b alo ahi blo bhi) as [[i j] k].
  destruct H as (H1 & H2 & H3 & H4 & H5).
  destruct (k =? 0) eqn:Ek; [reflexivity|]. apply Nat.eqb_neq in Ek.
  f_equal; [f_equal|].
  - destruct ((alo <? i) && (blo <? j)); [|reflexivity].
    apply IH; lia.
  - destruct ((i + k <? ahi) && (j + k <? bhi)); [|reflexivity].
    apply IH; lia.
Qed.

Lemma ratio_fuel a b fuel :
  List.length a < fuel ->
  ratio a b
  = calculate_ratio (matched fuel a b 0 (List.length a) 0 (List.length b))
      (List.length a + List.length b).
Proof.
  intros H. unfold ratio. f_equal. apply matched_fuel; lia.
Qed.

Lemma calculate_ratio_mono m m' len :
  m <= m' -> (calculate_ratio m len <= calculate_ratio m' len)%Q.
Proof.
  intros H. unfold calculate_ratio. destruct len as [|n]; [apply Qle_refl|].
  apply DoubleFacts.div_mono_l.
  - eapply Qlt_le_trans; [|apply DoubleFacts.of_nat_S]. reflexivity.
  - apply DoubleFacts.mul_mono_r; [discriminate|].
    apply DoubleFacts.of_nat_mono. exact H.
Qed.

Lemma ratio_le_quick a b : (ratio a b <= quick_ratio a b)%Q.
Proof.
  unfold ratio, quick_ratio. apply calculate_ratio_mono.
  rewrite quick_matches_common.
  etransitivity; [apply matched_le_common; lia|].
  rewrite !slice_full. lia.
Qed.

Lemma quick_le_real_quick a b : (quick_ratio a b <= real_quick_ratio a b)%Q.
Proof.
  unfold quick_ratio, real_quick_ratio. apply calculate_ratio_mono.
  rewrite quick_matches_common.
  pose proof (common_chars_le_l a b). pose proof (common_chars_le_r a b). lia.
Qed.

(** The two quick tests never reject a candidate the full test accepts. *)
Lemma passes_iff cutoff x word :
  passes cutoff x word = Qle_bool cutoff (ratio x word).
Proof.
  unfold passes. destruct (Qle_bool cutoff (ratio x word)) eqn:E;
    [|apply andb_false_r].
  apply Qle_bool_iff in E.
  assert (E2 : Qle_bool cutoff (quick_ratio x word) = true).
  { apply Qle_bool_iff. eapply Qle_trans; [exact E | apply ratio_le_quick]. }
  assert (E3 : Qle_bool cutoff (real_quick_ratio x word) = true).
  { apply Qle_bool_iff. eapply Qle_trans; [exact E|].
    eapply Qle_trans; [apply ratio_le_quick | apply quick_le_real_quick]. }
  rewrite E2, E3. reflexivity.
Qed.

(** [max] returns an element with the greatest score. *)
Lemma max_from_greatest l : forall cur y,
  In y (cur :: l) -> (fst y <= fst (max_from cur l))%Q.
Proof.
  induction l as [|x l IH]; intros cur y Hy.
  - destruct Hy as [->|[]]. apply Qle_refl.
  - cbn [max_from].
    set (cur' := if pair_ltb cur x then x else cur).
    assert (Hc : (fst cur <= fst cur')%Q /\ (fst x <= fst cur')%Q).
    { unfold cur', pair_ltb. destruct (fst cur ?= fst x)%Q eqn:E.
      - apply Qeq_alt in E. destruct (str_ltb (snd cur) (snd x)).
        + split; [rewrite E|]; apply Qle_refl.
        + split; [|rewrite E]; apply Qle_refl.
      - apply Qlt_alt in E. split; [apply Qlt_le_weak; exact E | apply Qle_refl].
      - apply Qgt_alt in E. split; [apply Qle_refl | apply Qlt_le_weak; exact E]. }
    destruct Hc as [Hc Hx].
    destruct Hy as [->|[->|Hy]].
    + eapply Qle_trans; [exact Hc|]. apply IH. left. reflexivity.
    + eapply Qle_trans; [exact Hx|]. apply IH. left. reflexivity.
    + apply IH. right. exact Hy.
Qed.

End Scores.

(** ** Claims on the reference matcher *)

Module MatcherClaims.

Import Difflib MatcherKey Scores.

Lemma scored_nil word cutoff possibilities :
  scored word cutoff possibilities = [] <->
  forall x, In x possibilities -> passes cutoff x word = false.
Proof.
  unfold scored. induction possibilities as [|x l IH]; simpl.
  - split; [intros _ y [] | reflexivity].
  - destruct (passes cutoff x word) eqn:E; simpl.
    + split; [discriminate|]. intros H. specialize (H x (or_introl eq_refl)).
      congruence.
    + rewrite IH. split.
      * intros H y [<-|Hy]; auto.
      * intros H y Hy. apply H. auto.
Qed.

Lemma match_known_food_none food_name known_foods cutoff :
  match_known_food food_name known_foods cutoff = None <->
  scored (Str.lower food_name) cutoff (keys known_foods) = [].
Proof.
  unfold match_known_food, get_close_matches1.
  fold (scored (Str.lower food_name) cutoff (keys known_foods)).
  destruct (scored (Str.lower food_name) cutoff (keys known_foods));
    simpl; split; congruence.
Qed.

Lemma passes_false_lt cutoff x word :
  passes cutoff x word = false <-> (ratio x word < cutoff)%Q.
Proof.
  rewrite passes_iff. split.
  - intros H. apply Qnot_le_lt. intros L. apply Qle_bool_iff in L. congruence.
  - intros H. destruct (Qle_bool cutoff (ratio x word)) eqn:E; [|reflexivity].
    apply Qle_bool_iff in E. exfalso. eapply Qlt_not_le; eassumption.
Qed.

Lemma match_known_food_best food_name known_foods cutoff k :
  match_known_food food_name known_foods cutoff = Some k ->
  forall k', In k' (keys known_foods) ->
    (ratio k' (Str.lower food_name) <= ratio k (Str.lower food_name))%Q.
Proof.
  intros H k' Hk'.
  destruct (match_known_food_key _ _ _ _ H) as [_ Hp].
  rewrite passes_iff in Hp. apply Qle_bool_iff in Hp.
  unfold match_known_food, get_close_matches1 in H.
  fold (scored (Str.lower food_name) cutoff (keys known_foods)) in H.
  destruct (scored (Str.lower food_name) cutoff (keys known_foods))
    as [|x l] eqn:E; [discriminate|].
  simpl in H. injection H as H.
  destruct (passes cutoff k' (Str.lower food_name)) eqn:P.
  - assert (Hin : In (ratio k' (Str.lower food_name), k') (x :: l)).
    { rewrite <- E. apply scored_In. auto. }
    pose proof (max_from_greatest l x _ Hin) as G. simpl fst in G.
    pose proof (max_from_In l x) as M. rewrite <- E in M.
    destruct (max_from x l) as [s y]. simpl in H. subst y.
    apply scored_In in M. destruct M as (_ & _ & ->). exact G.
  - apply passes_false_lt in P. apply Qlt_le_weak.
    eapply Qlt_le_trans; eassumption.
Qed.

(** C9, as stated, fails in "case-insensitive": only the name is
    lower-cased, the keys are compared as stored.  The name Egg is not
    matched to the key Egg: the score of "Egg" against "egg" is 4/6, while
    the score with the case ignored on both sides is 1. *)
Lemma C9_keys_not_lowercased :
  match_known_food (L "Egg") [(L "Egg", Macros 155 13 (11 # 10) 11)]
    cutoff_default = None
  /\ ratio (L "Egg") (Str.lower (L "Egg")) = Double.round (4 # 6)
  /\ ratio (Str.lower (L "Egg")) (Str.lower (L "Egg")) = 1%Q.
Proof. repeat split; vm_compute; reflexivity. Qed.

(** C9, amended: the matcher lower-cases the name and scores it against the
    table keys as they are stored.  It returns at most one key; a returned
    key is a key of the table whose score is at least 0.85 and is the
    greatest score of all keys; it returns none exactly when every key
    scores below 0.85.  A score of exactly 0.85 is matched and a score of
    0.8 is not. *)
Theorem C9_reference_match (food_name : str) (known_foods : table) :
  let word := Str.lower food_name in
  (forall k,
     match_known_food food_name known_foods cutoff_default = Some k ->
     In k (keys known_foods)
     /\ (cutoff_default <= ratio k word)%Q
     /\ forall k', In k' (keys known_foods) ->
          (ratio k' word <= ratio k word)%Q)
  /\ (match_known_food food_name known_foods cutoff_default = None <->
      forall k, In k (keys known_foods) -> (ratio k word < cutoff_default)%Q)
  /\ (ratio key_17 (Str.lower name_17) = cutoff_default
      /\ match_known_food name_17 [(key_17, Macros 0 0 0 0)] cutoff_default
         = Some key_17)
  /\ (ratio key_16 (Str.lower name_16) = Double.round (8 # 10)
      /\ match_known_food name_16 [(key_16, Macros 0 0 0 0)] cutoff_default
         = None).
Proof.
  cbv zeta. split; [|split; [|split]].
  - intros k H. destruct (match_known_food_key _ _ _ _ H) as [Hin Hp].
    split; [exact Hin|]. split.
    + rewrite passes_iff in Hp. apply Qle_bool_iff in Hp. exact Hp.
    + apply match_known_food_best with (cutoff := cutoff_default). exact H.
  - rewrite match_known_food_none, scored_nil. split; intros H k Hk.
    + apply passes_false_lt. apply H. exact Hk.
    + apply passes_false_lt. apply H. exact Hk.
  - split; vm_compute; reflexivity.
  - split; vm_compute; reflexivity.
Qed.

End MatcherClaims.

(** * Further properties of the code *)

(** ** More on rounding *)

Module DoubleMore.

Import Double DoubleFacts.

Local Open Scope Q_scope.

Lemma ilog2_unique x k :
  0 < x -> pow2 k <= x -> x < pow2 (k + 1) -> ilog2 x = k.
Proof.
  intros Hx L U. destruct (ilog2_spec x Hx) as [L' U'].
  assert (A : pow2 k < pow2 (ilog2 x + 1)) by (eapply Qle_lt_trans; eassumption).
  assert (B : pow2 (ilog2 x) < pow2 (k + 1)) by (eapply Qle_lt_trans; eassumption).
  apply pow2_lt_inv in A. apply pow2_lt_inv in B. lia.
Qed.

Lemma ilog2_compat x y : 0 < x -> x == y -> ilog2 x = ilog2 y.
Proof.
  intros Hx E. assert (Hy : 0 < y) by (rewrite <- E; exact Hx).
  destruct (ilog2_spec y Hy) as [L U].
  apply ilog2_unique; [exact Hx | rewrite E; exact L | rewrite E; exact U].
Qed.

Lemma nearest_compat x y : 0 < x -> x == y -> nearest x == nearest y.
Proof.
  intros Hx E. unfold nearest, ulp_exp. rewrite (ilog2_compat x y Hx E).
  rewrite (round_half_even_compat (x / pow2 (Z.max (-1074) (ilog2 y - 52)))
             (y / pow2 (Z.max (-1074) (ilog2 y - 52))));
    [reflexivity | rewrite E; reflexivity].
Qed.

Lemma pow2_nonzero e : ~ pow2 e == 0.
Proof. intros H. pose proof (pow2_pos e) as P. rewrite H in P. discriminate P. Qed.

(** A number [m * 2^e] whose significand has at most 53 bits, with an
    exponent in range, is a double. *)
Lemma nearest_fixed (m e : Z) :
  (0 < m <= 2 ^ 53)%Z -> (-1074 <= e)%Z ->
  nearest (inject_Z m * pow2 e) == inject_Z m * pow2 e.
Proof.
  intros Hm He. set (x := inject_Z m * pow2 e).
  assert (Hx : 0 < x).
  { unfold x. apply Qmult_lt_0_compat; [|apply pow2_pos].
    change 0 with (inject_Z 0). rewrite <- Zlt_Qlt. lia. }
  destruct (ilog2_spec x Hx) as [L U].
  assert (Hk : (ilog2 x <= 53 + e)%Z).
  { assert (A : pow2 (ilog2 x) < pow2 (53 + e + 1)).
    { eapply Qle_lt_trans; [exact L|]. unfold x.
      replace (53 + e + 1)%Z with (54 + e)%Z by lia. rewrite pow2_add.
      apply Qmult_lt_compat_r; [apply pow2_pos|].
      rewrite (pow2_Z 54) by lia. rewrite <- Zlt_Qlt.
      assert ((2 ^ 53 < 2 ^ 54)%Z) by (apply Z.pow_lt_mono_r; lia). lia. }
    apply pow2_lt_inv in A. lia. }
  unfold nearest, ulp_exp. set (e' := Z.max (-1074) (ilog2 x - 52)).
  destruct (Z_le_gt_dec e' e) as [Le|Gt].
  - (* the last place of [x] is at or below [e] *)
    assert (E : x / pow2 e' == inject_Z (m * 2 ^ (e - e'))).
    { unfold x. rewrite inject_Z_mult. rewrite <- (pow2_Z (e - e')) by lia.
      replace e with ((e - e') + e')%Z at 1 by lia. rewrite pow2_add.
      field. apply pow2_nonzero. }
    rewrite (round_half_even_compat _ _ E), round_half_even_Z.
    unfold x. rewrite inject_Z_mult. rewrite <- (pow2_Z (e - e')) by lia.
    rewrite <- Qmult_assoc, <- pow2_add.
    replace (e - e' + e')%Z with e by lia. reflexivity.
  - (* only for the significand 2^53 *)
    assert (Ee : e' = (e + 1)%Z) by (unfold e' in *; lia).
    assert (Hk' : ilog2 x = (53 + e)%Z) by (unfold e' in *; lia).
    assert (Em : m = (2 ^ 53)%Z).
    { destruct (Z.eq_dec m (2 ^ 53)) as [Em|Nm]; [exact Em|exfalso].
      assert (A : x < pow2 (53 + e)).
      { unfold x. rewrite pow2_add. apply Qmult_lt_compat_r; [apply pow2_pos|].
        rewrite (pow2_Z 53) by lia. rewrite <- Zlt_Qlt. lia. }
      rewrite Hk' in L. apply (Qlt_irrefl x). eapply Qlt_le_trans; eassumption. }
    assert (E : x / pow2 e' == inject_Z (2 ^ 52)).
    { unfold x. rewrite Em, Ee. rewrite <- (pow2_Z 53), <- (pow2_Z 52) by lia.
      replace (e + 1)%Z with (1 + e)%Z by lia. rewrite (pow2_add 1 e).
      setoid_replace (pow2 53) with (pow2 52 * pow2 1)
        by (rewrite <- pow2_add; reflexivity).
      field. split; apply pow2_nonzero. }
    rewrite (round_half_even_compat _ _ E), round_half_even_Z.
    unfold x. rewrite Em, Ee. rewrite <- (pow2_Z 53), <- (pow2_Z 52) by lia.
    rewrite <- !pow2_add. replace (52 + (e + 1))%Z with (53 + e)%Z by lia.
    reflexivity.
Qed.

Lemma round_canonical x : Qred (round x) = round x.
Proof.
  unfold round. destruct (Qnum (Qred x)); [reflexivity | |]; apply Qred_complete, Qred_correct.
Qed.

(** Two doubles that denote the same number are the same. *)
Lemma round_eq x y : round x == round y -> round x = round y.
Proof.
  intros H. rewrite <- (round_canonical x), <- (round_canonical y).
  apply Qred_complete. exact H.
Qed.

Lemma round_opp x : round (- x) == - round x.
Proof.
  destruct (Q_dec x 0) as [[N|P]|Z].
  - assert (P : 0 < - x) by (apply (Qopp_lt_compat x 0); exact N).
    destruct (round_pos _ P) as [E P']. destruct (round_neg _ N) as [E' N'].
    rewrite E, E'. rewrite Qopp_involutive. apply nearest_compat; [exact P'|].
    rewrite !Qred_correct. reflexivity.
  - assert (N : - x < 0) by (apply (Qopp_lt_compat 0 x); exact P).
    destruct (round_pos _ P) as [E P']. destruct (round_neg _ N) as [E' N'].
    rewrite E, E'. apply Qopp_comp. apply nearest_compat; [exact N'|].
    rewrite !Qred_correct. apply Qopp_involutive.
  - rewrite (round_zero x Z), (round_zero (- x)); [reflexivity|].
    rewrite Z. reflexivity.
Qed.

(** The double nearest to a positive number, as significand and exponent. *)
Lemma nearest_shape x :
  0 < x ->
  exists m e, (0 <= m <= 2 ^ 53)%Z /\ (-1074 <= e)%Z
              /\ nearest x == inject_Z m * pow2 e.
Proof.
  intros Hx. destruct (ilog2_spec x Hx) as [_ U].
  exists (round_half_even (x / pow2 (ulp_exp x))), (ulp_exp x).
  split; [|split; [unfold ulp_exp; lia | reflexivity]].
  split.
  - rewrite <- (round_half_even_Z 0) at 1. apply round_half_even_mono.
    apply Qle_shift_div_l; [apply pow2_pos|]. rewrite Qmult_0_l.
    apply Qlt_le_weak, Hx.
  - rewrite <- (round_half_even_Z (2 ^ 53)). apply round_half_even_mono.
    rewrite <- (pow2_Z 53) by lia. apply Qle_shift_div_r; [apply pow2_pos|].
    rewrite <- pow2_add. apply Qlt_le_weak. eapply Qlt_le_trans; [exact U|].
    apply pow2_le. unfold ulp_exp. lia.
Qed.

Lemma round_fixed (m e : Z) :
  (0 <= m <= 2 ^ 53)%Z -> (-1074 <= e)%Z ->
  round (inject_Z m * pow2 e) == inject_Z m * pow2 e.
Proof.
  intros Hm He. destruct (Z.eq_dec m 0) as [->|Nm].
  - rewrite round_zero; [|apply Qmult_0_l]. rewrite Qmult_0_l. reflexivity.
  - assert (P : 0 < inject_Z m * pow2 e).
    { apply Qmult_lt_0_compat; [|apply pow2_pos].
      change 0 with (inject_Z 0). rewrite <- Zlt_Qlt. lia. }
    destruct (round_pos _ P) as [E P']. rewrite E.
    rewrite (nearest_compat _ (inject_Z m * pow2 e) P' (Qred_correct _)).
    apply nearest_fixed; lia.
Qed.

(** Rounding a double changes nothing. *)
Lemma round_idem x : round (round x) = round x.
Proof.
  rewrite <- (round_canonical x) at 2. 
  assert (G : forall y, 0 < y -> round (round y) == round y).
  { intros y P. destruct (round_pos y P) as [E P'].
    destruct (nearest_shape _ P') as (m & e & Hm & He & Es).
    assert (Er : round y == inject_Z m * pow2 e) by (rewrite E; exact Es).
    rewrite (round_compat _ _ Er), Er. apply round_fixed; assumption. }
  assert (H : round (round x) == round x).
  { destruct (Q_dec x 0) as [[N|P]|Z].
    - assert (P : 0 < - x) by (apply (Qopp_lt_compat x 0); exact N).
      specialize (G _ P).
      rewrite (round_compat (round (- x)) (- round x) (round_opp x)) in G.
      rewrite !round_opp in G.
      rewrite <- (Qopp_involutive (round (round x))), G. apply Qopp_involutive.
    - apply G, P.
    - rewrite (round_zero x Z). reflexivity. }
  rewrite <- (round_canonical (round x)). apply Qred_complete. exact H.
Qed.
End DoubleMore.

(** ** The scaler *)

Module ScalerProps.

Import Double DoubleFacts DoubleMore Rounding.

Local Open Scope Q_scope.

Lemma round_half_even_at x n :
  Qabs (x - inject_Z n) < 1 # 2 -> round_half_even x = n.
Proof.
  intros H. pose proof (round_half_even_near x) as N.
  set (m := round_half_even x) in *.
  assert (D : Qabs (inject_Z m - inject_Z n) < 1).
  { eapply Qle_lt_trans; [apply (dist_triangle _ x)|].
    rewrite Qplus_comm.
    setoid_replace 1 with ((1 # 2) + (1 # 2)) by reflexivity.
    apply Qplus_lt_le_compat; [exact H|].
    rewrite <- Qabs_opp. setoid_replace (- (inject_Z m - x)) with (x - inject_Z m) by ring.
    exact N. }
  clearbody m. apply Qabs_Qlt_condition in D. destruct D as [D1 D2].
  unfold Qlt, Qminus, Qplus, Qopp, inject_Z in D1, D2. simpl in D1, D2. lia.
Qed.

Lemma round2_mono x y : x <= y -> round2 x <= round2 y.
Proof.
  intros H. unfold round2. apply round_mono.
  assert (M : (round_half_even (x * 100) <= round_half_even (y * 100))%Z).
  { apply round_half_even_mono. apply Qmult_le_compat_r; [exact H | discriminate]. }
  unfold Qle. simpl. lia.
Qed.

(** A double that writes a number of two decimals is its own rounding to
    two decimals. *)
Lemma round2_fixed n :
  (Z.abs n <= 10 ^ 15)%Z -> round2 (literal n 100) = literal n 100.
Proof.
  intros Hn. unfold round2, literal. set (c := round (n # 100)).
  assert (E : round_half_even (c * 100) = n).
  { apply round_half_even_at.
    pose proof (round_near_bound (n # 100) (inject_Z (10 ^ 13))) as B.
    fold c in B.
    assert (A : Qabs (n # 100) <= inject_Z (10 ^ 13)).
    { apply Qabs_Qle_condition. unfold Qle, Qopp, inject_Z. simpl. lia. }
    specialize (B A).
    setoid_replace (c * 100 - inject_Z n) with ((c - (n # 100)) * 100)
      by (rewrite (Qmake_Qdiv n 100); field).
    rewrite Qabs_Qmult. 
    eapply Qle_lt_trans;
      [apply Qmult_le_compat_r; [exact B | apply Qabs_nonneg]|].
    vm_compute. reflexivity. }
  rewrite E. reflexivity.
Qed.

Lemma mul_1_r x : mul (round x) 1 = round x.
Proof.
  unfold mul. rewrite (round_compat (round x * 1) (round x)) by ring.
  apply round_idem.
Qed.

Lemma scaled_field_100 c :
  two_decimals c -> round2 (mul c (div 100 100)) = c.
Proof.
  intros (n & Hn & ->). change (div 100 100) with 1. unfold literal.
  rewrite mul_1_r. apply (round2_fixed n Hn).
Qed.

(** X1: a serving of 100 g returns the reference profile as it is, when its
    values have at most two decimals. *)
Theorem scale_100_identity (r : macros) :
  Forall two_decimals (fields r) -> scale_macros r 100 = r.
Proof.
  intros H. destruct r as [c p k f]. unfold fields in H. cbn in H.
  inversion H as [|? ? H1 Hr1]; subst. inversion Hr1 as [|? ? H2 Hr2]; subst.
  inversion Hr2 as [|? ? H3 Hr3]; subst. inversion Hr3 as [|? ? H4 _]; subst.
  unfold scale_macros. cbn [Calories Protein Carbohydrates Fats].
  rewrite !scaled_field_100 by assumption. reflexivity.
Qed.

Lemma scale_100_identity_witness :
  Forall two_decimals (fields (Macros 130 (literal 270 100) (literal 2820 100) (literal 30 100)))
  /\ scale_macros (Macros 130 (literal 270 100) (literal 2820 100) (literal 30 100)) 100
     = Macros 130 (literal 270 100) (literal 2820 100) (literal 30 100).
Proof.
  assert (H : Forall two_decimals
                (fields (Macros 130 (literal 270 100) (literal 2820 100)
                           (literal 30 100)))).
  { unfold fields. cbn [Calories Protein Carbohydrates Fats].
    repeat constructor.
    - exists 13000%Z. split; [vm_compute; discriminate | vm_compute; reflexivity].
    - exists 270%Z. split; [vm_compute; discriminate | reflexivity].
    - exists 2820%Z. split; [vm_compute; discriminate | reflexivity].
    - exists 30%Z. split; [vm_compute; discriminate | reflexivity]. }
  split; [exact H|]. exact (scale_100_identity _ H).
Defined.

Lemma scaled_field_mono c s s' :
  0 <= c -> s <= s' ->
  round2 (mul c (div s 100)) <= round2 (mul c (div s' 100)).
Proof.
  intros Hc H. apply round2_mono. apply mul_mono_r; [exact Hc|].
  apply div_mono_l; [reflexivity | exact H].
Qed.

(** X2: a serving of zero grams gives the profile of zeros; and for a
    reference profile without negative values, a larger serving never gives
    a smaller value in any field, so that no serving from zero up gives a
    negative one. *)
Theorem scale_monotone (r : macros) (s s' : Q) :
  Forall (fun c => 0 <= c) (fields r) -> s <= s' ->
  scale_macros r 0 = zero_macros
  /\ Forall2 Qle (fields (scale_macros r s)) (fields (scale_macros r s'))
  /\ (0 <= s -> Forall (fun v => 0 <= v) (fields (scale_macros r s))).
Proof.
  intros H Hs. split.
  { unfold scale_macros. rewrite (div_0_l 0 100) by reflexivity.
    rewrite !mul_0_r by reflexivity. reflexivity. }
  destruct r as [c p k f]. unfold fields in *. cbn in H.
  inversion H as [|? ? H1 Hr1]; subst. inversion Hr1 as [|? ? H2 Hr2]; subst.
  inversion Hr2 as [|? ? H3 Hr3]; subst. inversion Hr3 as [|? ? H4 _]; subst.
  unfold scale_macros. cbn [Calories Protein Carbohydrates Fats]. split.
  - repeat constructor; apply scaled_field_mono; assumption.
  - intros H0.
    assert (Z : forall c, 0 <= c -> 0 <= round2 (mul c (div s 100))).
    { intros c0 Hc0.
      assert (E : round2 (mul c0 (div 0 100)) = 0).
      { rewrite (div_0_l 0 100) by reflexivity.
        rewrite mul_0_r by reflexivity. reflexivity. }
      rewrite <- E. apply scaled_field_mono; assumption. }
    repeat constructor; apply Z; assumption.
Qed.

Lemma scale_monotone_witness :
  scale_macros (Macros 165 31 0 (literal 36 10)) 0 = zero_macros
  /\ Forall2 Qle (fields (scale_macros (Macros 165 31 0 (literal 36 10)) 100))
       (fields (scale_macros (Macros 165 31 0 (literal 36 10)) 150))
  /\ (0 <= 100 ->
      Forall (fun v => 0 <= v)
        (fields (scale_macros (Macros 165 31 0 (literal 36 10)) 100))).
Proof.
  apply (scale_monotone (Macros 165 31 0 (literal 36 10)) 100 150).
  - unfold fields. cbn [Calories Protein Carbohydrates Fats].
    repeat constructor; vm_compute; discriminate.
  - vm_compute. discriminate.
Defined.

End ScalerProps.

(** ** The energy-need calculator *)

Module EnergyProps.

Import Double DoubleFacts DoubleMore.

Local Open Scope Q_scope.

Lemma add_mono x x' y y' : x <= x' -> y <= y' -> add x y <= add x' y'.
Proof. intros H1 H2. apply round_mono. apply Qplus_le_compat; assumption. Qed.

Lemma sub_mono x x' y y' : x <= x' -> y' <= y -> double_sub x y <= double_sub x' y'.
Proof.
  intros H1 H2. apply round_mono. apply Qplus_le_compat; [exact H1|].
  apply Qopp_le_compat. exact H2.
Qed.

Lemma of_Z_mono a b : (a <= b)%Z -> of_Z a <= of_Z b.
Proof. intros H. apply round_mono. rewrite <- Zle_Qle. exact H. Qed.

(** X3: the basal metabolic rate never decreases with the weight or the
    height and never increases with the age, for either formula. *)
Theorem bmr_monotone (gender : str) (w w' h h' : Q) (a a' : Z) :
  w <= w' -> h <= h' -> (a' <= a)%Z ->
  calculate_bmr gender w h a <= calculate_bmr gender w' h' a'.
Proof.
  intros Hw Hh Ha. unfold calculate_bmr.
  destruct (str_eqb (Str.lower gender) (L "male"));
    (apply sub_mono;
     [ apply add_mono;
       [ apply add_mono; [apply Qle_refl|];
         apply mul_mono_r; [vm_compute; discriminate | exact Hw]
       | apply mul_mono_r; [vm_compute; discriminate | exact Hh] ]
     | apply mul_mono_r; [vm_compute; discriminate |];
       apply of_Z_mono; exact Ha ]).
Qed.

Lemma bmr_monotone_witness :
  calculate_bmr (L "Male") 70 175 30 <= calculate_bmr (L "Male") 80 180 25.
Proof.
  apply bmr_monotone; [discriminate | discriminate | lia].
Defined.

Lemma dict_get_In {V} (d : list (str * V)) k default :
  dict_get d k default = default \/ In (dict_get d k default) (map snd d).
Proof.
  induction d as [|[k' v] d IH]; simpl; [left; reflexivity|].
  destruct (str_eqb k k'); [right; left; reflexivity|].
  destruct IH as [IH|IH]; [left; exact IH | right; right; exact IH].
Qed.

Lemma dict_get_missing {V} (d : list (str * V)) k default :
  ~ In k (map fst d) -> dict_get d k default = default.
Proof.
  induction d as [|[k' v] d IH]; simpl; [reflexivity|]. intros H.
  destruct (str_eqb k k') eqn:E.
  - apply str_eqb_eq in E. exfalso. apply H. left. symmetry. exact E.
  - apply IH. intros Hin. apply H. right. exact Hin.
Qed.

Lemma factor_ge_1 level : 1 <= dict_get activity_factors level (literal 12 10).
Proof.
  pose proof (dict_get_In activity_factors level (literal 12 10)) as H.
  revert H. generalize (dict_get activity_factors level (literal 12 10)).
  intros f [->|H]; [vm_compute; discriminate|].
  unfold activity_factors in H. cbn [map snd] in H.
  destruct H as [<-|[<-|[<-|[<-|[<-|[]]]]]]; vm_compute; discriminate.
Qed.

Lemma mul_ge_self x f : 0 <= x -> 1 <= f -> round x <= mul x f.
Proof.
  intros Hx Hf. apply round_mono.
  setoid_replace x with (x * 1) at 1 by ring.
  rewrite !(Qmult_comm x). apply Qmult_le_compat_r; assumption.
Qed.

Lemma bmr_is_double g w h a :
  round (calculate_bmr g w h a) = calculate_bmr g w h a.
Proof.
  unfold calculate_bmr, double_sub.
  destruct (str_eqb (Str.lower g) (L "male")); apply round_idem.
Qed.

(** X4: an activity level that is not one of the five keys, letter case
    ignored, counts as sedentary; and for a basal rate that is not
    negative, the daily need grows with the level from sedentary to extra
    and is never below the basal rate. *)
Theorem total_calories_levels (bmr : Q) :
  (forall level,
      ~ In (Str.lower level) (map fst activity_factors) ->
      calculate_total_calories bmr level
      = calculate_total_calories bmr (L "sedentary"))
  /\ (0 <= bmr ->
      round bmr <= calculate_total_calories bmr (L "sedentary")
      /\ calculate_total_calories bmr (L "sedentary")
         <= calculate_total_calories bmr (L "light")
      /\ calculate_total_calories bmr (L "light")
         <= calculate_total_calories bmr (L "moderate")
      /\ calculate_total_calories bmr (L "moderate")
         <= calculate_total_calories bmr (L "active")
      /\ calculate_total_calories bmr (L "active")
         <= calculate_total_calories bmr (L "extra")).
Proof.
  split.
  - intros level H. unfold calculate_total_calories.
    rewrite (dict_get_missing _ _ _ H). reflexivity.
  - intros H. unfold calculate_total_calories.
    split; [apply mul_ge_self; [exact H | apply factor_ge_1]|].
    repeat split; apply mul_mono_r; try exact H; vm_compute; discriminate.
Qed.

Lemma level_of_cases text :
  let t := Str.lower text in
  level_of text
  = if Text.contains (L "sedentary") t then L "sedentary"
    else if Text.contains (L "light") t then L "light"
    else if Text.contains (L "moderate") t then L "moderate"
    else if Text.contains (L "active") t then L "active"
    else if Text.contains (L "extra") t then L "extra"
    else L "sedentary".
Proof. reflexivity. Qed.

(** X5: the level read in a text is always one of the five keys, so the
    default factor of [calculate_total_calories] is never used by the
    handler; the keys are tried in the order sedentary, light, moderate,
    active, extra, so that a text holding [active] is never read as
    [extra]: of the five options offered, "Extra active (athlete level)" is
    read as [active]. *)
Theorem activity_level_read (text : str) :
  In (level_of text) (map fst activity_factors)
  /\ (level_of text = L "extra" <->
      Text.contains (L "extra") (Str.lower text) = true
      /\ Text.contains (L "sedentary") (Str.lower text) = false
      /\ Text.contains (L "light") (Str.lower text) = false
      /\ Text.contains (L "moderate") (Str.lower text) = false
      /\ Text.contains (L "active") (Str.lower text) = false)
  /\ map level_of activity_options
     = [L "sedentary"; L "light"; L "moderate"; L "active"; L "active"].
Proof.
  rewrite level_of_cases. cbv zeta.
  destruct (Text.contains (L "sedentary") (Str.lower text));
  destruct (Text.contains (L "light") (Str.lower text));
  destruct (Text.contains (L "moderate") (Str.lower text));
  destruct (Text.contains (L "active") (Str.lower text));
  destruct (Text.contains (L "extra") (Str.lower text));
  (split; [simpl; tauto|]);
  (split; [|vm_compute; reflexivity]);
  (split; [intros H; try discriminate H; repeat split; reflexivity
          | intros (H1 & H2 & H3 & H4 & H5);
            try discriminate; reflexivity]).
Qed.

(** X6: whatever the text, the daily need in the message of
    [activity_input] is the basal rate in the message times one of the
    five factors, and is never below the basal rate when that is not
    negative. *)
Theorem activity_input_report (ud : user_data) (text : str) :
  let r := activity_input ud text in
  (exists f, In f (map snd activity_factors)
             /\ shown_total r = mul (shown_bmr r) f)
  /\ (0 <= shown_bmr r -> shown_bmr r <= shown_total r).
Proof.
  cbv zeta. unfold activity_input. cbn [shown_total shown_bmr].
  fold (level_of text). unfold calculate_total_calories. split.
  - destruct (activity_level_read text) as [H _].
    exists (dict_get activity_factors (Str.lower (level_of text)) (literal 12 10)).
    split; [|reflexivity]. revert H. generalize (level_of text). intros l H.
    unfold activity_factors in H. cbn [map fst] in H.
    destruct H as [<-|[<-|[<-|[<-|[<-|[]]]]]]; vm_compute; tauto.
  - intros H. rewrite <- bmr_is_double at 1.
    apply mul_ge_self; [exact H | apply factor_ge_1].
Qed.

End EnergyProps.

(** ** The name normaliser and the letter case *)

Module NormaliserProps.

Import CleanSpec.

Section Recasing.

(** A change of letter case: a map on characters that keeps the classes
    and the two case mappings. *)
Variable f : ascii -> ascii.
Hypothesis f_digit : forall c, Char.is_digit (f c) = Char.is_digit c.
Hypothesis f_space : forall c, Char.is_space (f c) = Char.is_space c.
Hypothesis f_word : forall c, Char.is_word (f c) = Char.is_word c.
Hypothesis f_point : forall c, Ascii.eqb (f c) "."%char = Ascii.eqb c "."%char.
Hypothesis f_blank : f " "%char = " "%char.
Hypothesis f_lower : forall c, Char.lower (f c) = Char.lower c.
Hypothesis f_upper : forall c, Char.upper (f c) = Char.upper c.

Lemma recase_strip_numerals s : forall q,
  strip_numerals_from q (map f s) = map f (strip_numerals_from q s).
Proof.
  induction s as [|c s IH]; intros q; [reflexivity|].
  cbn [map strip_numerals_from]. rewrite f_digit, f_point, f_space.
  destruct (Char.is_digit c).
  - destruct q; apply IH.
  - destruct q; try destruct (Ascii.eqb c "."%char);
      try destruct (Char.is_space c); cbn [map]; rewrite ?IH; reflexivity.
Qed.

Lemma recase_lower w : Str.lower (map f w) = Str.lower w.
Proof.
  unfold Str.lower. rewrite map_map. apply map_ext. exact f_lower.
Qed.

Lemma recase_keep acc : keep (map f acc) = map f (keep acc).
Proof.
  unfold keep, is_stop_word. rewrite <- map_rev, recase_lower.
  destruct (str_in (Str.lower (rev acc)) stop_words); reflexivity.
Qed.

Lemma recase_drop_stop s : forall acc,
  drop_stop_from (map f acc) (map f s) = map f (drop_stop_from acc s).
Proof.
  induction s as [|c s IH]; intros acc; cbn [map drop_stop_from].
  - apply recase_keep.
  - rewrite f_word. destruct (Char.is_word c).
    + apply (IH (c :: acc)).
    + rewrite recase_keep, map_app. cbn [map]. f_equal. f_equal.
      apply (IH []).
Qed.

Lemma recase_collapse s : forall b,
  collapse_from b (map f s) = map f (collapse_from b s).
Proof.
  induction s as [|c s IH]; intros b; [reflexivity|].
  cbn [map collapse_from]. rewrite f_space.
  destruct (Char.is_space c); [destruct b|]; cbn [map];
    rewrite ?f_blank, IH; reflexivity.
Qed.

Lemma recase_lstrip s : Str.lstrip (map f s) = map f (Str.lstrip s).
Proof.
  induction s as [|c s IH]; [reflexivity|]. cbn [map Str.lstrip].
  rewrite f_space. destruct (Char.is_space c); [exact IH | reflexivity].
Qed.

Lemma recase_strip s : Str.strip (map f s) = map f (Str.strip s).
Proof.
  unfold Str.strip, Str.rstrip.
  rewrite recase_lstrip, <- map_rev, recase_lstrip, <- map_rev. reflexivity.
Qed.

Lemma recase_flush acc : Str.flush (map f acc) = map (map f) (Str.flush acc).
Proof.
  destruct acc as [|a acc]; [reflexivity|]. cbn [map Str.flush].
  change (f a :: map f acc) with (map f (a :: acc)). rewrite <- map_rev.
  reflexivity.
Qed.

Lemma recase_split_go s : forall acc,
  Str.split_go (map f acc) (map f s) = map (map f) (Str.split_go acc s).
Proof.
  induction s as [|c s IH]; intros acc; cbn [map Str.split_go].
  - apply recase_flush.
  - rewrite f_space. destruct (Char.is_space c).
    + rewrite recase_flush, map_app. f_equal. apply (IH []).
    + apply (IH (c :: acc)).
Qed.

Lemma recase_title w : title_word (map f w) = title_word w.
Proof.
  destruct w as [|c w]; [reflexivity|]. cbn [map title_word].
  rewrite f_upper, map_map. f_equal. apply map_ext. exact f_lower.
Qed.

Lemma recase_clean_steps s : clean_steps (map f s) = clean_steps s.
Proof.
  unfold clean_steps, strip_numerals, drop_stop_words, collapse.
  rewrite recase_strip_numerals.
  rewrite (recase_drop_stop _ []), recase_collapse, recase_strip.
  unfold Str.split. rewrite (recase_split_go _ []), map_map.
  f_equal. apply map_ext. exact recase_title.
Qed.

End Recasing.

(** On ASCII texts the normalised name does not depend on the letter case
    of the phrase. *)
Lemma clean_recased (s : str) :
  clean_food_name (Str.lower s) = clean_food_name s
  /\ clean_food_name (map Char.upper s) = clean_food_name s.
Proof.
  rewrite !NormaliserClaims.clean_food_name_steps. split.
  - apply recase_clean_steps; try reflexivity; intros c; all_chars c; reflexivity.
  - apply recase_clean_steps; try reflexivity; intros c; all_chars c; reflexivity.
Qed.

End NormaliserProps.

(** ** The mentions, one by one *)

Module ParserProps.

Import CleanSpec ReSound Grammar Dedup Mentions Tokens WordFacts NormaliserClaims.

(** The phrase captured by each pattern holds letters and whitespace
    only. *)
Lemma grams_phrase pv s st :
  match_at false re_grams pv s = Some st ->
  phrase_chars (lookup_cap 2 (caps st)).
Proof.
  intros H. apply match_at_sound in H. destruct H as [w H].
  unfold re_grams in H. inv H.
  match goal with H : matches _ (Seq (Star _) _) _ _ _ |- _ => inv H end.
  match goal with H : matches _ (Seq (Chr _) _) _ _ _ |- _ => inv H end.
  match goal with H : matches _ (Seq (Star _) _) _ _ _ |- _ => inv H end.
  match goal with H : matches _ (re_phrase _) _ _ _ |- _ =>
    destruct (phrase_shape _ _ _ _ H) as (Hc4 & _ & Hp) end.
  rewrite Hc4. simpl. exact Hp.
Qed.

Lemma count_phrase pv s st :
  match_at false re_count pv s = Some st ->
  phrase_chars (lookup_cap 2 (caps st)).
Proof.
  intros H. apply match_at_sound in H. destruct H as [w H].
  unfold re_count in H. inv H.
  match goal with H : matches _ (Seq (Plus _) _) _ _ _ |- _ => inv H end.
  match goal with H : matches _ (re_phrase _) _ _ _ |- _ =>
    destruct (phrase_shape _ _ _ _ H) as (Hc4 & _ & Hp) end.
  rewrite Hc4. simpl. exact Hp.
Qed.

Lemma unit_phrase pv s st :
  match_at false re_unit pv s = Some st ->
  phrase_chars (lookup_cap 3 (caps st)).
Proof.
  intros H. apply match_at_sound in H. destruct H as [w H].
  unfold re_unit in H. inv H.
  match goal with H : matches _ (Seq (Star _) _) _ _ _ |- _ => inv H end.
  match goal with H : matches _ (Seq (Grp 2 _) _) _ _ _ |- _ => inv H end.
  match goal with H : matches _ (Seq (Plus _) _) _ _ _ |- _ => inv H end.
  match goal with H : matches _ (Grp 3 _) _ _ _ |- _ => inv H end.
  match goal with H : matches _ (Plus alpha_or_space) _ _ _ |- _ =>
    destruct (plus_caps _ _ _ _ _ H) as (_ & Hp & _) end.
  simpl. exact Hp.
Qed.

Lemma phrase_not_digit c : alpha_or_space c = true -> Char.is_digit c = false.
Proof. all_chars c; vm_compute; congruence. Qed.

Lemma alpha_upper c :
  alpha_or_space c = true -> Char.is_space c = false ->
  Char.is_upper (Char.upper c) = true.
Proof. all_chars c; vm_compute; congruence. Qed.

Lemma alpha_lower c :
  alpha_or_space c = true -> Char.is_space c = false ->
  Char.is_lower (Char.lower c) = true.
Proof. all_chars c; vm_compute; congruence. Qed.

Lemma title_of_letters t :
  token t -> phrase_chars t -> titled_word (title_word t).
Proof.
  intros [Hn Hs] Hp. destruct t as [|c t]; [congruence|].
  inversion Hs as [|? ? Hc Hs']; subst. inversion Hp as [|? ? Pc Hp']; subst.
  exists (Char.upper c), (map Char.lower t). split; [reflexivity|].
  split; [apply alpha_upper; assumption|].
  apply Forall_map. clear Hn Hs Hp Hc Pc.
  induction Hs' as [|d t Hd Ht IH]; [constructor|].
  inversion Hp' as [|? ? Pd Pt]; subst.
  constructor; [apply alpha_lower; assumption | apply IH; exact Pt].
Qed.

(** The normalised name of a phrase of letters and whitespace. *)
Lemma clean_phrase w :
  phrase_chars w -> clean_food_name w <> [] -> plain_name (clean_food_name w).
Proof.
  intros Hp Hne. rewrite clean_food_name_steps, clean_steps_tokens in *.
  set (ts := Str.split (drop_stop_words (strip_numerals w))) in *.
  exists (map title_word ts). split; [|split; [|reflexivity]].
  - destruct ts; [exfalso; apply Hne; reflexivity | discriminate].
  - clear Hne. apply Forall_map.
    assert (Hc : Forall phrase_chars ts).
    { unfold ts, Str.split. apply split_go_chars; [constructor|].
      unfold drop_stop_words. apply drop_stop_chars; [constructor|].
      unfold strip_numerals. rewrite strip_numerals_fixed; [exact Hp|].
      eapply Forall_impl; [|exact Hp]. apply phrase_not_digit. }
    pose proof (split_tokens (drop_stop_words (strip_numerals w))) as Ht.
    fold ts in Ht. clearbody ts.
    induction Ht as [|t ts Ht Hts IH]; [constructor|].
    inversion Hc; subst. constructor; [apply title_of_letters; assumption|].
    apply IH. assumption.
Qed.

Lemma titled_token w : titled_word w -> token w.
Proof.
  intros (c & w' & -> & Hu & Hl). split; [discriminate|].
  constructor.
  - unfold no_space. revert Hu. all_chars c; vm_compute; congruence.
  - eapply Forall_impl; [|exact Hl]. intros d. unfold no_space.
    all_chars d; vm_compute; congruence.
Qed.

Lemma join_ends ws :
  ws <> [] -> Forall token ws ->
  (exists c s, Str.join (L " ") ws = c :: s /\ Char.is_space c = false)
  /\ (exists s d, Str.join (L " ") ws = s ++ [d] /\ Char.is_space d = false).
Proof.
  intros Hne H. induction H as [|w ws [Hw Hs] Hws IH]; [congruence|].
  destruct w as [|c w]; [congruence|]. inversion Hs; subst.
  destruct ws as [|w' ws].
  - simpl. split; [exists c, w; auto|].
    destruct (exists_last (l := c :: w) ltac:(discriminate)) as (s & d & E).
    exists s, d. split; [exact E|].
    assert (Hin : In d (c :: w)) by (rewrite E; apply in_or_app; right; left; reflexivity).
    rewrite Forall_forall in Hs. apply (Hs d Hin).
  - destruct (IH ltac:(discriminate)) as [_ (s & d & E & Hd)].
    change (Str.join (L " ") ((c :: w) :: w' :: ws))
      with ((c :: w) ++ L " " ++ Str.join (L " ") (w' :: ws)).
    split; [exists c; eexists; split; [reflexivity | assumption]|].
    exists ((c :: w) ++ L " " ++ s), d. rewrite E, <- !app_assoc.
    split; [reflexivity | exact Hd].
Qed.

Lemma strip_fixed s :
  (exists c s', s = c :: s' /\ Char.is_space c = false) ->
  (exists s' d, s = s' ++ [d] /\ Char.is_space d = false) ->
  Str.strip s = s.
Proof.
  intros (c & s1 & E1 & H1) (s2 & d & E2 & H2).
  unfold Str.strip, Str.rstrip.
  assert (L1 : Str.lstrip s = s) by (rewrite E1; simpl; rewrite H1; reflexivity).
  rewrite L1, E2, rev_app_distr. simpl. rewrite H2. simpl.
  rewrite rev_involutive. reflexivity.
Qed.

Lemma plain_name_stripped n : plain_name n -> Str.strip n = n.
Proof.
  intros (ws & Hne & Hw & ->).
  assert (Ht : Forall token ws)
    by (eapply Forall_impl; [|exact Hw]; apply titled_token).
  destruct (join_ends ws Hne Ht) as [A B]. apply strip_fixed; assumption.
Qed.

Lemma tagged_name_stripped n u :
  plain_name n -> Str.strip (n ++ L " (" ++ u ++ L ")") = n ++ L " (" ++ u ++ L ")".
Proof.
  intros (ws & Hne & Hw & ->).
  assert (Ht : Forall token ws)
    by (eapply Forall_impl; [|exact Hw]; apply titled_token).
  destruct (join_ends ws Hne Ht) as [(c & s & E & Hc) _]. apply strip_fixed.
  - exists c. eexists. rewrite E. split; [reflexivity | exact Hc].
  - exists (Str.join (L " ") ws ++ L " (" ++ u), ")"%char.
    rewrite <- !app_assoc. split; reflexivity.
Qed.

Lemma dedup_long items : forall seen it,
  In it (dedup seen items) -> 2 <= List.length (key it).
Proof.
  induction items as [|x items IH]; intros seen it H; [destruct H|].
  simpl in H. fold (key x) in H.
  destruct (List.length (key x) <? 2) eqn:E; [eapply IH; exact H|].
  apply Nat.ltb_ge in E.
  destruct (str_in (key x) seen); [eapply IH; exact H|].
  destruct H as [<-|H]; [exact E | eapply IH; exact H].
Qed.

(** X8: the shape of every mention that [parse_food_text] emits: its name
    has two characters or more and no whitespace at its ends (the [strip]
    of the deduplication changes nothing); a gram mention has the unit g
    and no quantity, a count mention the unit pieces and a quantity, both
    named by title-cased words separated by single spaces; a unit mention
    has one of the four unit words and a quantity, and such a name, followed
    by the unit in parentheses for tbsp and tsp. *)
Theorem parsed_item_shape (text : str) (it : item) :
  In it (parse_food_text text) ->
  2 <= List.length (food it)
  /\ Str.strip (food it) = food it
  /\ ((unit it = L "g" /\ quantity it = None /\ plain_name (food it))
      \/ (unit it = L "pieces" /\ quantity it <> None /\ plain_name (food it))
      \/ (In (unit it) [L "tbsp"; L "tsp"] /\ quantity it <> None
          /\ exists n, plain_name n
                       /\ food it = n ++ L " (" ++ unit it ++ L ")")
      \/ (In (unit it) [L "tablespoon"; L "teaspoon"]
          /\ quantity it <> None /\ plain_name (food it))).
Proof.
  intros Hin. pose proof (dedup_long _ _ _ Hin) as Hlen. unfold key in Hlen.
  assert (G : Str.strip (food it) = food it
    /\ ((unit it = L "g" /\ quantity it = None /\ plain_name (food it))
      \/ (unit it = L "pieces" /\ quantity it <> None /\ plain_name (food it))
      \/ (In (unit it) [L "tbsp"; L "tsp"] /\ quantity it <> None
          /\ exists n, plain_name n
                       /\ food it = n ++ L " (" ++ unit it ++ L ")")
      \/ (In (unit it) [L "tablespoon"; L "teaspoon"]
          /\ quantity it <> None /\ plain_name (food it)))).
  { destruct (parse_origin _ _ Hin) as [m [Hm Hi|Hm Hi|Hm Hi]].
    - apply ReFacts.finditer_attempt in Hm.
      destruct Hm as (pv & s & st & Hm & Hc & _).
      apply grams_phrase in Hm. rewrite <- Hc in Hm. fold (group m 2) in Hm.
      unfold item_of_grams in Hi.
      pose proof (clean_phrase _ Hm) as Hp.
      destruct (clean_food_name (group m 2)) as [|c w] eqn:E; [destruct Hi|].
      destruct Hi as [<-|[]]. cbn [food unit quantity].
      specialize (Hp ltac:(discriminate)).
      split; [apply plain_name_stripped; exact Hp|]. left. auto.
    - apply ReFacts.finditer_attempt in Hm.
      destruct Hm as (pv & s & st & Hm & Hc & _).
      apply count_phrase in Hm. rewrite <- Hc in Hm. fold (group m 2) in Hm.
      unfold item_of_count in Hi.
      pose proof (clean_phrase _ Hm) as Hp.
      destruct (clean_food_name (group m 2)) as [|c w] eqn:E; [destruct Hi|].
      destruct Hi as [<-|[]]. cbn [food unit quantity].
      specialize (Hp ltac:(discriminate)).
      split; [apply plain_name_stripped; exact Hp|]. right. left.
      repeat split; [discriminate | exact Hp].
    - pose proof (finditer_unit_groups _ _ Hm) as [_ Hu].
      apply ReFacts.finditer_attempt in Hm.
      destruct Hm as (pv & s & st & Hm & Hc & _).
      apply unit_phrase in Hm. rewrite <- Hc in Hm. fold (group m 3) in Hm.
      unfold item_of_unit in Hi.
      pose proof (clean_phrase _ Hm) as Hp.
      destruct (clean_food_name (group m 3)) as [|c w] eqn:E; [destruct Hi|].
      destruct Hi as [<-|[]]. cbn [food unit quantity].
      specialize (Hp ltac:(discriminate)).
      unfold units in Hu.
      destruct Hu as [<-|[<-|[<-|[<-|[]]]]];
        (match goal with
         | |- context [str_in ?u ?l] =>
             let b := eval vm_compute in (str_in u l) in
             change (str_in u l) with b
         end; cbv iota).
      + split; [apply tagged_name_stripped; exact Hp|]. right. right. left.
        split; [left; reflexivity|]. split; [discriminate|]. eauto.
      + split; [apply tagged_name_stripped; exact Hp|]. right. right. left.
        split; [right; left; reflexivity|]. split; [discriminate|]. eauto.
      + split; [apply plain_name_stripped; exact Hp|]. right. right. right.
        split; [left; reflexivity|]. split; [discriminate | exact Hp].
      + split; [apply plain_name_stripped; exact Hp|]. right. right. right.
        split; [right; left; reflexivity|]. split; [discriminate | exact Hp]. }
  destruct G as [Gs G]. rewrite Gs in Hlen. auto.
Qed.

Lemma parsed_item_shape_witness :
  2 <= List.length (food olive_oil_tbsp)
  /\ Str.strip (food olive_oil_tbsp) = food olive_oil_tbsp
  /\ ((unit olive_oil_tbsp = L "g" /\ quantity olive_oil_tbsp = None
       /\ plain_name (food olive_oil_tbsp))
      \/ (unit olive_oil_tbsp = L "pieces" /\ quantity olive_oil_tbsp <> None
          /\ plain_name (food olive_oil_tbsp))
      \/ (In (unit olive_oil_tbsp) [L "tbsp"; L "tsp"]
          /\ quantity olive_oil_tbsp <> None
          /\ exists n, plain_name n
                       /\ food olive_oil_tbsp
                          = n ++ L " (" ++ unit olive_oil_tbsp ++ L ")")
      \/ (In (unit olive_oil_tbsp) [L "tablespoon"; L "teaspoon"]
          /\ quantity olive_oil_tbsp <> None
          /\ plain_name (food olive_oil_tbsp))).
Proof.
  apply (parsed_item_shape (L "2 tbsp olive oil") olive_oil_tbsp).
  vm_compute. right. left. reflexivity.
Defined.

End ParserProps.

(** ** The books of the free-form handler *)

Module HandlerProps.

Import Dedup HandlerFacts.

Section Loop.

Variable World : Type.
Variable ai : str -> Q -> World -> option macros * World.
Variable notion : str -> Q -> macros -> World -> bool * World.
Variable known_foods : table.

Local Abbreviation stepW := (step World ai notion known_foods).
Local Abbreviation get_macrosW := (get_macros World ai known_foods).

Lemma get_macros_no_write food serving w :
  persists (snd (fst (get_macrosW food serving w))) = [].
Proof.
  unfold get_macros.
  destruct (match_known_food food known_foods cutoff_default) as [k|].
  - destruct (truthy k); [reflexivity|].
    destruct (ai food serving w) as [m w1]. reflexivity.
  - destruct (ai food serving w) as [m w1]. reflexivity.
Qed.

(** One iteration: the total, the added items and the writes. *)
Lemma step_books st it :
  (exists m,
      total_calories (stepW st it) = Double.add (total_calories st) (Calories m)
      /\ successful_items (stepW st it)
         = successful_items st
           ++ [Success (food it) (Calories m) (Protein m) (serving it)]
      /\ persists (trace (stepW st it))
         = persists (trace st) ++ [(food it, serving it, m)])
  \/ (total_calories (stepW st it) = total_calories st
      /\ successful_items (stepW st it) = successful_items st
      /\ (persists (trace (stepW st it)) = persists (trace st)
          \/ exists m, persists (trace (stepW st it))
                       = persists (trace st) ++ [(food it, serving it, m)])).
Proof.
  unfold step. pose proof (get_macros_no_write (food it) (serving it) (world st)) as Hp.
  destruct (get_macrosW (food it) (serving it) (world st)) as [[m evs] w1].
  simpl in Hp. destruct m as [mc|].
  - destruct (notion (food it) (serving it) mc w1) as [[|] w2];
      cbn [total_calories successful_items trace];
      rewrite !persists_app, Hp; simpl.
    + left. exists mc. auto.
    + right. split; [reflexivity|]. split; [reflexivity|]. right. exists mc.
      reflexivity.
  - right. cbn [total_calories successful_items trace].
    rewrite persists_app, Hp, app_nil_r. auto.
Qed.

Lemma sum_calories_snoc l s :
  sum_calories (l ++ [s]) = Double.add (sum_calories l) (calories s).
Proof.
  unfold sum_calories. rewrite map_app, fold_left_app. reflexivity.
Qed.

Lemma loop_books items : forall st,
  total_calories st = sum_calories (successful_items st) ->
  subseq (map reported (successful_items st)) (map written (persists (trace st))) ->
  forall done,
  subseq (map (fun p => (fst (fst p), snd (fst p))) (persists (trace st)))
    (map asked done) ->
  let st' := fold_left stepW items st in
  total_calories st' = sum_calories (successful_items st')
  /\ subseq (map reported (successful_items st'))
       (map written (persists (trace st')))
  /\ subseq (map (fun p => (fst (fst p), snd (fst p))) (persists (trace st')))
       (map asked (done ++ items)).
Proof.
  induction items as [|it items IH]; intros st Ht Hr done Hw; cbn [fold_left].
  - rewrite app_nil_r. auto.
  - replace (done ++ it :: items) with ((done ++ [it]) ++ items)
      by (rewrite <- app_assoc; reflexivity).
    destruct (step_books st it) as [(m & E1 & E2 & E3)|(E1 & E2 & E3)].
    + apply IH.
      * rewrite E1, E2, sum_calories_snoc, Ht. reflexivity.
      * rewrite E2, E3, !map_app. apply subseq_app; [exact Hr|].
        simpl. apply subseq_refl.
      * rewrite E3, !map_app. apply subseq_app; [exact Hw|].
        simpl. apply subseq_refl.
    + apply IH.
      * rewrite E1, E2. exact Ht.
      * rewrite E2. destruct E3 as [->|[m ->]]; [exact Hr|].
        rewrite map_app. rewrite <- (app_nil_r (map reported _)).
        apply subseq_app; [exact Hr|]. apply subseq_nil_l.
      * destruct E3 as [->|[m ->]].
        -- rewrite map_app. rewrite <- (app_nil_r (map _ (persists _))).
           apply subseq_app; [exact Hw|]. apply subseq_nil_l.
        -- rewrite !map_app. apply subseq_app; [exact Hw|].
           simpl. apply subseq_refl.
Qed.

End Loop.

(** X9: the total of the summary is the sum, in double precision and in
    order, of the calories of the items reported as added: a mention that
    failed adds nothing. *)
Theorem summary_total (World : Type)
    (ai : str -> Q -> World -> option macros * World)
    (notion : str -> Q -> macros -> World -> bool * World)
    (known_foods : table) (text : str) (w : World) :
  let st := process World ai notion known_foods (parse_food_text text) w in
  total_calories st = sum_calories (successful_items st).
Proof.
  cbv zeta. unfold process.
  destruct (loop_books World ai notion known_foods (parse_food_text text)
              (LoopState World 0 [] [] [] w) eq_refl sub_nil []
              sub_nil) as (H & _).
  exact H.
Qed.

(** X10: the writes of one call: at most one per mention, in the order of
    the mentions, each with the mention's stored name and serving; and
    every item reported as added was written with the numbers reported. *)
Theorem writes_follow_mentions (World : Type)
    (ai : str -> Q -> World -> option macros * World)
    (notion : str -> Q -> macros -> World -> bool * World)
    (known_foods : table) (text : str) (w : World) :
  let st := process World ai notion known_foods (parse_food_text text) w in
  subseq (map (fun p => (fst (fst p), snd (fst p))) (persists (trace st)))
    (map asked (parse_food_text text))
  /\ subseq (map reported (successful_items st))
       (map written (persists (trace st))).
Proof.
  cbv zeta. unfold process.
  destruct (loop_books World ai notion known_foods (parse_food_text text)
              (LoopState World 0 [] [] [] w) eq_refl sub_nil []
              sub_nil) as (_ & H1 & H2).
  split; assumption.
Qed.

End HandlerProps.

(** ** The single-food handler *)

Module LoggingProps.

Import MatcherKey Difflib.

Lemma passes_empty_word c key :
  passes cutoff_default (c :: key) [] = false.
Proof.
  unfold passes, real_quick_ratio.
  cbn [List.length Nat.min Nat.add calculate_ratio].
  rewrite Nat.add_0_r. cbn [calculate_ratio].
  rewrite DoubleFacts.div_0_l by reflexivity. reflexivity.
Qed.

(** The empty name is matched to no key but the empty one, which does not
    count as a match. *)
Lemma empty_name_no_hit known_foods : name_hit known_foods [] = false.
Proof.
  unfold name_hit.
  destruct (match_known_food [] known_foods cutoff_default) as [k|] eqn:E;
    [|reflexivity].
  apply match_known_food_key in E. destruct E as [_ Hp].
  destruct k as [|c k]; [reflexivity|].
  change (Str.lower []) with (@nil ascii) in Hp.
  rewrite passes_empty_word in Hp. discriminate.
Qed.

Section Logging.

Variable World : Type.
Variable ai : str -> Q -> World -> option macros * World.
Variable notion : str -> Q -> macros -> World -> bool * World.
Variable known_foods : table.

Local Abbreviation serving_inputW := (serving_input World ai notion known_foods).

(** X11: one call of [serving_input] away from the table.  A text that is
    no number gives no call at all, the request for a valid number and the
    same state again.  A number, for a name the matcher has no key for,
    gives one call to the estimator with the normalised name and the number
    read; when the estimator gives nothing there is no write and the reply
    says that no data was found; when it gives numbers, exactly these are
    written, once, under the normalised name and the number read, and the
    reply says added, with these numbers and the source AI, or failed,
    as the write succeeds or not. *)
Theorem serving_protocol text food w :
  let c := clean_food_name food in
  (PyFloat.float_of_text text = PyFloat.ValueError ->
   serving_inputW text food w
   = Some (LogOutcome World [] InvalidGrams SERVING_INPUT w))
  /\ (forall serving,
        PyFloat.float_of_text text = PyFloat.Finite serving ->
        name_hit known_foods c = false ->
        serving_inputW text food w
        = Some
            match ai c serving w with
            | (None, w1) =>
                LogOutcome World [EvEstimate c serving] NoNutritionData END w1
            | (Some m, w1) =>
                LogOutcome World
                  [EvEstimate c serving; EvPersist c serving m]
                  (if fst (notion c serving m w1)
                   then AddedToTracker c serving m (L "AI")
                   else FailedToAdd)
                  END (snd (notion c serving m w1))
            end).
Proof.
  cbv zeta. split.
  - intros E. unfold serving_input. rewrite E. reflexivity.
  - intros serving E Hh. unfold serving_input, name_hit in *. rewrite E.
    cbv zeta.
    assert (G :
      (let '(macros, source, evs, w1) :=
         let '(m, w1) := ai (clean_food_name food) serving w in
         (m, L "AI", [EvEstimate (clean_food_name food) serving], w1) in
       match macros with
       | Some macros =>
           let '(success, w2) :=
             notion (clean_food_name food) serving macros w1 in
           let evs :=
             evs ++ [EvPersist (clean_food_name food) serving macros] in
           if success
           then Some (LogOutcome World evs
                        (AddedToTracker (clean_food_name food) serving macros
                           source) END w2)
           else Some (LogOutcome World evs FailedToAdd END w2)
       | None => Some (LogOutcome World evs NoNutritionData END w1)
       end)
      = Some
          match ai (clean_food_name food) serving w with
          | (None, w1) =>
              LogOutcome World [EvEstimate (clean_food_name food) serving]
                NoNutritionData END w1
          | (Some m, w1) =>
              LogOutcome World
                [EvEstimate (clean_food_name food) serving;
                 EvPersist (clean_food_name food) serving m]
                (if fst (notion (clean_food_name food) serving m w1)
                 then AddedToTracker (clean_food_name food) serving m (L "AI")
                 else FailedToAdd)
                END (snd (notion (clean_food_name food) serving m w1))
          end).
    { destruct (ai (clean_food_name food) serving w) as [[m|] w1];
        [|reflexivity].
      destruct (notion (clean_food_name food) serving m w1) as [[|] w2];
        reflexivity. }
    destruct (match_known_food (clean_food_name food) known_foods
                cutoff_default) as [k|].
    + rewrite Hh. exact G.
    + exact G.
Qed.

(** X12: when the normalised name matches a key (not the empty one) of
    the table, [serving_input] asks no estimation and persists the
    reference profile scaled to the number read, whatever its sign. *)
Theorem serving_from_table text food w serving k r :
  PyFloat.float_of_text text = PyFloat.Finite serving ->
  match_known_food (clean_food_name food) known_foods cutoff_default = Some k ->
  k <> [] ->
  table_get known_foods k = Some r ->
  exists out,
    serving_inputW text food w = Some out
    /\ lo_calls out
       = [EvPersist (clean_food_name food) serving (scale_macros r serving)]
    /\ (lo_message out
        = AddedToTracker (clean_food_name food) serving
            (scale_macros r serving) (L "database")
        \/ lo_message out = FailedToAdd).
Proof.
  intros Hf Hm Hk Hr. unfold serving_input. rewrite Hf. cbv zeta.
  rewrite Hm. destruct k as [|c k]; [congruence|]. cbn [truthy].
  rewrite Hr. cbn [option_map].
  destruct (notion (clean_food_name food) serving (scale_macros r serving) w)
    as [[|] w2]; eexists; (split; [reflexivity|]);
    cbn [lo_calls lo_message app]; auto.
Qed.

(** X13: a food text whose normalised name is empty is not rejected: for
    every number read, the estimator is asked about the empty name. *)
Theorem serving_empty_name text food w serving :
  PyFloat.float_of_text text = PyFloat.Finite serving ->
  clean_food_name food = [] ->
  exists out,
    serving_inputW text food w = Some out
    /\ estimates (lo_calls out) = [([], serving)].
Proof.
  intros Hf Hc. pose proof (empty_name_no_hit known_foods) as Hh.
  unfold name_hit in Hh. unfold serving_input. rewrite Hf, Hc. cbv zeta.
  assert (G : forall m w1,
    exists out,
      match m with
      | Some macros =>
          let '(success, w2) := notion [] serving macros w1 in
          if success
          then Some (LogOutcome World
                       ([EvEstimate [] serving] ++ [EvPersist [] serving macros])
                       (AddedToTracker [] serving macros (L "AI")) END w2)
          else Some (LogOutcome World
                       ([EvEstimate [] serving] ++ [EvPersist [] serving macros])
                       FailedToAdd END w2)
      | None => Some (LogOutcome World [EvEstimate [] serving]
                        NoNutritionData END w1)
      end = Some out
      /\ estimates (lo_calls out) = [([], serving)]).
  { intros [mc|] w1.
    - destruct (notion [] serving mc w1) as [[|] w2]; eexists;
        (split; [reflexivity|]); reflexivity.
    - eexists. split; reflexivity. }
  destruct (match_known_food [] known_foods cutoff_default) as [k|].
  - rewrite Hh. destruct (ai [] serving w) as [m w1]. apply G.
  - destruct (ai [] serving w) as [m w1]. apply G.
Qed.

End Logging.

Lemma serving_from_table_witness :
  exists out,
    serving_input NoWorld no_estimate persist_ok chicken_table
      (L "-150") (L "chicken breast") tt = Some out
    /\ lo_calls out
       = [EvPersist (clean_food_name (L "chicken breast")) (-150)%Q
            (scale_macros (Macros 165 31 0 (Double.round (36 # 10))) (-150)%Q)]
    /\ (lo_message out
        = AddedToTracker (clean_food_name (L "chicken breast")) (-150)%Q
            (scale_macros (Macros 165 31 0 (Double.round (36 # 10))) (-150)%Q)
            (L "database")
        \/ lo_message out = FailedToAdd).
Proof.
  apply (serving_from_table NoWorld no_estimate persist_ok chicken_table
           (L "-150") (L "chicken breast") tt (-150)%Q (L "chicken breast")
           (Macros 165 31 0 (Double.round (36 # 10)))).
  - vm_compute. reflexivity.
  - vm_compute. reflexivity.
  - discriminate.
  - vm_compute. reflexivity.
Defined.

Lemma serving_empty_name_witness :
  exists out,
    serving_input NoWorld no_estimate persist_ok chicken_table
      (L "150") (L "100 g") tt = Some out
    /\ estimates (lo_calls out) = [([], 150%Q)].
Proof.
  apply (serving_empty_name NoWorld no_estimate persist_ok chicken_table
           (L "150") (L "100 g") tt 150%Q).
  - vm_compute. reflexivity.
  - vm_compute. reflexivity.
Defined.

End LoggingProps.

(** ** The lookup of the database and the saving *)

Module NotionProps.

Lemma getitem_dict x key v :
  Py.getitem x key = Some v -> exists d, x = JDict d /\ Py.assoc key d = Some v.
Proof. destruct x; try discriminate. simpl. eauto. Qed.

Lemma not_a_database_skipped result :
  not_a_database result -> is_nutrition_db result = Some false.
Proof.
  intros (kind & H & E). unfold is_nutrition_db. rewrite H. cbn [Py.bind].
  rewrite E. reflexivity.
Qed.

Lemma database_titled_checked name result :
  database_titled name result ->
  is_nutrition_db result = Some (names_tracker name).
Proof.
  intros (first & rest & text & Ho & Ht & Hx & Hc).
  unfold is_nutrition_db. rewrite Ho.
  destruct (getitem_dict _ _ _ Ht) as (d & -> & Hd).
  cbn [Py.bind Py.eq_str]. rewrite str_eqb_refl. cbn [negb Py.get].
  rewrite Hd. cbn [Py.bind Py.truth negb Py.getitem]. rewrite Hd.
  cbn [Py.bind Py.getitem0]. rewrite Hx. cbn [Py.bind]. rewrite Hc.
  reflexivity.
Qed.

Lemma passed_over_skipped result :
  passed_over result -> is_nutrition_db result = Some false.
Proof.
  intros [H|(name & H & E)].
  - apply not_a_database_skipped, H.
  - rewrite (database_titled_checked _ _ H), E. reflexivity.
Qed.

Lemma examined_answers result :
  examined result -> exists b, is_nutrition_db result = Some b.
Proof.
  intros [H|(name & H)].
  - rewrite (not_a_database_skipped _ H). eauto.
  - rewrite (database_titled_checked _ _ H). eauto.
Qed.

Lemma nutrition_dbs_examined results :
  Forall examined results -> exists dbs, nutrition_dbs results = Some dbs.
Proof.
  induction 1 as [|r rs Hr _ (dbs & IH)]; [simpl; eauto|].
  destruct (examined_answers _ Hr) as (b & E).
  cbn [nutrition_dbs]. rewrite E, IH. simpl. eauto.
Qed.

Lemma nutrition_dbs_first before db after :
  Forall passed_over before ->
  is_nutrition_db db = Some true ->
  Forall examined after ->
  exists dbs, nutrition_dbs (before ++ db :: after) = Some (db :: dbs).
Proof.
  intros Hb Hd Ha. induction Hb as [|r rs Hr _ (dbs & IH)].
  - destruct (nutrition_dbs_examined _ Ha) as (dbs & E).
    cbn [app nutrition_dbs]. rewrite Hd, E. simpl. eauto.
  - cbn [app nutrition_dbs]. rewrite (passed_over_skipped _ Hr), IH.
    simpl. eauto.
Qed.

Lemma nutrition_dbs_raises results bad :
  In bad results -> is_nutrition_db bad = None -> nutrition_dbs results = None.
Proof.
  induction results as [|r rs IH]; intros Hin Hbad; [destruct Hin|].
  cbn [nutrition_dbs]. destruct Hin as [->|Hin].
  - rewrite Hbad. reflexivity.
  - rewrite (IH Hin Hbad). destruct (is_nutrition_db r); reflexivity.
Qed.

(** X14: on a search answer whose results are pages and databases with
    text titles, the lookup returns the id of the first database whose title
    text is the tracker's name in any case; databases with other names and
    pages before it are passed over. *)
Theorem lookup_first_match (response : json) (before after : list json)
    (db : json) (name : str) (id : json) :
  Py.getitem response (L "results") = Some (JList (before ++ db :: after)) ->
  Forall passed_over before ->
  database_titled name db ->
  names_tracker name = true ->
  Py.getitem db (L "id") = Some id ->
  Forall examined after ->
  db_id_of (Some response) = id.
Proof.
  intros Hr Hb Hd Hn Hi Ha.
  assert (E : is_nutrition_db db = Some true)
    by (rewrite (database_titled_checked _ _ Hd), Hn; reflexivity).
  destruct (nutrition_dbs_first before db after Hb E Ha) as (dbs & Hs).
  unfold db_id_of. cbn [Py.bind]. rewrite Hr. cbn [Py.bind Py.iter].
  rewrite Hs. cbn [Py.bind]. rewrite Hi. reflexivity.
Qed.

Lemma lookup_first_match_witness :
  db_id_of
    (Some (search_answer
             ([page_object (L "p-1");
               database_object (L "db-1") [text_item (L "Recipes")]]
              ++ tracker_db
                 :: [database_object (L "db-3")
                       [text_item (L "Nutrition Tracker")]])))
  = JStr (L "db-2").
Proof.
  apply (lookup_first_match _
           [page_object (L "p-1");
            database_object (L "db-1") [text_item (L "Recipes")]]
           [database_object (L "db-3") [text_item (L "Nutrition Tracker")]]
           tracker_db (L "NUTRITION tracker")).
  - reflexivity.
  - apply Forall_cons; [|apply Forall_cons; [|apply Forall_nil]].
    + left. exists (JStr (L "page")). split; reflexivity.
    + right. exists (L "Recipes"). split; [|reflexivity].
      exists (text_item (L "Recipes")), [],
        (JDict [(L "content", JStr (L "Recipes"))]).
      repeat split; reflexivity.
  - exists (text_item (L "NUTRITION tracker")), [],
      (JDict [(L "content", JStr (L "NUTRITION tracker"))]).
    repeat split; reflexivity.
  - reflexivity.
  - reflexivity.
  - apply Forall_cons; [|apply Forall_nil].
    right. exists (L "Nutrition Tracker").
    exists (text_item (L "Nutrition Tracker")), [],
      (JDict [(L "content", JStr (L "Nutrition Tracker"))]).
    repeat split; reflexivity.
Defined.

(** X15: one search result on which the condition of the lookup raises
    makes the lookup return None, wherever it stands among the results and
    whatever the other results are, the tracker's database included. *)
Theorem lookup_poisoned (response : json) (results : list json) (bad : json) :
  Py.getitem response (L "results") = Some (JList results) ->
  In bad results ->
  is_nutrition_db bad = None ->
  db_id_of (Some response) = JNull.
Proof.
  intros Hr Hin Hbad. unfold db_id_of. cbn [Py.bind]. rewrite Hr.
  cbn [Py.bind Py.iter]. rewrite (nutrition_dbs_raises _ _ Hin Hbad).
  reflexivity.
Qed.

Lemma lookup_poisoned_witness :
  db_id_of
    (Some (search_answer
             [tracker_db; database_object (L "db-9") [mention_item]]))
  = JNull.
Proof.
  apply (lookup_poisoned _
           [tracker_db; database_object (L "db-9") [mention_item]]
           (database_object (L "db-9") [mention_item])).
  - reflexivity.
  - right. left. reflexivity.
  - reflexivity.
Defined.

Section Saving.

Variable World : Type.
Variable notion_search : World -> option json * World.
Variable notion_pages_create :
  json -> str -> Q -> macros -> World -> bool * World.
Variable ai : str -> Q -> World -> option macros * World.
Variable known_foods : table.

Local Abbreviation saveW :=
  (add_food_to_notion World notion_search notion_pages_create).
Local Abbreviation stepW := (step World ai saveW known_foods).

Hypothesis no_database :
  forall w, Py.truth (db_id_of (fst (notion_search w))) = false.

Lemma save_fails food serving m w : fst (saveW food serving m w) = false.
Proof.
  unfold add_food_to_notion, get_nutrition_db_id.
  pose proof (no_database w) as H.
  destruct (notion_search w) as [response w1]. simpl in H.
  rewrite H. reflexivity.
Qed.

Lemma step_fails st it :
  total_calories (stepW st it) = total_calories st
  /\ successful_items (stepW st it) = successful_items st
  /\ failed_items (stepW st it) = failed_items st ++ [food it].
Proof.
  unfold step.
  destruct (get_macros World ai known_foods (food it) (serving it) (world st))
    as [[m evs] w1].
  destruct m as [m|]; [|simpl; auto].
  pose proof (save_fails (food it) (serving it) m w1) as H.
  destruct (saveW (food it) (serving it) m w1) as [ok w2]. simpl in H.
  subst ok. simpl. auto.
Qed.

Lemma loop_fails items : forall st,
  let st' := fold_left stepW items st in
  total_calories st' = total_calories st
  /\ successful_items st' = successful_items st
  /\ failed_items st' = failed_items st ++ map food items.
Proof.
  induction items as [|it items IH]; intros st; cbn [fold_left map].
  - rewrite app_nil_r. auto.
  - destruct (IH (stepW st it)) as (E1 & E2 & E3).
    destruct (step_fails st it) as (F1 & F2 & F3).
    cbv zeta in *. rewrite E1, E2, E3, F1, F2, F3, <- app_assoc. auto.
Qed.

End Saving.

(** X16: when the search yields no usable database id, the free-form
    handler adds nothing: every mention of the message, whether its numbers
    came from the table or from the estimator, is listed as failed, in the
    order of the mentions, and the total stays 0. *)
Theorem no_database_all_failed (World : Type)
    (notion_search : World -> option json * World)
    (notion_pages_create : json -> str -> Q -> macros -> World -> bool * World)
    (ai : str -> Q -> World -> option macros * World)
    (known_foods : table) (text : str) (w : World) :
  (forall w', Py.truth (db_id_of (fst (notion_search w'))) = false) ->
  let st :=
    process World ai
      (add_food_to_notion World notion_search notion_pages_create)
      known_foods (parse_food_text text) w in
  successful_items st = []
  /\ failed_items st = map food (parse_food_text text)
  /\ total_calories st = 0%Q.
Proof.
  intros H. cbv zeta. unfold process.
  destruct (loop_fails World notion_search notion_pages_create ai known_foods
              H (parse_food_text text) (LoopState World 0 [] [] [] w))
    as (E1 & E2 & E3).
  cbv zeta in *. rewrite E1, E2, E3. auto.
Qed.

Lemma no_database_all_failed_witness :
  let st :=
    process NoWorld estimate_ones
      (add_food_to_notion NoWorld search_none create_ok)
      chicken_table (parse_food_text (L "150g chicken breast and 2 bananas"))
      tt in
  successful_items st = []
  /\ failed_items st
     = map food (parse_food_text (L "150g chicken breast and 2 bananas"))
  /\ total_calories st = 0%Q.
Proof.
  apply (no_database_all_failed NoWorld search_none create_ok estimate_ones
           chicken_table (L "150g chicken breast and 2 bananas") tt).
  intros w'. reflexivity.
Defined.

End NotionProps.

(** ** The calorie summary *)

Module SummaryProps.

Import Double DoubleFacts DoubleMore.

Lemma find_calories_column prop items :
  calories_column prop items -> find_calories_prop items = Some prop.
Proof.
  intros (before & details & after & -> & Hb & Hp).
  induction Hb as [|[name d] rest Hn _ IH]; cbn [app find_calories_prop].
  - rewrite Hp. reflexivity.
  - cbn [fst] in Hn. rewrite Hn. exact IH.
Qed.

Lemma contains_nonempty needle hay :
  needle <> [] -> Text.contains needle hay = true -> hay <> [].
Proof.
  intros Hn H ->. destruct needle; [congruence|]. discriminate.
Qed.

Lemma column_truthy prop :
  Text.contains (L "calori") (Str.lower prop) = true -> truthy prop = true.
Proof.
  intros H. destruct prop; [discriminate|reflexivity].
Qed.

Lemma tally_readings prop entries : forall values a c,
  Forall2 (fun entry v => entry_calories prop entry = Some (reading v))
    entries values ->
  tally prop entries (NInt a) c
  = Value (NInt (a + sum_Z (present values)), c + List.length (present values)).
Proof.
  induction entries as [|e es IH]; intros values a c H; inv H.
  - simpl. rewrite Z.add_0_r, Nat.add_0_r. reflexivity.
  - cbn [tally]. rewrite H2. destruct y as [n|]; cbn [reading present].
    + cbn [Num.plus]. rewrite (IH _ _ _ H4). cbn [sum_Z fold_right List.length].
      fold (sum_Z (present l')). f_equal. f_equal; [f_equal; lia|lia].
    + apply IH, H4.
Qed.

Lemma tally_app prop before : forall after total count total' count',
  tally prop before total count = Value (total', count') ->
  tally prop (before ++ after) total count = tally prop after total' count'.
Proof.
  induction before as [|e es IH]; intros after total count total' count' H.
  - inv H. reflexivity.
  - cbn [app tally] in *.
    destruct (entry_calories prop e) as [v|]; [|discriminate].
    destruct v; try (apply IH; exact H);
      (destruct (Num.plus total _) as [t| |]; [apply IH; exact H|discriminate..]).
Qed.

Lemma small_fits (a : Z) :
  (Z.abs a <= 2 ^ 53)%Z -> PyFloat.overflows (inject_Z a) = false.
Proof.
  intros H. unfold PyFloat.overflows.
  destruct (Qle_bool _ _) eqn:E; [|reflexivity].
  apply Qle_bool_iff in E. exfalso.
  assert (B : (Qabs (inject_Z a) <= inject_Z (2 ^ 53))%Q).
  { change (Qabs (inject_Z a)) with (inject_Z (Z.abs a)).
    rewrite <- Zle_Qle. exact H. }
  assert (C : (inject_Z (2 ^ 53) < pow2 1024 - pow2 970)%Q)
    by (vm_compute; reflexivity).
  eapply Qlt_not_le; [exact C|]. eapply Qle_trans; eassumption.
Qed.

Lemma small_exact (a : Z) :
  (Z.abs a <= 2 ^ 53)%Z -> (of_Z a == inject_Z a)%Q.
Proof.
  intros H. unfold of_Z. destruct (Z_lt_le_dec a 0) as [N|P].
  - assert (E : (inject_Z a == - inject_Z (- a))%Q).
    { rewrite <- inject_Z_opp, Z.opp_involutive. reflexivity. }
    rewrite (round_compat _ _ E), round_opp.
    assert (F : (inject_Z (- a) == inject_Z (- a) * pow2 0)%Q)
      by (change (pow2 0) with 1%Q; rewrite Qmult_1_r; reflexivity).
    rewrite (round_compat _ _ F), round_fixed by lia.
    rewrite <- F, <- E. reflexivity.
  - assert (F : (inject_Z a == inject_Z a * pow2 0)%Q)
      by (change (pow2 0) with 1%Q; rewrite Qmult_1_r; reflexivity).
    rewrite (round_compat _ _ F), round_fixed by lia.
    symmetry. exact F.
Qed.

Lemma quotient_fits (a : Z) (count : nat) :
  (Z.abs a <= 2 ^ 53)%Z -> 0 < count ->
  PyFloat.overflows (inject_Z a / inject_Z (Z.of_nat count)) = false.
Proof.
  intros H Hc. unfold PyFloat.overflows.
  destruct (Qle_bool _ _) eqn:E; [|reflexivity].
  apply Qle_bool_iff in E. exfalso.
  assert (B : (Qabs (inject_Z a / inject_Z (Z.of_nat count))
               <= inject_Z (2 ^ 53))%Q).
  { unfold Qdiv. rewrite Qabs_Qmult.
    assert (P : (0 < inject_Z (Z.of_nat count))%Q)
      by (change 0%Q with (inject_Z 0); rewrite <- Zlt_Qlt; lia).
    assert (I : (0 < / inject_Z (Z.of_nat count))%Q)
      by (apply Qinv_lt_0_compat; exact P).
    rewrite (Qabs_pos (/ _)) by (apply Qlt_le_weak; exact I).
    apply Qle_shift_div_r; [exact P|].
    eapply Qle_trans.
    - change (Qabs (inject_Z a)) with (inject_Z (Z.abs a)).
      rewrite <- Zle_Qle. exact H.
    - rewrite <- (Qmult_1_r (inject_Z (2 ^ 53))) at 1.
      apply Qmult_le_l; [reflexivity|].
      change 1%Q with (inject_Z 1). rewrite <- Zle_Qle. lia. }
  assert (C : (inject_Z (2 ^ 53) < pow2 1024 - pow2 970)%Q)
    by (vm_compute; reflexivity).
  eapply Qlt_not_le; [exact C|]. eapply Qle_trans; eassumption.
Qed.

Section Calls.

Variable World : Type.
Variable notion_search : World -> option json * World.
Variable notion_databases_query : json -> World -> option json * World.
Variable notion_databases_retrieve : json -> World -> option json * World.

Local Abbreviation showW :=
  (show_todays_calories World notion_search notion_databases_query
     notion_databases_retrieve).
Local Abbreviation answeredW :=
  (answered World notion_search notion_databases_query
     notion_databases_retrieve).

Lemma show_answered w entries db_props w3 :
  answeredW w entries db_props w3 ->
  showW w
  = match calories_summary entries db_props with
    | Value reply => Some (reply, w3)
    | Raises => Some (ErrorFetching, w3)
    | NonFinite => None
    end.
Proof.
  intros (response & w1 & qa & w2 & ra & Hs & Ht & Hq & Hqr & Hr & Hrp).
  unfold show_todays_calories, get_nutrition_db_id.
  rewrite Hs, Ht. cbn [negb]. rewrite Hq. cbn [Py.bind]. rewrite Hqr, Hr.
  cbn [Py.bind]. rewrite Hrp. reflexivity.
Qed.

(** X17: with whole-number calories, the summary counts the entries that
    hold a number, zero included, and shows their exact sum and the average
    rounded to a whole number; entries without a number are skipped, and
    when no entry holds one the reply is that there are no entries.  The
    column summed is the first property of the database whose name holds
    calori in any case. *)
Theorem summary_of_integers (w w3 : World) (entries : list json)
    (items : list (str * json)) (prop : str) (values : list (option Z)) :
  answeredW w (JList entries) (JDict items) w3 ->
  calories_column prop items ->
  Forall2 (fun entry v => entry_calories prop entry = Some (reading v))
    entries values ->
  (Z.abs (sum_Z (present values)) <= 2 ^ 53)%Z ->
  showW w
  = Some
      (match present values with
       | [] => NoEntriesToday
       | numbers =>
           TodaysSummary (List.length numbers) (sum_Z numbers)
             (round_half_even
                (Double.round
                   (inject_Z (sum_Z numbers)
                    / inject_Z (Z.of_nat (List.length numbers)))))
       end, w3).
Proof.
  intros Ha Hc Hv Hs. rewrite (show_answered _ _ _ _ Ha).
  unfold calories_summary. rewrite (find_calories_column _ _ Hc).
  destruct Hc as (_ & _ & _ & _ & _ & Hp). rewrite (column_truthy _ Hp).
  cbn [negb Py.iter]. rewrite (tally_readings _ _ _ 0%Z 0 Hv).
  rewrite Z.add_0_l, Nat.add_0_l.
  destruct (present values) as [|n ns] eqn:E; [reflexivity|].
  rewrite <- E in *.
  assert (Hl : 0 < List.length (present values)) by (rewrite E; simpl; lia).
  replace (0 <? List.length (present values)) with true
    by (symmetry; apply Nat.ltb_lt; exact Hl).
  unfold summary_reply, Num.shown, Num.to_float, Num.over.
  rewrite (small_fits _ Hs), (quotient_fits _ _ Hs Hl).
  rewrite (round_half_even_compat _ _ (small_exact _ Hs)), round_half_even_Z.
  rewrite E. reflexivity.
Qed.

(** X18: one entry whose calories cannot be read or are not a number (a
    text, a list or a dict) makes the whole summary fail with the error
    reply, whatever the entries after it hold. *)
Theorem summary_poisoned (w w3 : World) (before after : list json)
    (bad : json) (items : list (str * json)) (prop : str)
    (values : list (option Z)) :
  answeredW w (JList (before ++ bad :: after)) (JDict items) w3 ->
  calories_column prop items ->
  Forall2 (fun entry v => entry_calories prop entry = Some (reading v))
    before values ->
  (entry_calories prop bad = None
   \/ exists v, entry_calories prop bad = Some v /\ not_a_number v = true) ->
  showW w = Some (ErrorFetching, w3).
Proof.
  intros Ha Hc Hv Hb. rewrite (show_answered _ _ _ _ Ha).
  unfold calories_summary. rewrite (find_calories_column _ _ Hc).
  destruct Hc as (_ & _ & _ & _ & _ & Hp). rewrite (column_truthy _ Hp).
  cbn [negb Py.iter].
  rewrite (tally_app _ _ _ _ _ _ _ (tally_readings _ _ _ 0%Z 0 Hv)).
  cbn [tally]. destruct Hb as [->|(v & -> & Hn)]; [reflexivity|].
  destruct v; try discriminate; reflexivity.
Qed.

End Calls.

Lemma summary_of_integers_witness :
  show_todays_calories NoWorld search_tracker
    (query_of [entry_with (L "Calories") (JInt 165);
               entry_with (L "Protein") (JInt 31);
               entry_with (L "Calories") (JInt 0);
               entry_with (L "Calories") (JInt 90)])
    retrieve_props tt
  = Some (TodaysSummary 3 255 85, tt).
Proof.
  apply (summary_of_integers NoWorld search_tracker
           (query_of [entry_with (L "Calories") (JInt 165);
                      entry_with (L "Protein") (JInt 31);
                      entry_with (L "Calories") (JInt 0);
                      entry_with (L "Calories") (JInt 90)])
           retrieve_props tt tt
           [entry_with (L "Calories") (JInt 165);
            entry_with (L "Protein") (JInt 31);
            entry_with (L "Calories") (JInt 0);
            entry_with (L "Calories") (JInt 90)]
           tracker_props (L "Calories")
           [Some 165%Z; None; Some 0%Z; Some 90%Z]).
  - exists (Some (search_answer [page_object (L "p-1"); tracker_db])), tt.
    eexists. exists tt. eexists. repeat split; reflexivity.
  - exists [(L "Food name", JDict [(L "type", JStr (L "title"))])].
    eexists. eexists. split; [reflexivity|]. split; [|reflexivity].
    repeat constructor.
  - repeat constructor.
  - vm_compute. discriminate.
Defined.

Lemma summary_poisoned_witness :
  show_todays_calories NoWorld search_tracker
    (query_of [entry_with (L "Calories") (JInt 165);
               entry_with (L "Calories") (JStr (L "90 kcal"));
               entry_with (L "Calories") (JInt 90)])
    retrieve_props tt
  = Some (ErrorFetching, tt).
Proof.
  apply (summary_poisoned NoWorld search_tracker
           (query_of [entry_with (L "Calories") (JInt 165);
                      entry_with (L "Calories") (JStr (L "90 kcal"));
                      entry_with (L "Calories") (JInt 90)])
           retrieve_props tt tt
           [entry_with (L "Calories") (JInt 165)]
           [entry_with (L "Calories") (JInt 90)]
           (entry_with (L "Calories") (JStr (L "90 kcal")))
           tracker_props (L "Calories") [Some 165%Z]).
  - exists (Some (search_answer [page_object (L "p-1"); tracker_db])), tt.
    eexists. exists tt. eexists. repeat split; reflexivity.
  - exists [(L "Food name", JDict [(L "type", JStr (L "title"))])].
    eexists. eexists. split; [reflexivity|]. split; [|reflexivity].
    repeat constructor.
  - repeat constructor.
  - right. eexists. split; reflexivity.
Defined.

End SummaryProps.

(** ** The matcher on exact names *)

Module MatcherProps.

Import Difflib MatcherKey Counting LongestMatch Scores MatcherClaims.

Lemma popular_short b c : List.length b < 200 -> popular b c = false.
Proof.
  intros H. unfold popular.
  destruct (200 <=? List.length b) eqn:E; [|reflexivity].
  apply Nat.leb_le in E. lia.
Qed.

Lemma scan_row_ge i : forall row j best,
  snd best <= snd (scan_row i j row best)
  /\ forall t, nth t row 0 <= snd (scan_row i j row best).
Proof.
  induction row as [|k row IH]; intros j best; cbn [scan_row].
  - split; [apply Nat.le_refl|]. intros [|t]; simpl; lia.
  - set (best' := if snd best <? k then (S i - k, S j - k, k) else best).
    destruct (IH (S j) best') as [H1 H2].
    assert (B : snd best <= snd best' /\ k <= snd best').
    { unfold best'. destruct (snd best <? k) eqn:E.
      - apply Nat.ltb_lt in E. simpl. lia.
      - apply Nat.ltb_ge in E. lia. }
    destruct B as [B1 B2]. split; [exact (Nat.le_trans _ _ _ B1 H1)|].
    intros [|t]; cbn [nth]; [exact (Nat.le_trans _ _ _ B2 H1)|apply H2].
Qed.

Lemma skipn_cons (s : str) i c rest :
  skipn i s = c :: rest ->
  nth_error s i = Some c /\ skipn (S i) s = rest /\ i < List.length s.
Proof.
  revert i. induction s as [|d s IH]; intros i H.
  - destruct i; discriminate.
  - destruct i as [|i].
    + inv H. simpl. repeat split. lia.
    + cbn [skipn] in H. destruct (IH i H) as (H1 & H2 & H3).
      cbn [nth_error List.length]. repeat split; [exact H1|exact H2|lia].
Qed.

(** On two copies of a short string the rows reach the full diagonal. *)
Lemma rows_diag s : List.length s < 200 ->
  forall as_ i row best,
    skipn i s = as_ ->
    match i with
    | O => True
    | S i' => nth i' row 0 = i
    end ->
    i <= snd best ->
    i + List.length as_ <= snd (rows s 0 (List.length s) i as_ row best).
Proof.
  intros Hs. induction as_ as [|ai as_ IH]; intros i row best Hk Hd Hb.
  - simpl. lia.
  - destruct (skipn_cons _ _ _ _ Hk) as (Hi & Hk' & Hlt).
    cbn [rows List.length]. rewrite <- Nat.add_succ_comm.
    set (row' := next_row s ai 0 (List.length s) 0 s 0 row).
    assert (E : nth i row' 0 = S i).
    { unfold row'. rewrite next_row_nth, Hi. cbn [Nat.add].
      rewrite (popular_short _ _ Hs), Ascii.eqb_refl.
      replace (i <? List.length s) with true
        by (symmetry; apply Nat.ltb_lt; exact Hlt).
      cbn [Nat.leb andb negb]. f_equal.
      destruct i as [|i']; [reflexivity|exact Hd]. }
    apply IH; [exact Hk' | exact E |].
    rewrite <- E. apply scan_row_ge.
Qed.

Lemma find_longest_same s : List.length s < 200 ->
  find_longest_match s s 0 (List.length s) 0 (List.length s)
  = (0, 0, List.length s).
Proof.
  intros Hs. unfold find_longest_match.
  pose proof (rows_ok s s 0 (List.length s) 0 (List.length s)
                (firstn (List.length s - 0) (skipn 0 s)) 0
                (repeat 0 (List.length s)) (0, 0, 0) eq_refl
                (Nat.le_refl _) (row_zero_ok s s 0 0 (List.length s) _)) as H0.
  pose proof (rows_diag s Hs s 0 (repeat 0 (List.length s)) (0, 0, 0)
                eq_refl I (Nat.le_refl _)) as H1.
  rewrite Nat.sub_0_r, firstn_all in *. cbn [skipn] in *.
  destruct (rows s 0 (List.length s) 0 s (repeat 0 (List.length s)) (0, 0, 0))
    as [[bi bj] bk].
  cbn [snd Nat.add] in H1.
  assert (H2 : best_ok s s 0 0 (List.length s) (List.length s) (bi, bj, bk)).
  { apply H0. unfold best_ok. repeat split; try lia. intros d Hd. lia. }
  destruct H2 as (_ & A & _ & B & _).
  assert (bk = List.length s) by lia. assert (bi = 0) by lia.
  assert (bj = 0) by lia. subst bi bj bk.
  cbn [extend_left Nat.add]. rewrite Nat.sub_diag. reflexivity.
Qed.

Lemma matched_same s : List.length s < 200 ->
  matched (S (List.length s)) s s 0 (List.length s) 0 (List.length s)
  = List.length s.
Proof.
  intros Hs. cbn [matched]. rewrite (find_longest_same s Hs).
  destruct (List.length s =? 0) eqn:E; [apply Nat.eqb_eq in E; lia|].
  change (0 <? 0) with false. cbn [andb Nat.add].
  rewrite Nat.ltb_irrefl. cbn [andb]. lia.
Qed.


Import Double DoubleFacts DoubleMore.

Lemma of_nat_small n :
  n < 400 -> (of_nat n == inject_Z (Z.of_nat n))%Q.
Proof.
  intros H. unfold of_nat. apply SummaryProps.small_exact.
  assert (E : (2 ^ 53 = 9007199254740992)%Z) by reflexivity. lia.
Qed.

Lemma twice_small n :
  n < 200 -> (mul 2 (of_nat n) == inject_Z (Z.of_nat (n + n)))%Q.
Proof.
  intros H. unfold mul.
  assert (E : (2 * of_nat n == inject_Z (Z.of_nat (n + n)))%Q).
  { rewrite (of_nat_small n) by lia. rewrite Nat2Z.inj_add, inject_Z_plus.
    ring. }
  rewrite (round_compat _ _ E). apply (of_nat_small (n + n)). lia.
Qed.

Lemma calculate_ratio_full n :
  n < 200 -> calculate_ratio n (n + n) = 1%Q.
Proof.
  intros H. destruct n as [|n]; [reflexivity|].
  cbn [Nat.add calculate_ratio]. unfold div.
  assert (E : (mul 2 (of_nat (S n)) / of_nat (S (n + S n)) == 1)%Q).
  { rewrite (twice_small (S n) H).
    rewrite (of_nat_small (S (n + S n))) by lia.
    change (S (n + S n)) with (S n + S n).
    apply Qmult_inv_r. intros Z.
    assert (P : (0 < inject_Z (Z.of_nat (S n + S n)))%Q)
      by (change 0%Q with (inject_Z 0); rewrite <- Zlt_Qlt; lia).
    rewrite Z in P. discriminate. }
  rewrite (round_compat _ _ E). reflexivity.
Qed.

Lemma ratio_same s : List.length s < 200 -> ratio s s = 1%Q.
Proof.
  intros H. unfold ratio. rewrite (matched_same s H).
  apply calculate_ratio_full, H.
Qed.

(** Fewer matches than half the two lengths score below 1. *)
Lemma calculate_ratio_partial m len :
  m < 200 -> m + m < len -> (calculate_ratio m len < 1)%Q.
Proof.
  intros Hm Hl. destruct len as [|len]; [lia|].
  cbn [calculate_ratio]. unfold div.
  assert (B : (round (398 # 399) < 1)%Q) by (vm_compute; reflexivity).
  eapply Qle_lt_trans; [|exact B]. apply round_mono.
  assert (D : (inject_Z (Z.of_nat (S (m + m))) <= of_nat (S len))%Q).
  { rewrite <- (of_nat_small (S (m + m))) by lia. apply of_nat_mono. lia. }
  assert (P : (0 < inject_Z (Z.of_nat (S (m + m))))%Q)
    by (change 0%Q with (inject_Z 0); rewrite <- Zlt_Qlt; lia).
  apply Qle_shift_div_r; [eapply Qlt_le_trans; eassumption|].
  rewrite (twice_small m Hm).
  apply Qle_trans with ((398 # 399) * inject_Z (Z.of_nat (S (m + m))))%Q.
  - unfold Qle, Qmult, inject_Z. simpl Qnum. simpl Qden. lia.
  - apply Qmult_le_l; [reflexivity|exact D].
Qed.

Lemma slice_length_le (s : str) lo hi : List.length (slice s lo hi) <= hi - lo.
Proof. unfold slice. apply firstn_le_length. Qed.

Lemma slice_empty (s : str) lo : slice s lo lo = [].
Proof. unfold slice. rewrite Nat.sub_diag. reflexivity. Qed.

(** Blocks that cover a range in full spell the same text in both. *)
Lemma matched_full a b fuel : forall alo ahi blo bhi,
  alo <= ahi -> blo <= bhi ->
  ahi - alo = bhi - blo ->
  matched fuel a b alo ahi blo bhi = ahi - alo ->
  slice a alo ahi = slice b blo bhi.
Proof.
  induction fuel as [|fuel IH]; intros alo ahi blo bhi Ha Hb He Hm.
  - simpl in Hm. replace ahi with alo by lia. replace bhi with blo by lia.
    rewrite !slice_empty. reflexivity.
  - cbn [matched] in Hm.
    pose proof (find_longest_match_ok a b alo ahi blo bhi Ha Hb) as H.
    destruct (find_longest_match a b alo ahi blo bhi) as [[i j] k].
    destruct H as (H1 & H2 & H3 & H4 & H5).
    destruct (k =? 0) eqn:Ek.
    { replace ahi with alo by lia. replace bhi with blo by lia.
      rewrite !slice_empty. reflexivity. }
    set (Lm := if (alo <? i) && (blo <? j)
               then matched fuel a b alo i blo j else 0) in *.
    set (Rm := if (i + k <? ahi) && (j + k <? bhi)
               then matched fuel a b (i + k) ahi (j + k) bhi else 0) in *.
    assert (L : Lm <= i - alo /\ Lm <= j - blo).
    { unfold Lm. destruct ((alo <? i) && (blo <? j)); [|lia].
      pose proof (matched_le_common a b fuel alo i blo j H1 H3) as B.
      pose proof (common_chars_le_l (slice a alo i) (slice b blo j)).
      pose proof (common_chars_le_r (slice a alo i) (slice b blo j)).
      pose proof (slice_length_le a alo i).
      pose proof (slice_length_le b blo j). lia. }
    assert (R : Rm <= ahi - (i + k) /\ Rm <= bhi - (j + k)).
    { unfold Rm. destruct ((i + k <? ahi) && (j + k <? bhi)); [|lia].
      pose proof (matched_le_common a b fuel (i + k) ahi (j + k) bhi H2 H4) as B.
      pose proof (common_chars_le_l (slice a (i + k) ahi) (slice b (j + k) bhi)).
      pose proof (common_chars_le_r (slice a (i + k) ahi) (slice b (j + k) bhi)).
      pose proof (slice_length_le a (i + k) ahi).
      pose proof (slice_length_le b (j + k) bhi). lia. }
    assert (EL : Lm = i - alo /\ i - alo = j - blo) by lia.
    assert (ER : Rm = ahi - (i + k) /\ ahi - (i + k) = bhi - (j + k)) by lia.
    rewrite (slice_split a alo i ahi) by lia.
    rewrite (slice_split a i (i + k) ahi) by lia.
    rewrite (slice_split b blo j bhi) by lia.
    rewrite (slice_split b j (j + k) bhi) by lia.
    destruct (block_slices a b i j k H5) as [Hmid _]. rewrite Hmid.
    f_equal; [|f_equal].
    + unfold Lm in EL. destruct ((alo <? i) && (blo <? j)).
      * apply IH; lia.
      * replace i with alo by lia. replace j with blo by lia.
        rewrite !slice_empty. reflexivity.
    + unfold Rm in ER. destruct ((i + k <? ahi) && (j + k <? bhi)).
      * apply IH; lia.
      * replace ahi with (i + k) by lia. replace bhi with (j + k) by lia.
        rewrite !slice_empty. reflexivity.
Qed.

(** Against a short word only the word itself scores 1. *)
Lemma ratio_below_1 x word :
  List.length word < 200 -> x <> word -> (ratio x word < 1)%Q.
Proof.
  intros Hw Hx.
  destruct (Nat.eq_dec (List.length x) (List.length word)) as [E|N].
  - unfold ratio.
    set (M := matched (S (List.length x)) x word 0 (List.length x) 0
                (List.length word)).
    assert (B : M <= List.length x).
    { unfold M. etransitivity; [apply matched_le_common; lia|].
      etransitivity; [apply common_chars_le_l|]. rewrite slice_full. lia. }
    destruct (Nat.eq_dec M (List.length x)) as [F|F].
    + exfalso. apply Hx.
      rewrite <- (slice_full x), <- (slice_full word).
      apply (matched_full x word (S (List.length x))); try lia.
    + apply calculate_ratio_partial; lia.
  - eapply Qle_lt_trans; [apply ratio_le_quick|].
    eapply Qle_lt_trans; [apply quick_le_real_quick|].
    unfold real_quick_ratio. apply calculate_ratio_partial; lia.
Qed.

(** X19: a name whose lower-cased form is a key of the table, shorter than
    200 characters, is matched with exactly that key, whatever the other
    keys are. *)
Theorem exact_key_matched (food_name : str) (known_foods : table) :
  In (Str.lower food_name) (keys known_foods) ->
  List.length (Str.lower food_name) < 200 ->
  match_known_food food_name known_foods cutoff_default
  = Some (Str.lower food_name).
Proof.
  intros Hin Hlen. set (word := Str.lower food_name) in *.
  assert (P : passes cutoff_default word word = true).
  { rewrite passes_iff, (ratio_same word Hlen). reflexivity. }
  destruct (match_known_food food_name known_foods cutoff_default) as [k|] eqn:E.
  - pose proof (match_known_food_best _ _ _ _ E word Hin) as B.
    fold word in B. rewrite (ratio_same word Hlen) in B.
    destruct (list_eq_dec ascii_dec k word) as [->|N]; [reflexivity|].
    exfalso. apply (Qlt_not_le _ _ (ratio_below_1 k word Hlen N)). exact B.
  - apply match_known_food_none in E. fold word in E.
    rewrite scored_nil in E. rewrite (E word Hin) in P. discriminate.
Qed.

Lemma exact_key_matched_witness :
  match_known_food (L "Chicken Breast")
    [(L "chicken", Macros 239 27 0 14); (L "chicken breast", Macros 165 31 0 4)]
    cutoff_default
  = Some (L "chicken breast").
Proof.
  apply (exact_key_matched (L "Chicken Breast")
           [(L "chicken", Macros 239 27 0 14);
            (L "chicken breast", Macros 165 31 0 4)]).
  - right. left. reflexivity.
  - vm_compute. lia.
Defined.

End MatcherProps.

(** ** The handler on any answer of the estimator *)

Module UntypedFacts.

Import Dedup.

Lemma est_app t1 t2 :
  Untyped.estimates (t1 ++ t2) = Untyped.estimates t1 ++ Untyped.estimates t2.
Proof.
  induction t1 as [|[f s|f s m|r] t1 IH]; simpl; rewrite ?IH; reflexivity.
Qed.

Lemma rep_app t1 t2 :
  Untyped.replies (t1 ++ t2) = Untyped.replies t1 ++ Untyped.replies t2.
Proof.
  induction t1 as [|[f s|f s m|r] t1 IH]; simpl; rewrite ?IH; reflexivity.
Qed.

Section Loop.

Variable World : Type.
Variable estimator : str -> Q -> World -> json * World.
Variable search : World -> option json * World.
Variable create :
  json -> str -> Q -> json -> json -> json -> json -> World -> bool * World.
Variable known_foods : table.

Local Abbreviation stepW := (Untyped.step World estimator search create known_foods).
Local Abbreviation loopW := (Untyped.loop World estimator search create known_foods).
Local Abbreviation get_macrosW := (Untyped.get_macros World estimator known_foods).
Local Abbreviation addW := (Untyped.add_food_to_notion World search create).
Local Abbreviation missedW := (missed known_foods).

(** A write that succeeded has read the four values. *)
Lemma add_ok_values food serving macros w w' :
  addW food serving macros w = (true, w') ->
  exists c p cb f,
    Py.getitem macros (L "Calories") = Some c
    /\ Py.getitem macros (L "Protein") = Some p
    /\ Py.getitem macros (L "Carbohydrates") = Some cb
    /\ Py.getitem macros (L "Fats") = Some f.
Proof.
  unfold Untyped.add_food_to_notion.
  destruct (get_nutrition_db_id World search w) as [db_id w1].
  destruct (negb (Py.truth db_id)); [discriminate|].
  unfold Untyped.four_values.
  destruct (Py.getitem macros (L "Calories")) as [c|]; [|discriminate].
  destruct (Py.getitem macros (L "Protein")) as [p|]; [|discriminate].
  destruct (Py.getitem macros (L "Carbohydrates")) as [cb|]; [|discriminate].
  destruct (Py.getitem macros (L "Fats")) as [f|]; [|discriminate].
  intros _. exists c, p, cb, f. auto.
Qed.

(** The estimator is called once on a miss and not at all on a hit. *)
Lemma get_macros_calls it w :
  let '(m, evs, w1) := get_macrosW (food it) (serving it) w in
  Untyped.estimates evs = (if missedW it then [asked it] else [])
  /\ Untyped.replies evs = [].
Proof.
  unfold Untyped.get_macros, missed, hit, asked.
  destruct (match_known_food (food it) known_foods cutoff_default) as [k|].
  - destruct (truthy k); simpl; [auto|].
    destruct (estimator (food it) (serving it) w) as [m w1]. simpl. auto.
  - destruct (estimator (food it) (serving it) w) as [m w1]. simpl. auto.
Qed.

(** One iteration, however it ends: the name goes to exactly one of the two
    lists. *)
Lemma step_shape st it :
  let st' := Untyped.state_of (stepW st it) in
  exists S' F' T',
    Untyped.successful_items st' = Untyped.successful_items st ++ S'
    /\ Untyped.failed_items st' = Untyped.failed_items st ++ F'
    /\ Untyped.trace st' = Untyped.trace st ++ T'
    /\ ((map Untyped.name S' = [food it] /\ F' = [])
        \/ (S' = [] /\ F' = [food it]))
    /\ Untyped.estimates T' = (if missedW it then [asked it] else [])
    /\ Untyped.replies T' = [].
Proof.
  unfold Untyped.step. pose proof (get_macros_calls it (Untyped.world st)) as Hc.
  destruct (get_macrosW (food it) (serving it) (Untyped.world st))
    as [[m evs] w1].
  destruct Hc as [He Hr].
  destruct (Py.truth m).
  - destruct (addW (food it) (serving it) m w1) as [ok w2] eqn:Ea.
    destruct ok.
    + destruct (add_ok_values _ _ _ _ _ Ea) as (c & p & cb & f & Hc & Hp & _).
      rewrite Hc, Hp.
      destruct (Num.plus (Untyped.total_calories st) c) as [t| |];
        cbn [Untyped.state_of Untyped.successful_items Untyped.failed_items
             Untyped.trace];
        exists [Untyped.Success (food it) c p (serving it)], [],
          (evs ++ [Untyped.EvPersist (food it) (serving it) m]);
        rewrite est_app, rep_app, He, Hr, !app_nil_r; simpl;
        rewrite ?app_nil_r; repeat split; auto.
    + cbn [Untyped.state_of Untyped.successful_items Untyped.failed_items
           Untyped.trace].
      exists [], [food it],
        (evs ++ [Untyped.EvPersist (food it) (serving it) m]).
      rewrite est_app, rep_app, He, Hr, !app_nil_r. simpl.
      rewrite ?app_nil_r. repeat split; auto.
  - cbn [Untyped.state_of Untyped.successful_items Untyped.failed_items
         Untyped.trace].
    exists [], [food it], evs. rewrite !app_nil_r. repeat split; auto.
Qed.

(** The loop, from any state: the mentions gone through are a first part of
    the list, the whole list when the loop runs to its end. *)
Lemma loop_through items : forall st,
  let p := loopW items st in
  let st' := Untyped.state_of p in
  exists done rest S' F' T',
    items = done ++ rest
    /\ (forall st'', p = Untyped.Going st'' -> rest = [])
    /\ Untyped.successful_items st' = Untyped.successful_items st ++ S'
    /\ Untyped.failed_items st' = Untyped.failed_items st ++ F'
    /\ Untyped.trace st' = Untyped.trace st ++ T'
    /\ Permutation (map Untyped.name S' ++ F') (map food done)
    /\ Untyped.estimates T' = map asked (filter missedW done)
    /\ Untyped.replies T' = [].
Proof.
  induction items as [|it items IH]; intros st; cbn [Untyped.loop].
  - exists [], [], [], [], []. rewrite !app_nil_r.
    repeat split; auto.
  - destruct (step_shape st it) as (S1 & F1 & T1 & HS & HF & HT & H1 & He & Hr).
    assert (P1 : Permutation (map Untyped.name S1 ++ F1) [food it]).
    { destruct H1 as [[-> ->]|[-> ->]]; simpl; auto. }
    destruct (stepW st it) as [st1|h st1]; cbn [Untyped.state_of] in *.
    + destruct (IH st1) as
        (done & rest & S2 & F2 & T2 & Hi & Hg & HS2 & HF2 & HT2 & P2 & E2 & R2).
      exists (it :: done), rest, (S1 ++ S2), (F1 ++ F2), (T1 ++ T2).
      split; [cbn [app]; f_equal; exact Hi|]. split; [exact Hg|].
      rewrite HS2, HF2, HT2, HS, HF, HT, <- !app_assoc.
      rewrite est_app, rep_app, He, Hr, E2, R2.
      split; [reflexivity|]. split; [reflexivity|]. split; [reflexivity|].
      split; [|split; [|reflexivity]].
      * rewrite map_app. cbn [map].
        change (food it :: map food done) with ([food it] ++ map food done).
        eapply Permutation_trans;
          [|apply Permutation_app; [exact P1|exact P2]].
        rewrite <- !app_assoc. apply Permutation_app_head.
        rewrite !app_assoc. apply Permutation_app_tail.
        apply Permutation_app_comm.
      * cbn [filter]. destruct (missedW it); reflexivity.
    + exists [it], items, S1, F1, T1.
      split; [reflexivity|]. split; [discriminate|].
      split; [exact HS|]. split; [exact HF|]. split; [exact HT|].
      split; [exact P1|]. split; [|exact Hr].
      cbn [filter]. rewrite He. destruct (missedW it); reflexivity.
Qed.

(** One iteration on a miss whose answer is nothing usable: one estimator
    call, no write, the name appended to the failures, the loop going on. *)
Lemma step_no_answer st it :
  missedW it = true ->
  Py.truth (fst (estimator (food it) (serving it) (Untyped.world st))) = false ->
  stepW st it
  = Untyped.Going
      (Untyped.LoopState World (Untyped.total_calories st)
         (Untyped.successful_items st)
         (Untyped.failed_items st ++ [food it])
         (Untyped.trace st ++ [Untyped.EvEstimate (food it) (serving it)])
         (snd (estimator (food it) (serving it) (Untyped.world st)))).
Proof.
  unfold missed, hit, Untyped.step, Untyped.get_macros.
  intros Hm Hf.
  destruct (estimator (food it) (serving it) (Untyped.world st)) as [m w1] eqn:E.
  simpl in Hf.
  destruct (match_known_food (food it) known_foods cutoff_default) as [k|].
  - destruct (truthy k); [discriminate|]. rewrite Hf. reflexivity.
  - rewrite Hf. reflexivity.
Qed.

End Loop.

(** The handler of section [Handler] is the handler on any answer when the
    estimator answers with profiles or nothing: the two loops go through
    the same states, and the loop on any answer then never raises. *)
Section Typed.

Variable World : Type.
Variable ai : str -> Q -> World -> option macros * World.
Variable search : World -> option json * World.
Variable create :
  json -> str -> Q -> json -> json -> json -> json -> World -> bool * World.
Variable known_foods : table.

Local Abbreviation estW := (typed_estimator World ai).
Local Abbreviation notionW := (typed_notion World search create).
Local Abbreviation agreesW := (agrees World).

Lemma get_macros_agrees food serving w :
  Untyped.get_macros World estW known_foods food serving w
  = (let '(m, evs, w1) := get_macros World ai known_foods food serving w in
     (answer_json m, map event_json evs, w1)).
Proof.
  unfold Untyped.get_macros, get_macros, typed_estimator.
  destruct (match_known_food food known_foods cutoff_default) as [k|].
  - destruct (truthy k).
    + destruct (table_get known_foods k); reflexivity.
    + destruct (ai food serving w) as [a w1]. reflexivity.
  - destruct (ai food serving w) as [a w1]. reflexivity.
Qed.

Lemma plus_float t n y :
  total_json t n ->
  match Num.plus n (JFloat y) with
  | Value n' => total_json (Double.add t y) n'
  | Raises => False
  | NonFinite => True
  end.
Proof.
  intros [[-> ->] | ->]; cbn [Num.plus].
  - assert (E : Num.to_float 0 = Value 0%Q) by (vm_compute; reflexivity).
    rewrite E. unfold Num.float_add.
    destruct (PyFloat.overflows (0 + y)); [exact I|]. right. reflexivity.
  - unfold Num.float_add.
    destruct (PyFloat.overflows (t + y)); [exact I|]. right. reflexivity.
Qed.

Lemma step_agrees st ust it :
  agreesW st ust ->
  match Untyped.step World estW search create known_foods ust it with
  | Untyped.Going ust' =>
      agreesW (step World ai notionW known_foods st it) ust'
  | Untyped.Halted h _ => h = Untyped.Unbounded
  end.
Proof.
  intros (Ht & Hs & Hf & Hr & Hw). unfold Untyped.step, step.
  rewrite Hw, get_macros_agrees.
  destruct (get_macros World ai known_foods (food it) (serving it) (world st))
    as [[m evs] w1].
  destruct m as [m|]; cbn [answer_json].
  - change (Py.truth (Untyped.profile_json m)) with true. cbv iota.
    unfold typed_notion.
    destruct (Untyped.add_food_to_notion World search create (food it)
                (serving it) (Untyped.profile_json m) w1) as [[|] w2].
    + change (Py.getitem (Untyped.profile_json m) (L "Calories"))
        with (Some (JFloat (Calories m))).
      change (Py.getitem (Untyped.profile_json m) (L "Protein"))
        with (Some (JFloat (Protein m))).
      cbv iota. pose proof (plus_float _ _ (Calories m) Ht) as Hp.
      destruct (Num.plus (Untyped.total_calories ust) (JFloat (Calories m)))
        as [n'| |]; [|contradiction|reflexivity].
      unfold agrees.
      cbn [total_calories successful_items failed_items trace world
           Untyped.total_calories Untyped.successful_items
           Untyped.failed_items Untyped.trace Untyped.world].
      rewrite Hs, Hf, Hr, !map_app. auto.
    + unfold agrees.
      cbn [total_calories successful_items failed_items trace world
           Untyped.total_calories Untyped.successful_items
           Untyped.failed_items Untyped.trace Untyped.world].
      rewrite Hs, Hf, Hr, !map_app. auto.
  - change (Py.truth JNull) with false. cbv iota. unfold agrees.
    cbn [total_calories successful_items failed_items trace world
         Untyped.total_calories Untyped.successful_items
         Untyped.failed_items Untyped.trace Untyped.world].
    rewrite Hs, Hf, Hr, !map_app. auto.
Qed.

Lemma loop_agrees items : forall st ust,
  agreesW st ust ->
  match Untyped.loop World estW search create known_foods items ust with
  | Untyped.Going ust' =>
      agreesW (fold_left (step World ai notionW known_foods) items st) ust'
  | Untyped.Halted h _ => h = Untyped.Unbounded
  end.
Proof.
  induction items as [|it items IH]; intros st ust H;
    cbn [Untyped.loop fold_left]; [exact H|].
  pose proof (step_agrees st ust it H) as Hs.
  destruct (Untyped.step World estW search create known_foods ust it)
    as [ust1|h ust1]; [|exact Hs].
  apply IH. exact Hs.
Qed.

Lemma process_agrees items w :
  match Untyped.process World estW search create known_foods items w with
  | Untyped.Going ust' =>
      agreesW (process World ai notionW known_foods items w) ust'
  | Untyped.Halted h _ => h = Untyped.Unbounded
  end.
Proof.
  unfold Untyped.process, process. apply loop_agrees.
  unfold agrees, total_json. cbn. auto.
Qed.

End Typed.

End UntypedFacts.

Module UntypedClaims.

Import UntypedFacts.



(** C8, the failing input: "2 bananas" when the estimator answers with a
    dict whose calories are [null] and the page is created.  The page is
    written, adding the calories to the total raises, and the handler ends
    without any reply: a failure of the whole pipeline that is not the
    reply "no food identified", which a text without a mention gets. *)
Lemma C8_second_failure :
  let run :=
    Untyped.free_form_input NoWorld answer_null_calories search_tracker
      create_any [] (L "2 bananas") tt in
  parse_food_text (L "2 bananas") = [bananas_240]
  /\ Untyped.events run
     = [Untyped.EvEstimate (L "Bananas") 240;
        Untyped.EvPersist (L "Bananas") 240 null_calories]
  /\ Untyped.halted run = Some Untyped.Raised
  /\ Untyped.free_form_input NoWorld answer_null_calories search_tracker
       create_any [] (L "hello there") tt
     = Untyped.Run NoWorld [Untyped.EvReply Untyped.NoFoodIdentified] tt None.
Proof. cbv zeta. repeat split; vm_compute; reflexivity. Qed.

End UntypedClaims.

(** ** The normaliser on ASCII texts and beyond *)

Module WideFacts.

Lemma chr_eq_up ci c x : Wide.chr_eq ci (Wide.Asc c) (Wide.Asc x) = Re.chr_eq ci c x.
Proof. destruct ci; reflexivity. Qed.

Lemma wordb_up o : Wide.wordb (option_map Wide.Asc o) = Re.wordb o.
Proof. destruct o; reflexivity. Qed.

Lemma at_boundary_up st : Wide.at_boundary (up_state st) = Re.at_boundary st.
Proof.
  unfold Wide.at_boundary, Re.at_boundary, up_state. cbn [Wide.prev Wide.rest].
  rewrite wordb_up. f_equal.
  destruct (Re.rest st); reflexivity.
Qed.

Lemma star_cls_up p q k wk :
  (forall c, q (Wide.Asc c) = p c) ->
  (forall st, wk (up_state st) = option_map up_state (k st)) ->
  forall s pv i cs,
    Wide.star_cls q wk (option_map Wide.Asc pv) (Wide.up s) i (up_caps cs)
    = option_map up_state (Re.star_cls p k pv s i cs).
Proof.
  intros Hq Hk. induction s as [|c s IH]; intros pv i cs;
    cbn [Wide.up map Wide.star_cls Re.star_cls].
  - apply (Hk (Re.MState pv [] i cs)).
  - rewrite Hq. destruct (p c).
    + pose proof (IH (Some c) (S i) cs) as E. cbn [option_map] in E.
      unfold Wide.up in E. rewrite E.
      destruct (Re.star_cls p k (Some c) s (S i) cs); [reflexivity|].
      apply (Hk (Re.MState pv (c :: s) i cs)).
    + apply (Hk (Re.MState pv (c :: s) i cs)).
Qed.

Lemma rmatch_up ci r w :
  same_pattern r w ->
  forall k wk,
    (forall st, wk (up_state st) = option_map up_state (k st)) ->
    forall st,
      Wide.rmatch ci w wk (up_state st) = option_map up_state (Re.rmatch ci r k st).
Proof.
  induction 1 as [c|p q Hq|r1 r2 w1 w2 _ IH1 _ IH2|r1 r2 w1 w2 _ IH1 _ IH2
                  |r w _ IH|p q Hq|p q Hq| |n r w _ IH];
    intros k wk Hk st; cbn [Wide.rmatch Re.rmatch].
  - destruct st as [pv [|x s] i cs]; cbn [up_state Wide.rest Re.rest Wide.up map];
      [reflexivity|].
    rewrite chr_eq_up. destruct (Re.chr_eq ci c x); [|reflexivity].
    apply (Hk (Re.advance (Re.MState pv (x :: s) i cs) x s)).
  - destruct st as [pv [|x s] i cs]; cbn [up_state Wide.rest Re.rest Wide.up map];
      [reflexivity|].
    rewrite Hq. destruct (p x); [|reflexivity].
    apply (Hk (Re.advance (Re.MState pv (x :: s) i cs) x s)).
  - apply IH1. intros st'. apply IH2. exact Hk.
  - rewrite (IH1 k wk Hk st).
    destruct (Re.rmatch ci r1 k st); [reflexivity|]. apply IH2. exact Hk.
  - rewrite (IH k wk Hk st).
    destruct (Re.rmatch ci r k st); [reflexivity|]. apply Hk.
  - unfold Wide.star, Re.star. destruct st as [pv s i cs].
    apply star_cls_up; assumption.
  - destruct st as [pv [|x s] i cs]; cbn [up_state Wide.rest Re.rest Wide.up map];
      [reflexivity|].
    rewrite Hq. destruct (p x); [|reflexivity].
    unfold Wide.star, Re.star.
    apply (star_cls_up p q k wk Hq Hk s (Some x) (S i) cs).
  - rewrite at_boundary_up. destruct (Re.at_boundary st); [apply Hk|reflexivity].
  - apply IH. intros st'.
    pose proof (Hk (Re.set_cap n
                      (firstn (Re.pos st' - Re.pos st) (Re.rest st)) st')) as E.
    rewrite <- E. f_equal.
    unfold Wide.set_cap, Re.set_cap, up_state. cbn [Wide.prev Wide.rest Wide.pos Wide.caps Re.prev
      Re.rest Re.pos Re.caps up_caps map fst snd].
    unfold Wide.up. rewrite firstn_map. reflexivity.
Qed.

Lemma match_at_up ci r w pv s :
  same_pattern r w ->
  Wide.match_at ci w (option_map Wide.Asc pv) (Wide.up s)
  = option_map up_state (Re.match_at ci r pv s).
Proof.
  intros H. unfold Wide.match_at, Re.match_at.
  apply (rmatch_up ci r w H Some Some (fun st => eq_refl)
           (Re.MState pv s 0 [])).
Qed.

Lemma sub_go_up ci r w repl :
  same_pattern r w ->
  forall s skip pv,
    Wide.sub_go ci w (Wide.up repl) skip (option_map Wide.Asc pv) (Wide.up s)
    = Wide.up (Re.sub_go ci r repl skip pv s).
Proof.
  intros H. induction s as [|c s IH]; intros skip pv; [reflexivity|].
  cbn [Wide.up map Wide.sub_go Re.sub_go]. destruct skip as [|n].
  - pose proof (match_at_up ci r w pv (c :: s) H) as E.
    cbn [Wide.up map] in E. rewrite E.
    destruct (Re.match_at ci r pv (c :: s)) as [st|]; cbn [option_map].
    + cbn [up_state Wide.pos]. destruct (Re.pos st) as [|n].
      * cbn [map]. f_equal. apply (IH 0 (Some c)).
      * unfold Wide.up. rewrite map_app. f_equal. apply (IH n (Some c)).
    + cbn [map]. f_equal. apply (IH 0 (Some c)).
  - apply (IH n (Some c)).
Qed.

Lemma sub_up ci r w repl s :
  same_pattern r w -> Wide.sub ci w (Wide.up repl) (Wide.up s) = Wide.up (Re.sub ci r repl s).
Proof. intros H. apply (sub_go_up ci r w repl H s 0 None). Qed.

Lemma lit_same s : same_pattern (Re.Lit s) (Wide.Lit (Wide.up s)).
Proof.
  induction s as [|c [|d s] IH].
  - apply same_opt. apply same_cls. reflexivity.
  - apply same_chr.
  - cbn [Re.Lit Wide.up map Wide.Lit]. apply same_seq; [apply same_chr|exact IH].
Qed.

Lemma re_number_same : same_pattern re_number Wide.re_number.
Proof.
  repeat first [apply same_seq | apply same_opt | apply same_chr
               | apply same_plus | apply same_star]; reflexivity.
Qed.

Lemma re_stop_same : same_pattern re_stop Wide.re_stop.
Proof.
  unfold re_stop, Wide.re_stop, Wide.word.
  repeat first [apply lit_same | apply same_seq | apply same_bnd
               | apply same_grp | apply same_alt].
Qed.

Lemma re_spaces_same : same_pattern re_spaces Wide.re_spaces.
Proof. apply same_plus. reflexivity. Qed.

Lemma lstrip_up s : Wide.lstrip (Wide.up s) = Wide.up (Str.lstrip s).
Proof.
  induction s as [|c s IH]; [reflexivity|].
  cbn [Wide.up map Wide.lstrip Str.lstrip Wide.is_space].
  destruct (Char.is_space c); [exact IH|reflexivity].
Qed.

Lemma rev_up s : rev (Wide.up s) = Wide.up (rev s).
Proof. unfold Wide.up. rewrite map_rev. reflexivity. Qed.

Lemma strip_up s : Wide.strip (Wide.up s) = Wide.up (Str.strip s).
Proof.
  unfold Wide.strip, Str.strip, Wide.rstrip, Str.rstrip.
  rewrite lstrip_up, rev_up, lstrip_up, rev_up. reflexivity.
Qed.

Lemma flush_up acc : Wide.flush (Wide.up acc) = map Wide.up (Str.flush acc).
Proof.
  destruct acc as [|c acc]; [reflexivity|].
  cbn [Wide.up map Wide.flush Str.flush].
  rewrite <- (rev_up (c :: acc)). reflexivity.
Qed.

Lemma split_go_up s : forall acc,
  Wide.split_go (Wide.up acc) (Wide.up s) = map Wide.up (Str.split_go acc s).
Proof.
  induction s as [|c s IH]; intros acc; cbn [Wide.up map Wide.split_go Str.split_go].
  - apply flush_up.
  - cbn [Wide.is_space]. destruct (Char.is_space c).
    + rewrite map_app. f_equal; [apply flush_up|apply (IH [])].
    + apply (IH (c :: acc)).
Qed.

Lemma split_up s : Wide.split (Wide.up s) = map Wide.up (Str.split s).
Proof. apply (split_go_up s []). Qed.

Lemma join_up sep ws : Wide.join (Wide.up sep) (map Wide.up ws) = Wide.up (Str.join sep ws).
Proof.
  induction ws as [|w [|w' ws] IH]; [reflexivity|reflexivity|].
  cbn [map Wide.join Str.join] in *. rewrite IH. unfold Wide.up.
  rewrite !map_app. reflexivity.
Qed.

Lemma lower_up s : Wide.lower_text (Wide.up s) = Wide.up (Str.lower s).
Proof.
  unfold Wide.lower_text, Str.lower, Wide.up.
  induction s as [|c s IH]; [reflexivity|].
  cbn [map flat_map Wide.lower app]. f_equal. exact IH.
Qed.

Lemma upper_up s :
  Wide.upper_text (Wide.up s) = Wide.up (map Char.upper s).
Proof.
  unfold Wide.upper_text, Wide.up. induction s as [|c s IH]; [reflexivity|].
  cbn [map flat_map Wide.upper app]. f_equal. exact IH.
Qed.

Lemma capitalize_up s : Wide.capitalize (Wide.up s) = Wide.up (Str.capitalize s).
Proof.
  destruct s as [|c s]; [reflexivity|].
  cbn [Wide.up map Wide.capitalize Str.capitalize Wide.title app]. f_equal.
  apply (lower_up s).
Qed.

(** On an ASCII text the normaliser over texts is the ASCII normaliser. *)
Lemma clean_food_name_up s :
  Wide.clean_food_name (Wide.up s) = Wide.up (clean_food_name s).
Proof.
  unfold Wide.clean_food_name, clean_food_name.
  change (@nil Wide.uchar) with (Wide.up []).
  rewrite (sub_up false _ _ [] s re_number_same).
  rewrite (sub_up true _ _ [] _ re_stop_same).
  rewrite (sub_up false _ _ (L " ") _ re_spaces_same).
  rewrite strip_up, split_up, map_map.
  rewrite <- (join_up (L " ")), map_map.
  f_equal. apply map_ext. intros w. apply capitalize_up.
Qed.

Lemma ascii_text_up s : ascii_text s -> exists s0, s = Wide.up s0.
Proof.
  unfold ascii_text. induction s as [|a s IH]; intros H.
  - exists []. reflexivity.
  - cbn [forallb] in H. apply andb_prop in H. destruct H as [Ha Hs].
    destruct (IH Hs) as [s0 ->].
    destruct a as [c| |]; try discriminate. exists (c :: s0). reflexivity.
Qed.

End WideFacts.

Module WideClaims.

Import WideFacts.

(** C10, as stated, fails beyond ASCII: the title case of U+0149 is the two
    characters U+02BC and N, so the name made of that one letter is
    normalised to U+02BC N, and normalising this again lower-cases the N. *)
Lemma C10_capitalize_grows :
  Wide.clean_food_name [Wide.NApostrophe]
  = [Wide.ModApostrophe; Wide.Asc "N"%char]
  /\ Wide.clean_food_name (Wide.clean_food_name [Wide.NApostrophe])
     = [Wide.ModApostrophe; Wide.Asc "n"%char]
  /\ Wide.clean_food_name (Wide.clean_food_name [Wide.NApostrophe])
     <> Wide.clean_food_name [Wide.NApostrophe].
Proof.
  split; [vm_compute; reflexivity|]. split; [vm_compute; reflexivity|].
  vm_compute. discriminate.
Qed.

(** C10, amended: on every text of ASCII characters the name normaliser is
    idempotent. *)
Theorem C10_clean_idempotent (s : Wide.ustr) :
  ascii_text s ->
  Wide.clean_food_name (Wide.clean_food_name s) = Wide.clean_food_name s.
Proof.
  intros H. destruct (ascii_text_up s H) as [s0 ->].
  rewrite !clean_food_name_up. f_equal.
  apply NormaliserClaims.clean_twice.
Qed.

Lemma C10_clean_idempotent_witness :
  Wide.clean_food_name
    (Wide.clean_food_name (Wide.up (L "2 pieces of chicken BREAST")))
  = Wide.clean_food_name (Wide.up (L "2 pieces of chicken BREAST")).
Proof.
  apply (C10_clean_idempotent (Wide.up (L "2 pieces of chicken BREAST"))).
  reflexivity.
Defined.

(** X7: on a text of ASCII characters the normalised name does not depend
    on the letter case of the phrase: lower-casing or upper-casing the
    phrase first changes nothing. *)
Theorem clean_ignores_case (s : Wide.ustr) :
  ascii_text s ->
  Wide.clean_food_name (Wide.lower_text s) = Wide.clean_food_name s
  /\ Wide.clean_food_name (Wide.upper_text s) = Wide.clean_food_name s.
Proof.
  intros H. destruct (ascii_text_up s H) as [s0 ->].
  rewrite lower_up, upper_up, !clean_food_name_up.
  destruct (NormaliserProps.clean_recased s0) as [E1 E2].
  rewrite E1, E2. auto.
Qed.

Lemma clean_ignores_case_witness :
  Wide.clean_food_name (Wide.lower_text (Wide.up (L "Chicken BREAST")))
  = Wide.clean_food_name (Wide.up (L "Chicken BREAST"))
  /\ Wide.clean_food_name (Wide.upper_text (Wide.up (L "Chicken BREAST")))
     = Wide.clean_food_name (Wide.up (L "Chicken BREAST")).
Proof.
  apply (clean_ignores_case (Wide.up (L "Chicken BREAST"))).
  reflexivity.
Defined.

End WideClaims.
